(** * Balk: 3D thin-walled beam finite elements with warping torsion

    A shallow embedding of the core of the Python package [balk]
    ([node.py], [material.py], [section.py], [element.py], [model.py],
    [solver.py]) and of the request handler [api/index.py], together
    with the properties established about them.

    Conventions of the embedding.
    - Python exceptions are values of [exn]; a function that can raise
      returns a [result].  Functions that contain no raising operation
      (all of [Beam3D] but the geometric stiffness: NumPy arithmetic
      yields inf/nan instead of raising) are total functions.
    - Floating-point numbers are a type [F] with the operations of the
      class [Scalar]; the program runs on the instance [float] (IEEE
      binary64: NaN, infinities and signed zeros are present and
      everything evaluates).  A property stated for every instance
      holds in particular for binary64; the properties that depend on
      the arithmetic are stated for [float].
    - NumPy arrays are lists (vectors) and lists of rows (matrices).
      Sums of products ([numpy.dot], [@]) are taken from left to right
      with one rounding per operation, and [x ** n] is a repeated
      product: BLAS and libm may round the last bit differently, and
      the properties below are stated so as not to rest on that bit.
    - A [Node] object is mutable only in its [dof_indices]; that field
      lives in a store indexed by the identity [ref] of the object, so
      that the model's node table and the elements see the same
      indices, as they do through Python references.
    - [numpy.linalg.solve] and [scipy.linalg.eig] are LAPACK routines
      outside the repository: they are parameters of the solvers. *)

From Stdlib Require Import Floats.
From Stdlib Require Import String.
From Stdlib Require Import ZArith List Bool Arith Lia.
From Stdlib Require Import Permutation Sorted.
Import ListNotations.

(** ** Exceptions *)

Inductive exn : Type :=
| ValueError
| KeyError
| IndexError
| ZeroDivisionError
| LinAlgError.

Inductive result (A : Type) : Type :=
| Ok (a : A)
| Raise (e : exn).

Arguments Ok {A} a.
Arguments Raise {A} e.

Definition bind {A B : Type} (r : result A) (k : A -> result B) : result B :=
  match r with
  | Ok a => k a
  | Raise e => Raise e
  end.

Notation "x <- c ;; k" := (bind c (fun x => k))
  (at level 61, c at next level, right associativity).

Definition is_ok {A : Type} (r : result A) : bool :=
  match r with Ok _ => true | Raise _ => false end.

(** ** Scalars *)

Class Scalar (F : Type) : Type := {
  fadd : F -> F -> F;
  fsub : F -> F -> F;
  fmul : F -> F -> F;
  fdiv : F -> F -> F;
  fopp : F -> F;
  fabs : F -> F;
  fsqrt : F -> F;
  of_Z : Z -> F;
  feqb : F -> F -> bool;
  fltb : F -> F -> bool;
  fleb : F -> F -> bool;
  fisfinite : F -> bool
}.

Declare Scope scalar_scope.
Delimit Scope scalar_scope with S.
Notation "x + y" := (fadd x y) : scalar_scope.
Notation "x - y" := (fsub x y) : scalar_scope.
Notation "x * y" := (fmul x y) : scalar_scope.
Notation "x / y" := (fdiv x y) : scalar_scope.
Notation "- x" := (fopp x) : scalar_scope.
Notation "x =? y" := (feqb x y) : scalar_scope.
Notation "x <? y" := (fltb x y) : scalar_scope.
Notation "x <=? y" := (fleb x y) : scalar_scope.
Notation "# z" := (of_Z z%Z) (at level 1, z at level 0, format "# z") : scalar_scope.

(** [float(z)] for a Python integer: the correctly rounded binary64. *)
Definition float_of_Z (z : Z) : float :=
  SF2Prim (binary_normalize prec emax z 0 false).

#[export] Instance float_scalar : Scalar float := {|
  fadd := PrimFloat.add;
  fsub := PrimFloat.sub;
  fmul := PrimFloat.mul;
  fdiv := PrimFloat.div;
  fopp := PrimFloat.opp;
  fabs := PrimFloat.abs;
  fsqrt := PrimFloat.sqrt;
  of_Z := float_of_Z;
  feqb := PrimFloat.eqb;
  fltb := PrimFloat.ltb;
  fleb := PrimFloat.leb;
  fisfinite := PrimFloat.is_finite
|}.

(** ** Python and NumPy primitives *)

Module py.
Section WithScalar.
Context {F : Type} {SF : Scalar F}.
Local Open Scope scalar_scope.

(** [a / b] on Python floats raises when the divisor compares equal to
    zero (NumPy's division does not, see [fdiv]). *)
Definition truediv (a b : F) : result F :=
  if b =? #0 then Raise ZeroDivisionError else Ok (a / b).

(** The decimal literal [m e-k] (as in [1e-6]): for the literals of the
    program, [m] and [10^k] are exact and the quotient is the correctly
    rounded value of the literal. *)
Definition dec (m : Z) (k : nat) : F := #m / of_Z (10 ^ Z.of_nat k).

(** [x ** n] for the literal exponents 2 and 3 of the program, as
    repeated multiplication.  (NumPy squares by one product and takes
    the cube with libm's [pow], whose last bit can differ from that of
    the product [x * (x * x)]; the properties below use the powers only
    through the shape and the symmetry of the matrices.) *)
Fixpoint pow (x : F) (n : nat) : F :=
  match n with
  | O => #1
  | S O => x
  | S n' => x * pow x n'
  end.

End WithScalar.

(** [l[i]] on a Python list: negative indices count from the end. *)
Definition getitem {A : Type} (l : list A) (i : Z) : result A :=
  let n := Z.of_nat (List.length l) in
  let j := if (i <? 0)%Z then (i + n)%Z else i in
  if ((0 <=? j) && (j <? n))%Z then
    match nth_error l (Z.to_nat j) with
    | Some a => Ok a
    | None => Raise IndexError
    end
  else Raise IndexError.

(** [l[:n]] on a list or array. *)
Definition slice_to {A : Type} (l : list A) (n : Z) : list A :=
  if (n <? 0)%Z then firstn (List.length l - Z.to_nat (- n)) l
  else firstn (Z.to_nat n) l.

Definition enumerate {A : Type} (l : list A) : list (nat * A) :=
  combine (seq 0 (List.length l)) l.

(** [l[i] = x] at a position known to exist. *)
Fixpoint setitem {A : Type} (l : list A) (i : nat) (x : A) : list A :=
  match l, i with
  | [], _ => []
  | _ :: t, O => x :: t
  | h :: t, S i' => h :: setitem t i' x
  end.

End py.

Module np.

Abbreviation vector F := (list F) (only parsing).
Abbreviation matrix F := (list (list F)) (only parsing).

Section WithScalar.
Context {F : Type} {SF : Scalar F}.
Local Open Scope scalar_scope.

Definition zeros (n : nat) : vector F := repeat #0 n.
Definition zeros2 (r c : nat) : matrix F := repeat (zeros c) r.

Definition eye (n : nat) : matrix F :=
  map (fun i => map (fun j => if Nat.eqb i j then #1 else #0) (seq 0 n)) (seq 0 n).

Definition map2 {A B C : Type} (f : A -> B -> C) (a : list A) (b : list B) : list C :=
  map (fun p => f (fst p) (snd p)) (combine a b).

Definition vadd (a b : vector F) : vector F := map2 fadd a b.
Definition vsub (a b : vector F) : vector F := map2 fsub a b.
(** [c * a] and [a / c] for a scalar [c]. *)
Definition vscale (c : F) (a : vector F) : vector F := map (fun x => c * x) a.
Definition vdivs (a : vector F) (c : F) : vector F := map (fun x => x / c) a.

Definition madd (a b : matrix F) : matrix F := map2 vadd a b.
Definition mscale (c : F) (a : matrix F) : matrix F := map (vscale c) a.
Definition mneg (a : matrix F) : matrix F := map (map fopp) a.

(** [numpy.dot] of two 1-D arrays, summed from left to right.  (BLAS
    may sum in another order or fuse the products into the sums, which
    can change the last bit of the result.) *)
Definition dot (a b : vector F) : F :=
  fold_left (fun s p => s + fst p * snd p) (combine a b) #0.

(** [numpy.linalg.norm] of a 1-D array. *)
Definition norm (a : vector F) : F := fsqrt (dot a a).

Definition get (v : vector F) (i : nat) : F := nth i v #0.
Definition mget (m : matrix F) (i j : nat) : F := nth j (nth i m []) #0.
Definition mset (m : matrix F) (i j : nat) (x : F) : matrix F :=
  py.setitem m i (py.setitem (nth i m []) j x).

Definition ncols (m : matrix F) : nat :=
  match m with [] => 0 | r :: _ => List.length r end.

(** [m.T] *)
Definition transpose (m : matrix F) : matrix F :=
  map (fun j => map (fun row => get row j) m) (seq 0 (ncols m)).

Definition matvec (m : matrix F) (v : vector F) : vector F :=
  map (fun row => dot row v) m.

(** [a @ b] *)
Definition matmul (a b : matrix F) : matrix F :=
  map (fun row => map (fun col => dot row col) (transpose b)) a.

(** [numpy.cross] of two 3-vectors. *)
Definition cross (a b : vector F) : vector F :=
  match a, b with
  | [a0; a1; a2], [b0; b1; b2] =>
      [a1 * b2 - a2 * b1; a2 * b0 - a0 * b2; a0 * b1 - a1 * b0]
  | _, _ => []
  end.

(** [numpy.isclose] and [numpy.allclose] with the default tolerances
    [rtol = 1e-5], [atol = 1e-8]. *)
Definition isclose (a b : F) : bool :=
  (fabs (a - b) <=? py.dec 1 8 + py.dec 1 5 * fabs b) && fisfinite b
  || (a =? b).

Definition allclose (a : vector F) (b : F) : bool :=
  forallb (fun x => isclose x b) a.

(** [numpy.column_stack] of 1-D arrays of one length. *)
Definition column_stack (cols : list (vector F)) : matrix F :=
  map (fun i => map (fun c => get c i) cols) (seq 0 (ncols cols)).

(** [m[numpy.ix_(rows, cols)]] *)
Definition ix_get (m : matrix F) (rows cols : list nat) : matrix F :=
  map (fun i => map (fun j => mget m i j) cols) rows.

(** [m[numpy.ix_(rows, cols)] = v]: the entries are written one after
    the other, so that a position named twice keeps the last value. *)
Definition ix_set (m : matrix F) (rows cols : list nat) (v : matrix F) : matrix F :=
  fold_left (fun m1 ai =>
    fold_left (fun m2 bj => mset m2 (snd ai) (snd bj) (mget v (fst ai) (fst bj)))
              (py.enumerate cols) m1)
    (py.enumerate rows) m.

(** [m[numpy.ix_(rows, cols)] += v], for index lists inside [m] and [v]
    of the shape of the selection. *)
Definition ix_iadd (m : matrix F) (rows cols : list nat) (v : matrix F) : matrix F :=
  ix_set m rows cols (madd (ix_get m rows cols) v).

(** [v[idx]] and [v[idx] = w] *)
Definition take (v : vector F) (idx : list nat) : vector F :=
  map (fun i => get v i) idx.

Definition put (v : vector F) (idx : list nat) (w : vector F) : vector F :=
  fold_left (fun v1 p => py.setitem v1 (fst p) (snd p)) (combine idx w) v.

(** [m[r:r+h, c:c+w] = b] for a block [b] of that shape. *)
Definition set_block (m : matrix F) (r c : nat) (b : matrix F) : matrix F :=
  ix_set m (seq r (List.length b)) (seq c (ncols b)) b.

(** [scipy.linalg.block_diag] of two matrices. *)
Definition block_diag (a b : matrix F) : matrix F :=
  map (fun row => row ++ zeros (ncols b)) a ++
  map (fun row => zeros (ncols a) ++ row) b.

(** The same operations for index lists computed at run time.  An
    index outside the array raises [IndexError]; operands whose shapes
    differ raise [ValueError].  (NumPy would broadcast an operand of
    length 1; no caller has one: element blocks are 14x14, load vectors
    have 7 entries and [numpy.linalg.solve] returns one value per
    equation.) *)
Definition in_range (n : nat) (idx : list nat) : bool :=
  forallb (fun i => Nat.ltb i n) idx.

Definition ix_iadd_checked (m : matrix F) (rows cols : list nat) (v : matrix F)
  : result (matrix F) :=
  if negb (in_range (List.length m) rows && in_range (ncols m) cols)
  then Raise IndexError
  else if negb (Nat.eqb (List.length rows) (List.length v)
                && Nat.eqb (List.length cols) (ncols v))
  then Raise ValueError
  else Ok (ix_iadd m rows cols v).

Definition take_checked (v : vector F) (idx : list nat) : result (vector F) :=
  if in_range (List.length v) idx then Ok (take v idx) else Raise IndexError.

Definition put_checked (v : vector F) (idx : list nat) (w : vector F) : result (vector F) :=
  if negb (in_range (List.length v) idx) then Raise IndexError
  else if negb (Nat.eqb (List.length idx) (List.length w)) then Raise ValueError
  else Ok (put v idx w).

Definition iadd_at_checked (v : vector F) (idx : list nat) (w : vector F)
  : result (vector F) :=
  if negb (in_range (List.length v) idx) then Raise IndexError
  else if negb (Nat.eqb (List.length idx) (List.length w)) then Raise ValueError
  else Ok (put v idx (vadd (take v idx) w)).

Definition matvec_checked (m : matrix F) (v : vector F) : result (vector F) :=
  if Nat.eqb (ncols m) (List.length v) then Ok (matvec m v) else Raise ValueError.

Definition shape_is (r c : nat) (m : matrix F) : Prop :=
  List.length m = r /\ Forall (fun row => List.length row = c) m.

End WithScalar.
End np.

(** ** node.py *)

(** A [Node] object.  [ref] is the identity of the object; the mutable
    attribute [dof_indices] is kept in the [store] under that identity
    and starts as the empty list. *)
Record Node (F : Type) : Type := {
  ref : nat;
  id : Z;
  x : F;
  y : F;
  z : F
}.
Arguments ref {F} n.
Arguments id {F} n.
Arguments x {F} n.
Arguments y {F} n.
Arguments z {F} n.

Definition coords {F : Type} (n : Node F) : list F := [x n; y n; z n].

Definition store : Type := nat -> list nat.

Definition empty_store : store := fun _ => [].

Definition dof_indices {F : Type} (s : store) (n : Node F) : list nat := s (ref n).

Definition set_dof_indices {F : Type} (s : store) (n : Node F) (l : list nat) : store :=
  fun r => if Nat.eqb r (ref n) then l else s r.

(** ** material.py *)

Record Material (F : Type) : Type := {
  E : F;
  G : F;
  nu : F;
  rho : F
}.
Arguments E {F} m.
Arguments G {F} m.
Arguments nu {F} m.
Arguments rho {F} m.

Module Material.
Section WithScalar.
Context {F : Type} {SF : Scalar F}.
Local Open Scope scalar_scope.

(** [Material.__init__(E, G=None, nu=None, rho=0.0)]; all arithmetic is
    on Python floats. *)
Definition __init__ (E0 : F) (G0 nu0 : option F) (rho0 : F) : result (Material F) :=
  match G0, nu0 with
  | Some g, Some n =>
      Ok {| E := E0; G := g; nu := n; rho := rho0 |}
  | Some g, None =>
      q <- py.truediv E0 (#2 * g) ;;
      Ok {| E := E0; G := g; nu := q - #1; rho := rho0 |}
  | None, Some n =>
      g <- py.truediv E0 (#2 * (#1 + n)) ;;
      Ok {| E := E0; G := g; nu := n; rho := rho0 |}
  | None, None => Raise ValueError
  end.

End WithScalar.
End Material.

(** ** section.py *)

Record CrossSection (F : Type) : Type := {
  A : F;
  Iy : F;
  Iz : F;
  J : F;
  Cw : F
}.
Arguments A {F} c.
Arguments Iy {F} c.
Arguments Iz {F} c.
Arguments J {F} c.
Arguments Cw {F} c.

(** ** element.py *)

(** [Beam3D.__init__] stores its four arguments (and an unused
    [iy_vector = None]) without any check: construction is the record
    constructor. *)
Record Beam3D (F : Type) : Type := {
  node1 : Node F;
  node2 : Node F;
  material : Material F;
  section : CrossSection F
}.
Arguments node1 {F} b.
Arguments node2 {F} b.
Arguments material {F} b.
Arguments section {F} b.

Module Beam3D.
Section WithScalar.
Context {F : Type} {SF : Scalar F}.
Local Open Scope scalar_scope.

Definition length (b : Beam3D F) : F :=
  np.norm (np.vsub (coords (node2 b)) (coords (node1 b))).

Definition direction_cosine_matrix (b : Beam3D F) : np.matrix F :=
  let L := length b in
  let diff := np.vsub (coords (node2 b)) (coords (node1 b)) in
  let x_local := np.vdivs diff L in
  let temp_vec :=
    if np.allclose (firstn 2 x_local) #0 then [#1; #0; #0] else [#0; #0; #1] in
  let y_local := np.cross temp_vec x_local in
  let y_local :=
    if np.norm y_local <? py.dec 1 6
    then np.cross [#0; #1; #0] x_local
    else y_local in
  let y_local := np.vdivs y_local (np.norm y_local) in
  let z_local := np.cross x_local y_local in
  np.column_stack [x_local; y_local; z_local].

Definition transformation_matrix (b : Beam3D F) : np.matrix F :=
  let R := direction_cosine_matrix b in
  let Rt := np.transpose R in
  let T_node := np.eye 7 in
  let T_node := np.set_block T_node 0 0 Rt in
  let T_node := np.set_block T_node 3 3 Rt in
  np.block_diag T_node T_node.

(** The 4x4 Hermite patterns that occur in the element matrices. *)
Definition hermite_bending (L : F) : np.matrix F :=
  [ [#12; #6 * L; #(-12); #6 * L];
    [#6 * L; #4 * py.pow L 2; #(-6) * L; #2 * py.pow L 2];
    [#(-12); #(-6) * L; #12; #(-6) * L];
    [#6 * L; #2 * py.pow L 2; #(-6) * L; #4 * py.pow L 2] ].

Definition hermite_string (L : F) : np.matrix F :=
  [ [#36; #3 * L; #(-36); #3 * L];
    [#3 * L; #4 * py.pow L 2; #(-3) * L; - py.pow L 2];
    [#(-36); #(-3) * L; #36; #(-3) * L];
    [#3 * L; - py.pow L 2; #(-3) * L; #4 * py.pow L 2] ].

Definition local_stiffness_matrix (b : Beam3D F) : np.matrix F :=
  let E := E (material b) in
  let G := G (material b) in
  let A := A (section b) in
  let Iy := Iy (section b) in
  let Iz := Iz (section b) in
  let J := J (section b) in
  let Cw := Cw (section b) in
  let L := length b in
  let k := np.zeros2 14 14 in
  (* 1. axial *)
  let k_axial := np.mscale (E * A / L) [ [#1; #(-1)]; [#(-1); #1] ] in
  let k := np.ix_iadd k [0; 7] [0; 7] k_axial in
  (* 2. torsion and warping *)
  let k_w_bending := np.mscale (E * Cw / py.pow L 3) (hermite_bending L) in
  let k_w_sv := np.mscale (G * J / (#30 * L)) (hermite_string L) in
  let k_torsion := np.madd k_w_bending k_w_sv in
  let torsion_indices := [3; 6; 10; 13] in
  let k := np.ix_iadd k torsion_indices torsion_indices k_torsion in
  (* 3. bending about z *)
  let k_bending_z := np.mscale (E * Iz / py.pow L 3) (hermite_bending L) in
  let bending_z_indices := [1; 5; 8; 12] in
  let k := np.ix_iadd k bending_z_indices bending_z_indices k_bending_z in
  (* 4. bending about y *)
  let k_bending_y := np.mscale (E * Iy / py.pow L 3)
    [ [#12; #(-6) * L; #(-12); #(-6) * L];
      [#(-6) * L; #4 * py.pow L 2; #6 * L; #2 * py.pow L 2];
      [#(-12); #6 * L; #12; #6 * L];
      [#(-6) * L; #2 * py.pow L 2; #6 * L; #4 * py.pow L 2] ] in
  let bending_y_indices := [2; 4; 9; 11] in
  let k := np.ix_iadd k bending_y_indices bending_y_indices k_bending_y in
  k.

Definition global_stiffness_matrix (b : Beam3D F) : np.matrix F :=
  let k_local := local_stiffness_matrix b in
  let T := transformation_matrix b in
  np.matmul (np.matmul (np.transpose T) k_local) T.

(** [m[:, cols] *= -1] and [m[rows, :] *= -1] *)
Definition negate_cols (m : (np.matrix F)) (cols : list nat) : np.matrix F :=
  map (fun row => map (fun p => if existsb (Nat.eqb (fst p)) cols
                                then snd p * #(-1) else snd p)
                      (py.enumerate row)) m.

Definition negate_rows (m : (np.matrix F)) (rows : list nat) : np.matrix F :=
  map (fun p => if existsb (Nat.eqb (fst p)) rows
                then map (fun v => v * #(-1)) (snd p) else snd p)
      (py.enumerate m).

Definition geometric_stiffness_matrix (b : Beam3D F) (axial_force : F)
  : result (np.matrix F) :=
  let L := length b in
  let P := axial_force in
  let k_g := np.zeros2 14 14 in
  let kg_flex := np.mscale (P / (#30 * L)) (hermite_string L) in
  let indices_z := [1; 5; 8; 12] in
  let k_g := np.ix_iadd k_g indices_z indices_z kg_flex in
  let kg_flex_y := kg_flex in
  let kg_flex_y := negate_cols kg_flex_y [1; 3] in
  let kg_flex_y := negate_rows kg_flex_y [1; 3] in
  let indices_y := [2; 4; 9; 11] in
  let k_g := np.ix_iadd k_g indices_y indices_y kg_flex_y in
  (* Python floats here: a zero area raises *)
  r0_sq <- py.truediv (Iy (section b) + Iz (section b)) (A (section b)) ;;
  let kg_torsion := np.mscale (P * r0_sq / (#30 * L)) (hermite_string L) in
  let indices_x := [3; 6; 10; 13] in
  let k_g := np.ix_iadd k_g indices_x indices_x kg_torsion in
  Ok k_g.

Definition global_geometric_stiffness_matrix (b : Beam3D F) (axial_force : F)
  : result (np.matrix F) :=
  kg_local <- geometric_stiffness_matrix b axial_force ;;
  let T := transformation_matrix b in
  Ok (np.matmul (np.matmul (np.transpose T) kg_local) T).

End WithScalar.
End Beam3D.

(** ** Dictionaries and sets of Python

    A [dict] is an association list in insertion order with distinct
    keys; a [set] of integers is a list without repetition. *)

Module dict.

Fixpoint get {V : Type} (d : list (Z * V)) (k : Z) : option V :=
  match d with
  | [] => None
  | (k', v) :: t => if Z.eqb k' k then Some v else get t k
  end.

Definition mem {V : Type} (d : list (Z * V)) (k : Z) : bool :=
  match get d k with Some _ => true | None => false end.

(** [d[k] = v]: an existing key keeps its position. *)
Fixpoint set {V : Type} (d : list (Z * V)) (k : Z) (v : V) : list (Z * V) :=
  match d with
  | [] => [(k, v)]
  | (k', v') :: t => if Z.eqb k' k then (k, v) :: t else (k', v') :: set t k v
  end.

(** [d[k]] *)
Definition getitem {V : Type} (d : list (Z * V)) (k : Z) : result V :=
  match get d k with Some v => Ok v | None => Raise KeyError end.

Definition keys {V : Type} (d : list (Z * V)) : list Z := map fst d.

End dict.

Module pyset.

Definition add (s : list Z) (a : Z) : list Z :=
  if existsb (Z.eqb a) s then s else s ++ [a].

End pyset.

(** [sorted] on integers. *)
Fixpoint insert_sorted (a : Z) (l : list Z) : list Z :=
  match l with
  | [] => [a]
  | b :: t => if (a <=? b)%Z then a :: l else b :: insert_sorted a t
  end.

Definition sorted (l : list Z) : list Z := fold_right insert_sorted [] l.

Module npi.

(** [numpy.unique] of a list of indices: sorted, without repetition. *)
Fixpoint insert_unique (a : nat) (l : list nat) : list nat :=
  match l with
  | [] => [a]
  | b :: t =>
      if Nat.ltb a b then a :: l
      else if Nat.eqb a b then l
      else b :: insert_unique a t
  end.

Definition unique (l : list nat) : list nat := fold_right insert_unique [] l.

Definition arange (n : nat) : list nat := seq 0 n.

(** [numpy.setdiff1d(a, b)] for [a] already sorted and without
    repetition, as [arange] is. *)
Definition setdiff1d (a b : list nat) : list nat :=
  filter (fun i => negb (existsb (Nat.eqb i) b)) a.

End npi.

(** ** model.py *)

Record Model (F : Type) : Type := {
  nodes : list (Z * Node F);
  elements : list (Beam3D F);
  constraints : list (Z * list Z);
  loads : list (Z * list F);
  _dof_map_generated : bool;
  total_dofs : nat
}.
Arguments nodes {F} m.
Arguments elements {F} m.
Arguments constraints {F} m.
Arguments loads {F} m.
Arguments _dof_map_generated {F} m.
Arguments total_dofs {F} m.

(** The program state: the model object and the [dof_indices] of all
    node objects. *)
Record state (F : Type) : Type := {
  model : Model F;
  heap : store
}.
Arguments model {F} s.
Arguments heap {F} s.

(** Computations that read and update the state and may raise. *)
Definition M (F A : Type) : Type := state F -> result (A * state F).

Definition ret {F A : Type} (a : A) : M F A := fun st => Ok (a, st).

Definition mbind {F A B : Type} (c : M F A) (k : A -> M F B) : M F B :=
  fun st =>
    match c st with
    | Ok (a, st') => k a st'
    | Raise e => Raise e
    end.

Definition raise {F A : Type} (e : exn) : M F A := fun _ => Raise e.

Definition lift {F A : Type} (r : result A) : M F A :=
  fun st => match r with Ok a => Ok (a, st) | Raise e => Raise e end.

Definition gets {F A : Type} (f : state F -> A) : M F A := fun st => Ok (f st, st).

Definition set_model {F : Type} (f : Model F -> Model F) : M F unit :=
  fun st => Ok (tt, {| model := f (model st); heap := heap st |}).

Definition set_heap {F : Type} (f : store -> store) : M F unit :=
  fun st => Ok (tt, {| model := model st; heap := f (heap st) |}).

Declare Scope M_scope.
Delimit Scope M_scope with M.
Notation "x <- c ;; k" := (mbind c (fun x => k))
  (at level 61, c at next level, right associativity) : M_scope.
Notation "c ;;; k" := (mbind c (fun _ => k))
  (at level 61, right associativity) : M_scope.

(** [for x in l: body x] *)
Fixpoint for_each {F A : Type} (l : list A) (body : A -> M F unit) : M F unit :=
  match l with
  | [] => ret tt
  | a :: t => mbind (body a) (fun _ => for_each t body)
  end.

(** A loop that carries a local variable. *)
Fixpoint for_fold {F A B : Type} (l : list A) (body : B -> A -> M F B) (b : B)
  : M F B :=
  match l with
  | [] => ret b
  | a :: t => mbind (body b a) (fun b' => for_fold t body b')
  end.

Module Model.
Section WithScalar.
Context {F : Type} {SF : Scalar F}.
Local Open Scope scalar_scope.
Local Open Scope M_scope.

Definition ndof_per_node : nat := 7.

(** [Model.__init__] *)
Definition __init__ : Model F := {|
  nodes := [];
  elements := [];
  constraints := [];
  loads := [];
  _dof_map_generated := false;
  total_dofs := 0
|}.

Definition add_node (node : Node F) : M F unit :=
  m <- gets model ;;
  if dict.mem (nodes m) (id node) then raise ValueError
  else
    set_model (fun m => {|
      nodes := dict.set (nodes m) (id node) node;
      elements := elements m;
      constraints := constraints m;
      loads := loads m;
      _dof_map_generated := false;
      total_dofs := total_dofs m |}).

Definition add_element (element : Beam3D F) : M F unit :=
  set_model (fun m => {|
    nodes := nodes m;
    elements := elements m ++ [element];
    constraints := constraints m;
    loads := loads m;
    _dof_map_generated := _dof_map_generated m;
    total_dofs := total_dofs m |}).

Definition add_constraint (node_id : Z) (dof_index : Z) : M F unit :=
  m <- gets model ;;
  if negb (dict.mem (nodes m) node_id) then raise ValueError
  else
    let old := match dict.get (constraints m) node_id with
               | Some s => s
               | None => []
               end in
    set_model (fun m => {|
      nodes := nodes m;
      elements := elements m;
      constraints := dict.set (constraints m) node_id (pyset.add old dof_index);
      loads := loads m;
      _dof_map_generated := _dof_map_generated m;
      total_dofs := total_dofs m |}).

(** [self.loads[node_id] += np.array(load_vector)] on an array of 7
    values: a 7-vector is added entry by entry, a 1-vector is broadcast,
    any other length raises. *)
Definition add_load (node_id : Z) (load_vector : list F) : M F unit :=
  m <- gets model ;;
  if negb (dict.mem (nodes m) node_id) then raise ValueError
  else
    let old := match dict.get (loads m) node_id with
               | Some v => v
               | None => np.zeros 7
               end in
    new <- lift (match load_vector with
                 | [c] => Ok (map (fun a => a + c) old)
                 | _ => if Nat.eqb (List.length load_vector) (List.length old)
                        then Ok (np.vadd old load_vector)
                        else Raise ValueError
                 end) ;;
    set_model (fun m => {|
      nodes := nodes m;
      elements := elements m;
      constraints := constraints m;
      loads := dict.set (loads m) node_id new;
      _dof_map_generated := _dof_map_generated m;
      total_dofs := total_dofs m |}).

Definition _generate_dof_map : M F unit :=
  m <- gets model ;;
  let sorted_node_ids := sorted (dict.keys (nodes m)) in
  current_dof <-
    for_fold sorted_node_ids (fun current_dof nid =>
      node <- lift (dict.getitem (nodes m) nid) ;;
      set_heap (fun h =>
        set_dof_indices h node (seq current_dof ndof_per_node)) ;;;
      ret (current_dof + ndof_per_node)%nat) 0%nat ;;
  set_model (fun m => {|
    nodes := nodes m;
    elements := elements m;
    constraints := constraints m;
    loads := loads m;
    _dof_map_generated := true;
    total_dofs := current_dof |}).

(** [if not self._dof_map_generated: self._generate_dof_map()] *)
Definition ensure_dof_map : M F unit :=
  g <- gets (fun st => _dof_map_generated (model st)) ;;
  if g then ret tt else _generate_dof_map.

Definition element_dofs (h : store) (el : Beam3D F) : list nat :=
  dof_indices h (node1 el) ++ dof_indices h (node2 el).

Definition assemble_stiffness : M F (np.matrix F) :=
  ensure_dof_map ;;;
  m <- gets model ;;
  let K_global := np.zeros2 (total_dofs m) (total_dofs m) in
  for_fold (elements m) (fun K_global el =>
    let k_el_global := Beam3D.global_stiffness_matrix el in
    h <- gets heap ;;
    let dofs := element_dofs h el in
    lift (np.ix_iadd_checked K_global dofs dofs k_el_global)) K_global.

(** [element_axial_forces] is the list of one force per element that
    [BucklingSolver] passes (the dict form has no caller). *)
Definition assemble_geometric_stiffness (element_axial_forces : list F)
  : M F (np.matrix F) :=
  ensure_dof_map ;;;
  m <- gets model ;;
  let Kg_global := np.zeros2 (total_dofs m) (total_dofs m) in
  let forces := element_axial_forces in
  for_fold (py.enumerate (elements m)) (fun Kg_global iel =>
    let i := fst iel in
    let el := snd iel in
    P <- lift (match nth_error forces i with
               | Some P => Ok P
               | None => Raise IndexError
               end) ;;
    if fabs P <? py.dec 1 9 then ret Kg_global
    else
      kg_el_global <- lift (Beam3D.global_geometric_stiffness_matrix el P) ;;
      h <- gets heap ;;
      let dofs := element_dofs h el in
      lift (np.ix_iadd_checked Kg_global dofs dofs kg_el_global)) Kg_global.

Definition get_load_vector : M F (np.vector F) :=
  ensure_dof_map ;;;
  m <- gets model ;;
  let F0 := np.zeros (total_dofs m) in
  for_fold (loads m) (fun Fv entry =>
    let nid := fst entry in
    let load := snd entry in
    node <- lift (dict.getitem (nodes m) nid) ;;
    h <- gets heap ;;
    let dofs := dof_indices h node in
    lift (np.iadd_at_checked Fv dofs load)) F0.

Definition get_constrained_dofs : M F (list nat) :=
  ensure_dof_map ;;;
  m <- gets model ;;
  constrained <-
    for_fold (constraints m) (fun constrained entry =>
      let nid := fst entry in
      let dofs := snd entry in
      node <- lift (dict.getitem (nodes m) nid) ;;
      h <- gets heap ;;
      for_fold dofs (fun constrained d =>
        g <- lift (py.getitem (dof_indices h node) d) ;;
        ret (constrained ++ [g])) constrained) [] ;;
  ret (npi.unique constrained).

End WithScalar.
End Model.

(** ** solver.py *)

(** A complex number, as [scipy.linalg.eig] returns them. *)
Definition complex (F : Type) : Type := (F * F)%type.
Definition real {F : Type} (c : complex F) : F := fst c.
Definition imag {F : Type} (c : complex F) : F := snd c.

Module StaticSolver.
Section WithScalar.
Context {F : Type} {SF : Scalar F}.

(** [numpy.linalg.solve] *)
Variable linalg_solve : np.matrix F -> np.vector F -> result (np.vector F).

Local Open Scope M_scope.

Definition solve : M F (np.vector F) :=
  Model._generate_dof_map ;;;
  K <- Model.assemble_stiffness ;;
  Fv <- Model.get_load_vector ;;
  constrained_dofs <- Model.get_constrained_dofs ;;
  total_dofs <- gets (fun st => total_dofs (model st)) ;;
  let free_dofs := npi.setdiff1d (npi.arange total_dofs) constrained_dofs in
  if Nat.eqb (List.length free_dofs) 0 then ret (np.zeros total_dofs)
  else
    (* free_dofs lies inside arange(total_dofs), the size of K and F *)
    let K_ff := np.ix_get K free_dofs free_dofs in
    let F_f := np.take Fv free_dofs in
    u_f <- lift (linalg_solve K_ff F_f) ;;
    let u := np.zeros total_dofs in
    u <- lift (np.put_checked u free_dofs u_f) ;;
    ret u.

Definition compute_element_forces (u : (np.vector F)) : M F (list (np.vector F)) :=
  m <- gets model ;;
  for_fold (elements m) (fun forces el =>
    h <- gets heap ;;
    let dofs := Model.element_dofs h el in
    u_global <- lift (np.take_checked u dofs) ;;
    let T := Beam3D.transformation_matrix el in
    u_local <- lift (np.matvec_checked T u_global) ;;
    let k_local := Beam3D.local_stiffness_matrix el in
    let f_local := np.matvec k_local u_local in
    ret (forces ++ [f_local])) [].

End WithScalar.
End StaticSolver.

Module BucklingSolver.
Section WithScalar.
Context {F : Type} {SF : Scalar F}.

Variable linalg_solve : np.matrix F -> np.vector F -> result (np.vector F).

(** [scipy.linalg.eig(a, b)]: the eigenvalues and the matrix whose
    columns are the eigenvectors. *)
Variable eig : np.matrix F -> np.matrix F ->
               result (list (complex F) * list (list (complex F))).

Local Open Scope scalar_scope.
Local Open Scope M_scope.

(** [numpy.isreal], [numpy.isfinite] on a complex number *)
Definition isreal (v : complex F) : bool := imag v =? #0.
Definition isfinite (v : complex F) : bool := fisfinite (real v) && fisfinite (imag v).

Definition valid (v : complex F) : bool :=
  isreal v && (py.dec 1 6 <? real v) && isfinite v.

(** [numpy.argsort]: the positions of the values in ascending order,
    here by insertion from the right, which keeps equal values in their
    order.  (NumPy's default sort is not stable: for equal values it
    may return the positions in another order.  The properties below
    use only that the values ascend.) *)
Fixpoint insert_by (vals : (np.vector F)) (i : nat) (l : list nat) : list nat :=
  match l with
  | [] => [i]
  | j :: t =>
      if np.get vals i <=? np.get vals j then i :: l
      else j :: insert_by vals i t
  end.

Definition argsort (vals : np.vector F) : list nat :=
  fold_right (insert_by vals) [] (seq 0 (List.length vals)).

(** [m[:, idx]] *)
Definition columns {A : Type} (d : A) (m : list (list A)) (idx : list nat)
  : list (list A) :=
  map (fun row => map (fun i => nth i row d) idx) m.

(** Steps 1 to 3 of [solve]: the free-DOF blocks of [K] and [Kg] and
    the free DOFs. *)
Definition stability_matrices : M F (np.matrix F * np.matrix F * list nat) :=
  u_static <- StaticSolver.solve linalg_solve ;;
  element_forces <- StaticSolver.compute_element_forces u_static ;;
  let axial_forces := map (fun f => np.get f 7) element_forces in
  K <- Model.assemble_stiffness ;;
  Kg <- Model.assemble_geometric_stiffness axial_forces ;;
  constrained_dofs <- Model.get_constrained_dofs ;;
  total_dofs <- gets (fun st => total_dofs (model st)) ;;
  let free_dofs := npi.setdiff1d (npi.arange total_dofs) constrained_dofs in
  let K_ff := np.ix_get K free_dofs free_dofs in
  let Kg_ff := np.ix_get Kg free_dofs free_dofs in
  ret (K_ff, Kg_ff, free_dofs).

(** Steps 4 to 6: filter, sort and truncate the eigenpairs. *)
Definition select_modes (vals : list (complex F)) (vecs : list (list (complex F)))
    (num_modes : Z) : np.vector F * list (list (complex F)) :=
  let valid_indices :=
    map fst (filter (fun iv => valid (snd iv)) (py.enumerate vals)) in
  match valid_indices with
  | [] => ([], [])
  | _ =>
      let valid_vals := map (fun i => real (nth i vals (#0, #0))) valid_indices in
      let valid_vecs := columns (#0, #0) vecs valid_indices in
      let idx := argsort valid_vals in
      let sorted_vals := np.take valid_vals idx in
      let sorted_vecs := columns (#0, #0) valid_vecs idx in
      (py.slice_to sorted_vals num_modes,
       map (fun row => py.slice_to row num_modes) sorted_vecs)
  end.

Definition solve (num_modes : Z)
  : M F (np.vector F * list (list (complex F)) * list nat) :=
  mats <- stability_matrices ;;
  let K_ff := fst (fst mats) in
  let Kg_ff := snd (fst mats) in
  let free_dofs := snd mats in
  ev <- lift (eig K_ff (np.mneg Kg_ff)) ;;
  let sel := select_modes (fst ev) (snd ev) num_modes in
  ret (fst sel, snd sel, free_dofs).

End WithScalar.
End BucklingSolver.

(** ** api/index.py *)

Module builtins.

(** [range(n)] *)
Definition range (n : Z) : list Z := map Z.of_nat (seq 0 (Z.to_nat n)).

End builtins.

Module api.
Section WithScalar.
Context {F : Type} {SF : Scalar F}.
Variable linalg_solve : np.matrix F -> np.vector F -> result (np.vector F).
Local Open Scope scalar_scope.
Local Open Scope M_scope.

(** [u[k]] on a 1-D array, for [k >= 0]. *)
Definition item (u : np.vector F) (k : nat) : result F :=
  match nth_error u k with
  | Some a => Ok a
  | None => Raise IndexError
  end.

(** The body of [solve] once the request parameters have been read
    (the part after the [try] block); the [i]-th [Node] object created
    has identity [i]. *)
Definition solve_model (E0 G0 A0 Iy0 Iz0 J0 Cw0 length : F) (n_elems : Z)
    (load_val : F) : M F (list (string * list F)) :=
  mat <- lift (Material.__init__ E0 (Some G0) None #0) ;;
  let sec := {| A := A0; Iy := Iy0; Iz := Iz0; J := J0; Cw := Cw0 |} in
  nodes <-
    for_fold (builtins.range (n_elems + 1)%Z) (fun nodes i =>
      xi <- lift (py.truediv (of_Z i * length) (of_Z n_elems)) ;;
      let n := {| ref := Z.to_nat i; id := i; x := xi; y := #0; z := #0 |} in
      Model.add_node n ;;;
      ret (nodes ++ [n])) [] ;;
  for_each (builtins.range n_elems) (fun i =>
    n1 <- lift (py.getitem nodes i) ;;
    n2 <- lift (py.getitem nodes (i + 1)%Z) ;;
    let el := {| node1 := n1; node2 := n2; material := mat; section := sec |} in
    Model.add_element el) ;;;
  for_each (builtins.range 7) (fun i => Model.add_constraint 0 i) ;;;
  Model.add_load n_elems [#0; #0; load_val; #0; #0; #0; #0] ;;;
  u <- StaticSolver.solve linalg_solve ;;
  let xs := map x nodes in
  uz_tx <-
    for_fold (py.enumerate nodes) (fun acc i_n =>
      let dof_start := (fst i_n * 7)%nat in
      uz <- lift (item u (dof_start + 2)%nat) ;;
      tx <- lift (item u (dof_start + 3)%nat) ;;
      ret (fst acc ++ [uz], snd acc ++ [tx])) ([], []) ;;
  ret [("x"%string, xs); ("uz"%string, fst uz_tx); ("tx"%string, snd uz_tx)].

(** [solve] works on a model and nodes of its own. *)
Definition solve (E0 G0 A0 Iy0 Iz0 J0 Cw0 length : F) (n_elems : Z) (load_val : F)
  : result (list (string * list F)) :=
  match solve_model E0 G0 A0 Iy0 Iz0 J0 Cw0 length n_elems load_val
          {| model := Model.__init__; heap := empty_store |} with
  | Ok (r, _) => Ok r
  | Raise e => Raise e
  end.

End WithScalar.
End api.

(** * Properties *)

(** ** Facts about arrays *)

Section ArrayFacts.
Context {F : Type} {SF : Scalar F}.

Lemma nth_nil_default {X : Type} (n : nat) (d : X) : nth n [] d = d.
Proof. destruct n; reflexivity. Qed.

Lemma mget_transpose (r c : nat) (m : np.matrix F) (i j : nat) :
  np.shape_is r c m ->
  np.mget (np.transpose m) i j = np.mget m j i.
Proof.
  intros [Hr Hc]. unfold np.mget, np.transpose.
  assert (Hn : r <> 0 -> np.ncols m = c).
  { destruct m as [|row m']; cbn in *; [lia|]. inversion Hc; auto. }
  destruct (Nat.lt_ge_cases j r) as [Hj|Hj].
  - assert (Hn' : np.ncols m = c) by (apply Hn; lia). clear Hn.
    assert (Hrow : List.length (nth j m []) = c).
    { rewrite Forall_forall in Hc. apply Hc, nth_In. lia. }
    destruct (Nat.lt_ge_cases i c) as [Hi|Hi].
    + rewrite (nth_indep _ [] (map (fun row => np.get row 0) m)).
      2:{ rewrite length_map, length_seq. rewrite Hn'. lia. }
      change (map (fun row => np.get row 0) m) with ((fun j0 => map (fun row => np.get row j0) m) 0).
      rewrite map_nth, seq_nth by (rewrite Hn'; lia). cbn.
      rewrite (nth_indep (map (fun row => np.get row i) m) _ (np.get [] i)) by (rewrite length_map; lia).
      rewrite (map_nth (fun row => np.get row i)). reflexivity.
    + rewrite (nth_overflow (map _ _)).
      2:{ rewrite length_map, length_seq. rewrite Hn'; lia. }
      rewrite nth_nil_default. symmetry. apply nth_overflow. lia.
  - rewrite (nth_overflow m) by lia. rewrite nth_nil_default.
    destruct (Nat.lt_ge_cases i (np.ncols m)) as [Hi|Hi].
    + rewrite (nth_indep _ [] (map (fun row => np.get row 0) m)).
      2:{ rewrite length_map, length_seq. lia. }
      change (map (fun row => np.get row 0) m) with ((fun j0 => map (fun row => np.get row j0) m) 0).
      rewrite map_nth, seq_nth by lia. cbn.
      apply nth_overflow. rewrite length_map. lia.
    + rewrite (nth_overflow (map _ _)).
      2:{ rewrite length_map, length_seq. lia. }
      apply nth_nil_default.
Qed.

End ArrayFacts.

(** ** The element stiffness matrix *)

Section ElementStiffness.
Context {F : Type} {SF : Scalar F}.

Ltac abstract_element b :=
  generalize (Beam3D.length b); intro L;
  generalize (E (material b)), (G (material b)), (A (section b)),
    (Iy (section b)), (Iz (section b)), (J (section b)), (Cw (section b));
  intros e g a iy iz j0 cw.

Lemma local_stiffness_transpose (b : Beam3D F) :
  np.transpose (Beam3D.local_stiffness_matrix b) = Beam3D.local_stiffness_matrix b.
Proof.
  unfold Beam3D.local_stiffness_matrix. abstract_element b.
  cbv. reflexivity.
Qed.

Lemma local_stiffness_shape (b : Beam3D F) :
  np.shape_is 14 14 (Beam3D.local_stiffness_matrix b).
Proof.
  unfold Beam3D.local_stiffness_matrix. abstract_element b.
  cbv. split; [reflexivity | repeat constructor].
Qed.

(** C3: the 14x14 matrix returned by [local_stiffness_matrix] is
    symmetric, [K[i][j] = K[j][i]] for all index pairs.  The entries are
    equal as scalars of any instance (they are built from the same
    operations on the same operands), for every element. *)
Theorem local_stiffness_symmetric (b : Beam3D F) :
  np.shape_is 14 14 (Beam3D.local_stiffness_matrix b) /\
  forall i j : nat,
    np.mget (Beam3D.local_stiffness_matrix b) i j =
    np.mget (Beam3D.local_stiffness_matrix b) j i.
Proof.
  split; [apply local_stiffness_shape|].
  intros i j.
  rewrite <- (local_stiffness_transpose b) at 1.
  apply mget_transpose with (r := 14) (c := 14), local_stiffness_shape.
Qed.

End ElementStiffness.

(** ** Material construction *)

Section MaterialConstruction.
Context {F : Type} {SF : Scalar F}.
Local Open Scope scalar_scope.

(** C8 (amended): with both constants given they are stored as given;
    with one of them the other follows by the stated formula unless the
    divisor of that formula compares equal to zero, where Python's float
    division raises [ZeroDivisionError]; [ValueError] is raised exactly
    when neither is given. *)
Theorem material_init_cases (E0 rho0 : F) (G0 nu0 : option F) :
  (Material.__init__ E0 G0 nu0 rho0 =
  match G0, nu0 with
  | Some g, Some n => Ok {| E := E0; G := g; nu := n; rho := rho0 |}
  | Some g, None =>
      if #2 * g =? #0 then Raise ZeroDivisionError
      else Ok {| E := E0; G := g; nu := E0 / (#2 * g) - #1; rho := rho0 |}
  | None, Some n =>
      if #2 * (#1 + n) =? #0 then Raise ZeroDivisionError
      else Ok {| E := E0; G := E0 / (#2 * (#1 + n)); nu := n; rho := rho0 |}
  | None, None => Raise ValueError
  end) /\
  (Material.__init__ E0 G0 nu0 rho0 = Raise ValueError <->
   G0 = None /\ nu0 = None).
Proof.
  split.
  - destruct G0 as [g|], nu0 as [n|]; cbn; unfold py.truediv; try reflexivity.
    + destruct (#2 * g =? #0); reflexivity.
    + destruct (#2 * (#1 + n) =? #0); reflexivity.
  - split.
    + destruct G0 as [g|], nu0 as [n|]; cbn; unfold py.truediv; try discriminate.
      * destruct (#2 * g =? #0); discriminate.
      * destruct (#2 * (#1 + n) =? #0); discriminate.
      * intros _. split; reflexivity.
    + intros [-> ->]. reflexivity.
Qed.

End MaterialConstruction.

(** A shear modulus of zero, given alone, makes construction fail
    although a constant was supplied: failure is not equivalent to
    "neither G nor nu supplied". *)
Lemma material_init_zero_G_fails :
  Material.__init__ 1%float (Some 0%float) None 0%float = Raise ZeroDivisionError /\
  ~ (is_ok (Material.__init__ 1%float (Some 0%float) None 0%float) = false <->
     (Some 0%float = None /\ @None float = None)).
Proof.
  split.
  - vm_compute. reflexivity.
  - intros [H _].
    assert (Hf : is_ok (Material.__init__ 1%float (Some 0%float) None 0%float) = false)
      by (vm_compute; reflexivity).
    destruct (H Hf) as [Hs _]. discriminate Hs.
Qed.

Example material_with_nu :
  Material.__init__ 200e9%float None (Some 0.5%float) 0%float =
  Ok {| E := 200e9%float; G := (200e9 / 3)%float; nu := 0.5%float; rho := 0%float |}.
Proof. vm_compute. reflexivity. Qed.

Example material_nu_minus_one :
  Material.__init__ 200e9%float None (Some (-1)%float) 0%float = Raise ZeroDivisionError.
Proof. vm_compute. reflexivity. Qed.

(** ** Zero-length elements: non-finite binary64 values *)

Definition nonfinite (x : float) : Prop :=
  Prim2SF x = S754_nan \/ exists s, Prim2SF x = S754_infinity s.

Lemma nonfinite_is_finite (x : float) : nonfinite x -> PrimFloat.is_finite x = false.
Proof.
  intros [H | [s H]]; unfold PrimFloat.is_finite, PrimFloat.is_nan, PrimFloat.is_infinity.
  - rewrite FloatAxioms.eqb_spec, H. reflexivity.
  - rewrite !FloatAxioms.eqb_spec, FloatAxioms.abs_spec, H. destruct s; reflexivity.
Qed.

Lemma eqb_zero_inv (y : float) :
  PrimFloat.eqb y (float_of_Z 0) = true -> exists s, Prim2SF y = S754_zero s.
Proof.
  rewrite FloatAxioms.eqb_spec.
  change (Prim2SF (float_of_Z 0)) with (S754_zero false).
  destruct (Prim2SF y) as [s| s | | s m e]; cbn; try discriminate.
  - eauto.
  - destruct s; discriminate.
  - destruct s; discriminate.
Qed.

Lemma div_zero_nonfinite (x y : float) :
  PrimFloat.eqb y (float_of_Z 0) = true -> nonfinite (x / y).
Proof.
  intros H. destruct (eqb_zero_inv y H) as [s Hs].
  unfold nonfinite. rewrite FloatAxioms.div_spec, Hs.
  destruct (Prim2SF x) as [sx| sx | | sx m e]; cbn; eauto.
Qed.

Lemma mul_one_nonfinite (x : float) : nonfinite x -> nonfinite (x * float_of_Z 1).
Proof.
  unfold nonfinite. rewrite FloatAxioms.mul_spec.
  change (Prim2SF (float_of_Z 1)) with (S754_finite false 4503599627370496 (-52)).
  intros [H | [s H]]; rewrite H; cbn; eauto.
Qed.

Lemma zero_add_nonfinite (x : float) : nonfinite x -> nonfinite (float_of_Z 0 + x).
Proof.
  unfold nonfinite. rewrite FloatAxioms.add_spec.
  change (Prim2SF (float_of_Z 0)) with (S754_zero false).
  intros [H | [s H]]; rewrite H; cbn; eauto.
Qed.

Lemma local_stiffness_axial_entry {F} {SF : Scalar F} (b : Beam3D F) :
  np.mget (Beam3D.local_stiffness_matrix b) 0 0 =
  (of_Z 0 + (E (material b) * A (section b) / Beam3D.length b) * of_Z 1)%S.
Proof.
  unfold Beam3D.local_stiffness_matrix.
  generalize (Beam3D.length b); intro L.
  generalize (E (material b)), (G (material b)), (A (section b)),
    (Iy (section b)), (Iz (section b)), (J (section b)), (Cw (section b));
  intros e g a iy iz j0 cw.
  cbv. reflexivity.
Qed.

(** ** Sorting of node ids *)

Lemma insert_sorted_perm (a : Z) (l : list Z) : Permutation (insert_sorted a l) (a :: l).
Proof.
  induction l as [|b t IH]; cbn; [reflexivity|].
  destruct (a <=? b)%Z; [reflexivity|].
  rewrite IH. apply perm_swap.
Qed.

Lemma sorted_perm (l : list Z) : Permutation (sorted l) l.
Proof.
  induction l as [|a t IH]; cbn; [reflexivity|].
  rewrite insert_sorted_perm. now constructor.
Qed.

Lemma insert_sorted_le (a : Z) (l : list Z) :
  StronglySorted Z.le l -> StronglySorted Z.le (insert_sorted a l).
Proof.
  induction 1 as [|b t Hs IH Hb]; cbn.
  - repeat constructor.
  - destruct (Z.leb_spec a b).
    + constructor; [now constructor|].
      constructor; [assumption|].
      rewrite Forall_forall in *. intros c Hc. specialize (Hb c Hc). lia.
    + constructor; [assumption|].
      rewrite Forall_forall in *. intros c Hc.
      apply (Permutation_in _ (insert_sorted_perm a t)) in Hc.
      destruct Hc as [<- | Hc]; [lia | auto].
Qed.

Lemma sorted_le (l : list Z) : StronglySorted Z.le (sorted l).
Proof.
  induction l as [|a t IH]; cbn; [constructor | now apply insert_sorted_le].
Qed.

Lemma sorted_lt (l : list Z) : NoDup l -> StronglySorted Z.lt (sorted l).
Proof.
  intros Hnd.
  assert (Hnd' : NoDup (sorted l)).
  { eapply Permutation_NoDup; [symmetry; apply sorted_perm | exact Hnd]. }
  generalize (sorted_le l) Hnd'. generalize (sorted l). clear.
  induction 1 as [|b t Hs IH Hb]; intros Hnd; constructor.
  - apply IH. now inversion Hnd.
  - inversion Hnd as [|? ? Hnotin _]; subst.
    rewrite Forall_forall in *. intros c Hc. specialize (Hb c Hc).
    assert (b <> c) by (intros ->; contradiction). lia.
Qed.

(** The number of ids smaller than [nid]: its position in ascending order. *)
Definition rank (ids : list Z) (nid : Z) : nat :=
  List.length (filter (fun j => (j <? nid)%Z) ids).

Lemma rank_perm (l l' : list Z) (nid : Z) :
  Permutation l l' -> rank l nid = rank l' nid.
Proof.
  intros H. unfold rank. apply Permutation_length.
  induction H as [|a l l' H IH|a b l|l l' l'' H1 IH1 H2 IH2]; cbn.
  - constructor.
  - destruct (a <? nid)%Z; auto.
  - destruct (a <? nid)%Z, (b <? nid)%Z; auto using perm_swap.
  - etransitivity; eauto.
Qed.

Lemma rank_head (a : Z) (t : list Z) :
  Forall (Z.lt a) t -> rank (a :: t) a = 0.
Proof.
  intros H. unfold rank. cbn. rewrite Z.ltb_irrefl.
  induction H as [|b t Hb _ IH]; cbn; [reflexivity|].
  destruct (Z.ltb_spec b a); [lia | exact IH].
Qed.

Lemma rank_tail (a nid : Z) (t : list Z) :
  (a < nid)%Z -> rank (a :: t) nid = S (rank t nid).
Proof.
  intros H. unfold rank. cbn.
  destruct (Z.ltb_spec a nid); [reflexivity | lia].
Qed.

(** In a strictly ascending list the rank of an entry is its position. *)
Lemma rank_nth (l : list Z) :
  StronglySorted Z.lt l ->
  forall k nid, nth_error l k = Some nid -> rank l nid = k.
Proof.
  induction 1 as [|a t Hs IH Hlt]; intros [|k] nid Hk; cbn in Hk; try discriminate.
  - injection Hk as <-. now apply rank_head.
  - assert (Hin : In nid t) by (eapply nth_error_In; eauto).
    rewrite Forall_forall in Hlt.
    rewrite rank_tail by auto. f_equal. now apply IH.
Qed.

(** ** Dictionaries *)

Section DictFacts.
Context {V : Type}.

Lemma dict_get_in (d : list (Z * V)) (k : Z) (v : V) :
  dict.get d k = Some v -> In (k, v) d.
Proof.
  induction d as [|[k' v'] t IH]; cbn; [discriminate|].
  destruct (Z.eqb_spec k' k).
  - intros [= ->]. subst. now left.
  - intros H. right. auto.
Qed.

Lemma dict_in_get (d : list (Z * V)) (k : Z) (v : V) :
  NoDup (map fst d) -> In (k, v) d -> dict.get d k = Some v.
Proof.
  induction d as [|[k' v'] t IH]; cbn; [contradiction|].
  intros Hnd [H | H].
  - injection H as -> ->. now rewrite Z.eqb_refl.
  - inversion Hnd as [|? ? Hnotin Hnd']; subst.
    destruct (Z.eqb_spec k' k) as [-> | Hne]; [|auto].
    exfalso. apply Hnotin. apply (in_map fst) in H. exact H.
Qed.

Lemma dict_key_get (d : list (Z * V)) (k : Z) :
  In k (dict.keys d) -> exists v, dict.get d k = Some v.
Proof.
  induction d as [|[k' v'] t IH]; cbn; [contradiction|].
  intros [-> | H].
  - rewrite Z.eqb_refl. eauto.
  - destruct (Z.eqb k' k); eauto.
Qed.

Lemma dict_mem_key (d : list (Z * V)) (k : Z) :
  dict.mem d k = true <-> In k (dict.keys d).
Proof.
  unfold dict.mem. split.
  - destruct (dict.get d k) eqn:H; [|discriminate]. intros _.
    apply dict_get_in in H. apply (in_map fst) in H. exact H.
  - intros H. destruct (dict_key_get d k H) as [v ->]. reflexivity.
Qed.

End DictFacts.

(** ** Generation of the DOF map *)

Section DofMap.
Context {F : Type} {SF : Scalar F}.

(** The node table of a model: keys are distinct (a dict) and the
    values are distinct objects. *)
Definition nodes_wf (ns : list (Z * Node F)) : Prop :=
  NoDup (dict.keys ns) /\ NoDup (map (fun p => ref (snd p)) ns).

Lemma nodes_wf_ref_inj (ns : list (Z * Node F)) k1 k2 n1 n2 :
  nodes_wf ns -> dict.get ns k1 = Some n1 -> dict.get ns k2 = Some n2 ->
  ref n1 = ref n2 -> k1 = k2.
Proof.
  intros [_ Hr] H1 H2 Heq.
  apply dict_get_in in H1, H2.
  revert Hr H1 H2. induction ns as [|[k n] t IH]; cbn; [contradiction|].
  intros Hnd [H1 | H1] [H2 | H2]; inversion Hnd as [|? ? Hnotin Hnd']; subst.
  - congruence.
  - injection H1 as -> ->. exfalso. apply Hnotin.
    rewrite Heq. apply (in_map (fun p => ref (snd p))) in H2. exact H2.
  - injection H2 as -> ->. exfalso. apply Hnotin.
    rewrite <- Heq. apply (in_map (fun p => ref (snd p))) in H1. exact H1.
  - auto.
Qed.

(** The body of the loop of [_generate_dof_map]. *)
Definition dof_step (ns : list (Z * Node F)) (current_dof : nat) (nid : Z)
  : M F nat :=
  (node <- lift (dict.getitem ns nid) ;;
   set_heap (fun h =>
     set_dof_indices h node (seq current_dof Model.ndof_per_node)) ;;;
   ret (current_dof + Model.ndof_per_node)%nat)%M.

Lemma dof_step_run ns cur nid node m h :
  dict.get ns nid = Some node ->
  dof_step ns cur nid {| model := m; heap := h |} =
  Ok (cur + 7, {| model := m; heap := set_dof_indices h node (seq cur 7) |}).
Proof.
  intros H. unfold dof_step, mbind, lift, dict.getitem. rewrite H. reflexivity.
Qed.

Lemma dof_loop_spec (ns : list (Z * Node F)) (l : list Z) :
  forall (cur : nat) (m : Model F) (h : store),
  (forall nid, In nid l -> In nid (dict.keys ns)) ->
  exists h',
    for_fold l (dof_step ns) cur {| model := m; heap := h |} =
      Ok (cur + 7 * List.length l, {| model := m; heap := h' |}) /\
    (forall r, (forall nid node, In nid l -> dict.get ns nid = Some node ->
                ref node <> r) -> h' r = h r) /\
    (nodes_wf ns -> StronglySorted Z.lt l ->
     forall nid node, In nid l -> dict.get ns nid = Some node ->
       h' (ref node) = seq (cur + 7 * rank l nid) 7).
Proof.
  induction l as [|a t IH]; intros cur m h Hkeys.
  - exists h. cbn. rewrite Nat.add_0_r. repeat split; auto.
    intros _ _ nid node [].
  - destruct (dict_key_get ns a (Hkeys a (or_introl eq_refl))) as [na Hna].
    destruct (IH (cur + 7) m (set_dof_indices h na (seq cur 7))) as (h' & Hrun & Hother & Hblock).
    { intros nid Hin. apply Hkeys. now right. }
    exists h'. split; [|split].
    + cbn [for_fold]. unfold mbind at 1. rewrite (dof_step_run _ _ _ _ _ _ Hna).
      rewrite Hrun. f_equal. f_equal. cbn [List.length]. lia.
    + intros r Hr. rewrite Hother.
      * unfold set_dof_indices. destruct (Nat.eqb_spec r (ref na)); [|reflexivity].
        exfalso. apply (Hr a na); [now left | assumption | congruence].
      * intros nid node Hin Hget. apply (Hr nid node); [now right | assumption].
    + intros Hwf Hs nid node Hin Hget.
      inversion Hs as [|? ? Hs' Hlt]; subst.
      destruct Hin as [<- | Hin].
      * assert (node = na) by congruence. subst node.
        rewrite Hother.
        -- unfold set_dof_indices. rewrite Nat.eqb_refl.
           rewrite rank_head by assumption. f_equal. lia.
        -- intros nid node Hin' Hget' Heq.
           assert (nid = a) by (eapply nodes_wf_ref_inj; eauto).
           subst nid. rewrite Forall_forall in Hlt. specialize (Hlt a Hin'). lia.
      * rewrite Forall_forall in Hlt. specialize (Hlt nid Hin).
        rewrite (Hblock Hwf Hs' nid node Hin Hget).
        rewrite rank_tail by assumption. f_equal. lia.
Qed.

Definition with_dof_map (m : Model F) (n : nat) : Model F := {|
  nodes := nodes m;
  elements := elements m;
  constraints := constraints m;
  loads := loads m;
  _dof_map_generated := true;
  total_dofs := n |}.

(** [_generate_dof_map] never raises; it numbers the nodes by rank. *)
Lemma generate_dof_map_spec (st : state F) :
  exists h',
    Model._generate_dof_map st =
      Ok (tt, {| model := with_dof_map (model st) (7 * List.length (nodes (model st)));
                 heap := h' |}) /\
    (forall r, ~ In r (map (fun p => ref (snd p)) (nodes (model st))) ->
       h' r = heap st r) /\
    (nodes_wf (nodes (model st)) ->
     forall nid node, In (nid, node) (nodes (model st)) ->
       h' (ref node) = seq (7 * rank (dict.keys (nodes (model st))) nid) 7).
Proof.
  destruct st as [m h]. cbn [model heap].
  set (ns := nodes m). set (ids := dict.keys ns).
  destruct (dof_loop_spec ns (sorted ids) 0 m h) as (h' & Hrun & Hother & Hblock).
  { intros nid Hin. eapply Permutation_in; [apply sorted_perm | exact Hin]. }
  exists h'. split; [|split].
  - unfold Model._generate_dof_map.
    unfold mbind at 1. cbn [gets model].
    change (for_fold (sorted (dict.keys (nodes m))) _ 0)
      with (for_fold (sorted ids) (dof_step ns) 0).
    unfold mbind at 1. rewrite Hrun. cbn.
    unfold with_dof_map. repeat f_equal.
    rewrite (Permutation_length (sorted_perm ids)).
    unfold ids, dict.keys. now rewrite length_map.
  - intros r Hr. apply Hother. intros nid node _ Hget Heq.
    apply Hr. apply dict_get_in in Hget.
    apply (in_map (fun p => ref (snd p))) in Hget. cbn in Hget. congruence.
  - intros Hwf nid node Hin.
    assert (Hget : dict.get ns nid = Some node) by (apply dict_in_get; [apply Hwf | exact Hin]).
    rewrite (rank_perm ids (sorted ids)) by (symmetry; apply sorted_perm).
    rewrite (Hblock Hwf (sorted_lt ids (proj1 Hwf)) nid node); [reflexivity| |exact Hget].
    eapply Permutation_in; [symmetry; apply sorted_perm|].
    apply (in_map fst) in Hin. exact Hin.
Qed.

End DofMap.

Section DictSet.
Context {V : Type}.

Lemma dict_get_set_eq (d : list (Z * V)) (k : Z) (v : V) :
  dict.get (dict.set d k v) k = Some v.
Proof.
  induction d as [|[k' v'] t IH]; cbn.
  - now rewrite Z.eqb_refl.
  - destruct (Z.eqb_spec k' k); cbn.
    + now rewrite Z.eqb_refl.
    + destruct (Z.eqb_spec k' k); [contradiction | exact IH].
Qed.

Lemma dict_set_in (d : list (Z * V)) (k : Z) (v : V) : In (k, v) (dict.set d k v).
Proof. apply dict_get_in, dict_get_set_eq. Qed.

Lemma dict_set_inv (d : list (Z * V)) (k : Z) (v : V) (k' : Z) (v' : V) :
  In (k', v') (dict.set d k v) -> (k' = k /\ v' = v) \/ In (k', v') d.
Proof.
  induction d as [|[k0 v0] t IH]; cbn.
  - intros [[= <- <-] | []]. now left.
  - destruct (Z.eqb_spec k0 k); cbn.
    + intros [[= <- <-] | H]; [now left | right; now right].
    + intros [H | H]; [right; now left|].
      destruct (IH H) as [H' | H']; [now left | right; now right].
Qed.

Lemma dict_set_keys (d : list (Z * V)) (k : Z) (v : V) (k' : Z) :
  In k' (dict.keys (dict.set d k v)) -> k' = k \/ In k' (dict.keys d).
Proof.
  unfold dict.keys. rewrite !in_map_iff. intros [[k0 v0] [<- H]]. cbn.
  apply dict_set_inv in H. destruct H as [[-> _] | H]; [now left|].
  right. exists (k0, v0). auto.
Qed.

End DictSet.

Lemma pyset_add_in (s : list Z) (a : Z) : In a (pyset.add s a).
Proof.
  unfold pyset.add. destruct (existsb (Z.eqb a) s) eqn:H.
  - apply existsb_exists in H. destruct H as (b & Hb & Heq).
    apply Z.eqb_eq in Heq. now subst.
  - apply in_or_app. right. now left.
Qed.

Lemma pyset_add_inv (s : list Z) (a b : Z) : In b (pyset.add s a) -> b = a \/ In b s.
Proof.
  unfold pyset.add. destruct (existsb (Z.eqb a) s); [now right|].
  intros H. apply in_app_or in H. destruct H as [H | [<- | []]]; auto.
Qed.

(** ** [numpy.unique] *)

Lemma insert_unique_in (a : nat) (l : list nat) (x : nat) :
  In x (npi.insert_unique a l) <-> x = a \/ In x l.
Proof.
  induction l as [|b t IH]; cbn -[Nat.ltb Nat.eqb].
  - intuition (subst; auto).
  - destruct (Nat.ltb a b); cbn; [clear IH; intuition (subst; auto)|].
    destruct (Nat.eqb_spec a b); cbn; [clear IH; subst; intuition (subst; auto)|].
    rewrite IH. clear IH. intuition (subst; auto).
Qed.

Lemma unique_in (l : list nat) (x : nat) : In x (npi.unique l) <-> In x l.
Proof.
  induction l as [|a t IH]; cbn; [reflexivity|].
  rewrite insert_unique_in, IH. clear IH. intuition (subst; auto).
Qed.

(** ** Constrained DOFs *)

Definition in_block (d : Z) : bool := ((-7 <=? d) && (d <? 7))%Z.

(** The global index of local DOF [d] (possibly negative) of node [nid]. *)
Definition gdof (ids : list Z) (nid : Z) (d : Z) : nat :=
  7 * rank ids nid + Z.to_nat (d mod 7).

Lemma nth_error_seq_lt (base n k : nat) :
  k < n -> nth_error (seq base n) k = Some (base + k).
Proof.
  intros H. rewrite (nth_error_nth' _ 0) by (rewrite length_seq; lia).
  now rewrite seq_nth.
Qed.

Lemma getitem_block (base : nat) (d : Z) :
  py.getitem (seq base 7) d =
  if in_block d then Ok (base + Z.to_nat (d mod 7)) else Raise IndexError.
Proof.
  unfold py.getitem, in_block. rewrite length_seq.
  change (Z.of_nat 7) with 7%Z.
  destruct (Z.ltb_spec d 0).
  - destruct (Z.leb_spec 0 (d + 7)), (Z.ltb_spec (d + 7) 7),
      (Z.leb_spec (-7) d), (Z.ltb_spec d 7); cbn [andb]; try lia; try reflexivity.
    replace (d mod 7)%Z with (d + 7)%Z
      by (apply Z.mod_unique with (q := (-1)%Z); lia).
    rewrite nth_error_seq_lt by lia. reflexivity.
  - destruct (Z.leb_spec 0 d), (Z.ltb_spec d 7), (Z.leb_spec (-7) d);
      cbn [andb]; try lia; try reflexivity.
    rewrite Z.mod_small by lia.
    rewrite nth_error_seq_lt by lia. reflexivity.
Qed.

Section Constraints.
Context {F : Type} {SF : Scalar F}.

(** [st1] is [st] with a freshly valid DOF map. *)
Definition dof_map_of (st st1 : state F) : Prop :=
  nodes (model st1) = nodes (model st) /\
  elements (model st1) = elements (model st) /\
  constraints (model st1) = constraints (model st) /\
  loads (model st1) = loads (model st) /\
  _dof_map_generated (model st1) = true /\
  total_dofs (model st1) = 7 * List.length (nodes (model st)) /\
  forall nid node, In (nid, node) (nodes (model st)) ->
    heap st1 (ref node) = seq (7 * rank (dict.keys (nodes (model st))) nid) 7.

(** A model as its methods leave it: distinct node objects under
    distinct ids, a DOF map that is valid whenever the flag says so, and
    constraints only on existing nodes. *)
Definition model_wf (st : state F) : Prop :=
  nodes_wf (nodes (model st)) /\
  (_dof_map_generated (model st) = true -> dof_map_of st st) /\
  (forall nid, In nid (dict.keys (constraints (model st))) ->
     In nid (dict.keys (nodes (model st)))).

Lemma generate_dof_map_of (st : state F) :
  nodes_wf (nodes (model st)) ->
  exists st1, Model._generate_dof_map st = Ok (tt, st1) /\ dof_map_of st st1.
Proof.
  intros Hwf. destruct (generate_dof_map_spec st) as (h' & Hrun & _ & Hblock).
  eexists. split; [exact Hrun|].
  unfold dof_map_of. cbn. repeat split; auto.
  intros nid node Hin. apply Hblock; assumption.
Qed.

Lemma ensure_dof_map_spec (st : state F) :
  model_wf st ->
  exists st1, Model.ensure_dof_map st = Ok (tt, st1) /\ dof_map_of st st1.
Proof.
  intros (Hn & Hcur & _). unfold Model.ensure_dof_map, mbind, gets.
  destruct (_dof_map_generated (model st)) eqn:Hg.
  - exists st. split; [reflexivity | auto].
  - now apply generate_dof_map_of.
Qed.

Definition all_in_block (cs : list (Z * list Z)) : bool :=
  forallb (fun e => forallb in_block (snd e)) cs.

Definition constrained_of (ids : list Z) (cs : list (Z * list Z)) : list nat :=
  flat_map (fun e => map (gdof ids (fst e)) (snd e)) cs.

Definition index_step (l : list nat) (constrained : list nat) (d : Z)
  : M F (list nat) :=
  (g <- lift (py.getitem l d) ;; ret (constrained ++ [g]))%M.

Lemma index_loop (base : nat) (dofs : list Z) :
  forall (acc : list nat) (st : state F),
  for_fold dofs (index_step (seq base 7)) acc st =
  if forallb in_block dofs
  then Ok (acc ++ map (fun d => base + Z.to_nat (d mod 7)) dofs, st)
  else Raise IndexError.
Proof.
  induction dofs as [|d t IH]; intros acc st; cbn [for_fold forallb map].
  - now rewrite app_nil_r.
  - unfold mbind at 1. unfold index_step at 1, mbind, lift, ret.
    rewrite getitem_block.
    destruct (in_block d); cbn [andb]; [|reflexivity].
    rewrite IH. destruct (forallb in_block t); [|reflexivity].
    now rewrite <- app_assoc.
Qed.

Definition node_step (ns : list (Z * Node F)) (constrained : list nat)
    (entry : Z * list Z) : M F (list nat) :=
  (let nid := fst entry in
   let dofs := snd entry in
   node <- lift (dict.getitem ns nid) ;;
   h <- gets heap ;;
   for_fold dofs (index_step (dof_indices h node)) constrained)%M.

Lemma node_loop (ns : list (Z * Node F)) (st : state F) (cs : list (Z * list Z)) :
  NoDup (dict.keys ns) ->
  (forall nid node, In (nid, node) ns ->
     heap st (ref node) = seq (7 * rank (dict.keys ns) nid) 7) ->
  (forall e, In e cs -> In (fst e) (dict.keys ns)) ->
  forall acc,
  for_fold cs (node_step ns) acc st =
  if all_in_block cs
  then Ok (acc ++ constrained_of (dict.keys ns) cs, st)
  else Raise IndexError.
Proof.
  intros Hnd Hblock. induction cs as [|[nid dofs] t IH]; intros Hkeys acc;
    cbn [for_fold all_in_block forallb constrained_of flat_map].
  - now rewrite app_nil_r.
  - destruct (dict_key_get ns nid (Hkeys (nid, dofs) (or_introl eq_refl))) as [node Hget].
    unfold mbind at 1. unfold node_step at 1. cbn [fst snd].
    unfold mbind at 1, lift at 1, dict.getitem. rewrite Hget.
    unfold mbind at 1, gets at 1. unfold dof_indices.
    rewrite (Hblock nid node (dict_get_in _ _ _ Hget)).
    rewrite index_loop.
    destruct (forallb in_block dofs); cbn [andb]; [|reflexivity].
    rewrite IH by (intros e He; apply Hkeys; now right).
    fold (all_in_block t).
    destruct (all_in_block t); [|reflexivity].
    fold (constrained_of (dict.keys ns) t).
    unfold gdof. now rewrite <- app_assoc.
Qed.

Lemma get_constrained_dofs_spec (st : state F) :
  model_wf st ->
  exists st1, dof_map_of st st1 /\
    Model.get_constrained_dofs st =
    if all_in_block (constraints (model st))
    then Ok (npi.unique (constrained_of (dict.keys (nodes (model st)))
                                        (constraints (model st))), st1)
    else Raise IndexError.
Proof.
  intros Hwf. destruct (ensure_dof_map_spec st Hwf) as (st1 & Hens & Hmap).
  exists st1. split; [exact Hmap|].
  destruct Hwf as (Hn & _ & Hck).
  destruct Hmap as (Hns & _ & Hcs & _ & _ & _ & Hblock).
  unfold Model.get_constrained_dofs.
  unfold mbind at 1. rewrite Hens.
  unfold mbind at 1, gets at 1.
  unfold mbind at 1.
  change (for_fold (constraints (model st1)) _ [] st1)
    with (for_fold (constraints (model st1)) (node_step (nodes (model st1))) [] st1).
  rewrite Hcs, Hns.
  rewrite node_loop; auto.
  - destruct (all_in_block (constraints (model st))); reflexivity.
  - apply Hn.
  - intros e He. apply Hck. apply (in_map fst) in He. exact He.
Qed.

End Constraints.

Section DofMapClaim.
Context {F : Type} {SF : Scalar F}.

Lemma nodes_wf_perm (ns ns' : list (Z * Node F)) :
  Permutation ns ns' -> nodes_wf ns -> nodes_wf ns'.
Proof.
  intros Hp [Hk Hr]. split.
  - eapply Permutation_NoDup; [|exact Hk]. unfold dict.keys. now apply Permutation_map.
  - eapply Permutation_NoDup; [|exact Hr]. now apply Permutation_map.
Qed.

(** C4: DOF-map generation gives the node with the k-th smallest id
    (position [k] of the ids in ascending order, that is the node with
    exactly [k] smaller ids in the table) the block [7k .. 7k+6], and
    sets the total to 7 times the number of nodes; another table
    holding the same nodes in another insertion order yields the same
    numbering. *)
Theorem dof_map_by_ascending_id (st : state F) :
  nodes_wf (nodes (model st)) ->
  exists st',
    Model._generate_dof_map st = Ok (tt, st') /\
    total_dofs (model st') = 7 * List.length (nodes (model st)) /\
    (forall k nid node,
       nth_error (sorted (dict.keys (nodes (model st)))) k = Some nid ->
       In (nid, node) (nodes (model st)) ->
       dof_indices (heap st') node = seq (7 * k) 7) /\
    (forall nid node, In (nid, node) (nodes (model st)) ->
       dof_indices (heap st') node =
       seq (7 * rank (dict.keys (nodes (model st))) nid) 7) /\
    (forall st2, Permutation (nodes (model st)) (nodes (model st2)) ->
       exists st2',
         Model._generate_dof_map st2 = Ok (tt, st2') /\
         total_dofs (model st2') = total_dofs (model st') /\
         forall nid node, In (nid, node) (nodes (model st)) ->
           dof_indices (heap st2') node = dof_indices (heap st') node).
Proof.
  intros Hwf.
  destruct (generate_dof_map_of st Hwf) as (st' & Hrun & Hmap).
  destruct Hmap as (_ & _ & _ & _ & _ & Htot & Hblock).
  exists st'. split; [exact Hrun|]. split; [exact Htot|]. split; [|split].
  - intros k nid node Hk Hin. unfold dof_indices.
    rewrite (Hblock nid node Hin). f_equal. f_equal.
    rewrite (rank_perm _ (sorted (dict.keys (nodes (model st)))))
      by (symmetry; apply sorted_perm).
    apply rank_nth; [apply sorted_lt, Hwf | exact Hk].
  - intros nid node Hin. unfold dof_indices. now apply Hblock.
  - intros st2 Hp.
    destruct (generate_dof_map_of st2 (nodes_wf_perm _ _ Hp Hwf)) as (st2' & Hrun2 & Hmap2).
    destruct Hmap2 as (_ & _ & _ & _ & _ & Htot2 & Hblock2).
    exists st2'. split; [exact Hrun2|]. split.
    + rewrite Htot, Htot2. f_equal. symmetry. now apply Permutation_length.
    + intros nid node Hin. unfold dof_indices.
      rewrite (Hblock nid node) by assumption.
      rewrite (Hblock2 nid node) by (eapply Permutation_in; eauto).
      f_equal. f_equal. apply rank_perm. unfold dict.keys.
      apply Permutation_map. now symmetry.
Qed.

End DofMapClaim.

Section ConstraintClaim.
Context {F : Type} {SF : Scalar F}.

Lemma all_in_block_forall (cs : list (Z * list Z)) :
  all_in_block cs = true <->
  forall k s d, In (k, s) cs -> In d s -> in_block d = true.
Proof.
  unfold all_in_block. rewrite forallb_forall. split.
  - intros H k s d Hks Hd. specialize (H (k, s) Hks). cbn in H.
    rewrite forallb_forall in H. now apply H.
  - intros H [k s] Hks. cbn. rewrite forallb_forall. intros d Hd. eapply H; eauto.
Qed.

(** C10 (amended): on an existing node [add_constraint] records any
    integer; an index outside [-7, 6] makes [get_constrained_dofs] raise
    [IndexError] afterwards, and an index in [-7, 6] (negative ones
    included) constrains the DOF of the node's block at that position
    modulo 7. *)
Theorem add_constraint_unchecked (st : state F) (nid d : Z) :
  model_wf st ->
  dict.mem (nodes (model st)) nid = true ->
  exists st',
    Model.add_constraint nid d st = Ok (tt, st') /\
    (exists s, dict.get (constraints (model st')) nid = Some s /\ In d s) /\
    (in_block d = false ->
       Model.get_constrained_dofs st' = Raise IndexError) /\
    (in_block d = true ->
     all_in_block (constraints (model st)) = true ->
       exists cons st'',
         Model.get_constrained_dofs st' = Ok (cons, st'') /\
         In (gdof (dict.keys (nodes (model st))) nid d) cons).
Proof.
  intros Hwf Hmem.
  set (old := match dict.get (constraints (model st)) nid with
              | Some s => s | None => [] end).
  set (m' := {| nodes := nodes (model st);
                elements := elements (model st);
                constraints := dict.set (constraints (model st)) nid (pyset.add old d);
                loads := loads (model st);
                _dof_map_generated := _dof_map_generated (model st);
                total_dofs := total_dofs (model st) |}).
  exists {| model := m'; heap := heap st |}.
  assert (Hrun : Model.add_constraint nid d st = Ok (tt, {| model := m'; heap := heap st |})).
  { unfold Model.add_constraint, mbind, gets. now rewrite Hmem. }
  assert (Hwf' : model_wf {| model := m'; heap := heap st |}).
  { destruct Hwf as (Hn & Hcur & Hck). split; [exact Hn|]. split.
    - cbn. intros Hg. destruct (Hcur Hg) as (H1 & H2 & H3 & H4 & H5 & H6 & H7).
      unfold dof_map_of. cbn. repeat split; auto.
    - cbn. intros k Hk. apply dict_set_keys in Hk. destruct Hk as [-> | Hk]; [|auto].
      now apply dict_mem_key. }
  assert (Hrec : In (nid, pyset.add old d) (constraints m')) by apply dict_set_in.
  split; [exact Hrun|]. split; [|split].
  - exists (pyset.add old d). split; [apply dict_get_set_eq | apply pyset_add_in].
  - intros Hout.
    destruct (get_constrained_dofs_spec _ Hwf') as (st1 & _ & ->). cbn [model].
    destruct (all_in_block (constraints m')) eqn:Hall; [|reflexivity].
    rewrite all_in_block_forall in Hall.
    rewrite (Hall _ _ d Hrec (pyset_add_in old d)) in Hout. discriminate.
  - intros Hin Hall.
    destruct (get_constrained_dofs_spec _ Hwf') as (st1 & _ & ->). cbn [model].
    assert (Hall' : all_in_block (constraints m') = true).
    { rewrite all_in_block_forall in Hall. apply all_in_block_forall.
      intros k s d' Hks Hd'.
      apply dict_set_inv in Hks. destruct Hks as [[-> ->] | Hks]; [|eauto].
      apply pyset_add_inv in Hd'. destruct Hd' as [-> | Hd']; [exact Hin|].
      unfold old in Hd'. destruct (dict.get (constraints (model st)) nid) eqn:Hget.
      - apply dict_get_in in Hget. eauto.
      - destruct Hd'. }
    rewrite Hall'. eexists. eexists. split; [reflexivity|].
    apply unique_in. unfold constrained_of. apply in_flat_map.
    exists (nid, pyset.add old d). split; [exact Hrec|].
    cbn [fst snd]. apply in_map, pyset_add_in.
Qed.

End ConstraintClaim.

(** ** Reading and writing arrays by index lists *)

Section PutTake.
Context {X : Type}.

Lemma length_setitem (l : list X) (i : nat) (a : X) :
  List.length (py.setitem l i a) = List.length l.
Proof.
  revert i. induction l as [|h t IH]; intros [|i]; cbn; auto.
Qed.

Lemma nth_setitem_eq (l : list X) (i : nat) (a d : X) :
  i < List.length l -> nth i (py.setitem l i a) d = a.
Proof.
  revert i. induction l as [|h t IH]; intros [|i] H; cbn in *; try lia; auto.
  apply IH. lia.
Qed.

Lemma nth_setitem_ne (l : list X) (i j : nat) (a d : X) :
  i <> j -> nth j (py.setitem l i a) d = nth j l d.
Proof.
  revert i j. induction l as [|h t IH]; intros [|i] [|j] H; cbn; auto; try lia.
Qed.

End PutTake.

Section PutTakeScalar.
Context {F : Type} {SF : Scalar F}.

Lemma length_put (idx : list nat) :
  forall (w v : np.vector F), List.length (np.put v idx w) = List.length v.
Proof.
  unfold np.put. induction idx as [|i t IH]; intros [|a w] v; cbn; auto.
  rewrite IH. apply length_setitem.
Qed.

Lemma get_put_other (idx : list nat) (i : nat) :
  ~ In i idx ->
  forall (w v : np.vector F), np.get (np.put v idx w) i = np.get v i.
Proof.
  unfold np.put, np.get. induction idx as [|j t IH]; intros Hi [|a w] v; cbn; auto.
  rewrite IH by (intros H; apply Hi; now right).
  apply nth_setitem_ne. intros ->. apply Hi. now left.
Qed.

Lemma take_put (idx : list nat) :
  NoDup idx ->
  forall (w v : np.vector F),
  np.in_range (List.length v) idx = true ->
  List.length idx = List.length w ->
  np.take (np.put v idx w) idx = w.
Proof.
  induction 1 as [|i t Hi Hnd IH]; intros [|a w] v Hr Hl; cbn in Hl; try lia.
  - reflexivity.
  - unfold np.in_range in Hr. cbn [forallb] in Hr.
    apply andb_prop in Hr. destruct Hr as [Hlt Hr].
    apply Nat.ltb_lt in Hlt.
    cbn [np.take map]. f_equal.
    + change (np.put v (i :: t) (a :: w)) with (np.put (py.setitem v i a) t w).
      rewrite get_put_other by assumption.
      unfold np.get. now apply nth_setitem_eq.
    + change (np.put v (i :: t) (a :: w)) with (np.put (py.setitem v i a) t w).
      apply IH; [|lia].
      unfold np.in_range. now rewrite length_setitem.
Qed.

Lemma get_zeros (n i : nat) : np.get (np.zeros n : np.vector F) i = of_Z 0.
Proof.
  unfold np.get, np.zeros. revert i. induction n as [|n IH]; intros [|i]; cbn; auto.
Qed.

Lemma take_zeros (n : nat) (idx : list nat) :
  np.take (np.zeros n : np.vector F) idx = np.zeros (List.length idx).
Proof.
  unfold np.take. induction idx as [|i t IH]; cbn; [reflexivity|].
  rewrite get_zeros, IH. reflexivity.
Qed.

Lemma length_zeros (n : nat) : List.length (np.zeros n : np.vector F) = n.
Proof. apply repeat_length. Qed.

Lemma setitem_zeros (n i : nat) :
  py.setitem (np.zeros n : np.vector F) i (of_Z 0) = np.zeros n.
Proof.
  unfold np.zeros. revert i. induction n as [|n IH]; intros [|i]; cbn; auto.
  now rewrite IH.
Qed.

Lemma put_zeros (n m : nat) (idx : list nat) :
  np.put (np.zeros n : np.vector F) idx (np.zeros m) = np.zeros n.
Proof.
  unfold np.put. revert m. induction idx as [|i t IH]; intros [|m]; cbn; auto.
  rewrite setitem_zeros. apply IH.
Qed.

End PutTakeScalar.

(** ** Free DOFs *)




(** ** Methods that only read the state *)

Section ReadOnly.
Context {F : Type} {SF : Scalar F}.

Lemma for_fold_pure {X Y : Type} (body : Y -> X -> M F Y) (l : list X) :
  (forall b a st r st', body b a st = Ok (r, st') -> st' = st) ->
  forall b st r st', for_fold l body b st = Ok (r, st') -> st' = st.
Proof.
  intros Hbody. induction l as [|a t IH]; intros b st r st' H; cbn in H.
  - unfold ret in H. congruence.
  - unfold mbind in H. destruct (body b a st) as [[b' st1]|e] eqn:Hb; [|discriminate].
    apply Hbody in Hb. subst st1. eauto.
Qed.

Lemma ensure_dof_map_current (st : state F) :
  _dof_map_generated (model st) = true -> Model.ensure_dof_map st = Ok (tt, st).
Proof.
  intros H. unfold Model.ensure_dof_map, mbind, gets. now rewrite H.
Qed.




Lemma get_constrained_dofs_pure (st st' : state F) (cons : list nat) :
  _dof_map_generated (model st) = true ->
  Model.get_constrained_dofs st = Ok (cons, st') -> st' = st.
Proof.
  intros Hg. unfold Model.get_constrained_dofs.
  unfold mbind at 1. rewrite (ensure_dof_map_current st Hg).
  unfold mbind at 1, gets at 1.
  unfold mbind at 1.
  match goal with |- context [for_fold ?l ?body ?b ?s] =>
    destruct (for_fold l body b s) as [[c st1]|e] eqn:Hloop end; [|discriminate].
  unfold ret. intros [= <- <-].
  revert Hloop. apply for_fold_pure. intros acc entry s0 r s1.
  unfold mbind at 1. unfold lift at 1.
  destruct (dict.getitem _ _); [|discriminate].
  unfold mbind at 1, gets at 1.
  apply for_fold_pure. intros acc' d s2 r' s3.
  unfold mbind at 1. unfold lift at 1.
  destruct (py.getitem _ _); [|discriminate].
  unfold ret. congruence.
Qed.


End ReadOnly.

(** ** Assembly of a well-formed model succeeds *)

Section Shapes.
Context {F : Type} {SF : Scalar F}.

Lemma length_mset (m : np.matrix F) (i j : nat) (a : F) :
  List.length (np.mset m i j a) = List.length m.
Proof. apply length_setitem. Qed.

Lemma row_length_mset (m : np.matrix F) (i j k : nat) (a : F) :
  List.length (nth k (np.mset m i j a) []) = List.length (nth k m []).
Proof.
  unfold np.mset. destruct (Nat.eq_dec i k) as [-> | Hne].
  - destruct (Nat.lt_ge_cases k (List.length m)) as [Hk | Hk].
    + rewrite nth_setitem_eq by assumption. apply length_setitem.
    + rewrite !nth_overflow; auto. now rewrite length_setitem.
  - now rewrite nth_setitem_ne.
Qed.

(** A matrix has [r] rows of [c] entries, stated by position. *)
Definition dims (r c : nat) (m : np.matrix F) : Prop :=
  List.length m = r /\ forall k, k < r -> List.length (nth k m []) = c.

Lemma dims_mset (r c : nat) (m : np.matrix F) (i j : nat) (a : F) :
  dims r c m -> dims r c (np.mset m i j a).
Proof.
  intros [Hr Hc]. split; [now rewrite length_mset|].
  intros k Hk. rewrite row_length_mset. auto.
Qed.

Lemma dims_ix_set (r c : nat) (rows cols : list nat) (v : np.matrix F) :
  forall m, dims r c m -> dims r c (np.ix_set m rows cols v).
Proof.
  unfold np.ix_set. generalize (py.enumerate rows) as lr, (py.enumerate cols) as lc.
  intros lr lc. induction lr as [|ai lr IH]; intros m Hm; cbn [fold_left]; [exact Hm|].
  apply IH. clear IH. revert m Hm.
  induction lc as [|bj lc IH]; intros m Hm; cbn [fold_left]; [exact Hm|].
  apply IH. now apply dims_mset.
Qed.

Lemma dims_zeros2 (r c : nat) : dims r c (np.zeros2 r c).
Proof.
  unfold np.zeros2. split; [apply repeat_length|].
  intros k Hk. rewrite nth_repeat_lt by assumption. apply repeat_length.
Qed.

Lemma dims_ncols (r c : nat) (m : np.matrix F) :
  dims r c m -> 0 < r -> np.ncols m = c.
Proof.
  intros [Hr Hc] Hpos. destruct m as [|row m]; cbn in *; [lia|].
  apply (Hc 0). lia.
Qed.

Lemma dims_eye (n : nat) : dims n n (np.eye n).
Proof.
  unfold np.eye. split; [now rewrite length_map, length_seq|].
  intros k Hk.
  rewrite (nth_indep _ [] (map (fun j => if Nat.eqb 0 j then of_Z 1 else of_Z 0) (seq 0 n)))
    by (now rewrite length_map, length_seq).
  change (map (fun j => if Nat.eqb 0 j then of_Z 1 else of_Z 0) (seq 0 n))
    with ((fun i => map (fun j => if Nat.eqb i j then of_Z 1 else of_Z 0) (seq 0 n)) 0).
  rewrite map_nth. now rewrite length_map, length_seq.
Qed.

Lemma transformation_rows (b : Beam3D F) :
  List.length (Beam3D.transformation_matrix b) = 14 /\
  np.ncols (Beam3D.transformation_matrix b) = 14.
Proof.
  unfold Beam3D.transformation_matrix.
  set (Rt := np.transpose (Beam3D.direction_cosine_matrix b)).
  assert (H : dims 7 7 (np.set_block (np.set_block (np.eye 7) 0 0 Rt) 3 3 Rt)).
  { unfold np.set_block. do 2 apply dims_ix_set. apply dims_eye. }
  set (T := np.set_block _ 3 3 Rt) in *.
  pose proof (dims_ncols _ _ _ H ltac:(lia)) as Hc.
  destruct H as [Hr Hrow].
  unfold np.block_diag. rewrite length_app, !length_map, Hr. split; [reflexivity|].
  destruct T as [|row T]; [discriminate|].
  cbn [map app np.ncols]. rewrite length_app, length_zeros.
  cbn [np.ncols] in Hc. lia.
Qed.

End Shapes.

Section AssemblySucceeds.
Context {F : Type} {SF : Scalar F}.

Lemma length_transpose (m : np.matrix F) :
  List.length (np.transpose m) = np.ncols m.
Proof. unfold np.transpose. now rewrite length_map, length_seq. Qed.

Lemma length_matmul (a b : np.matrix F) :
  List.length (np.matmul a b) = List.length a.
Proof. unfold np.matmul. now rewrite length_map. Qed.

Lemma ncols_matmul (a b : np.matrix F) :
  a <> [] -> np.ncols (np.matmul a b) = np.ncols b.
Proof.
  destruct a as [|row a]; [congruence|]. intros _.
  unfold np.matmul. cbn [map np.ncols].
  now rewrite length_map, length_transpose.
Qed.

Lemma global_stiffness_rows (b : Beam3D F) :
  List.length (Beam3D.global_stiffness_matrix b) = 14 /\
  np.ncols (Beam3D.global_stiffness_matrix b) = 14.
Proof.
  destruct (transformation_rows b) as [Hr Hc].
  unfold Beam3D.global_stiffness_matrix.
  set (T := Beam3D.transformation_matrix b) in *.
  set (k := Beam3D.local_stiffness_matrix b).
  assert (Hl : List.length (np.matmul (np.transpose T) k) = 14).
  { now rewrite length_matmul, length_transpose. }
  split.
  - now rewrite length_matmul.
  - rewrite ncols_matmul; [exact Hc|].
    intros E. rewrite E in Hl. discriminate.
Qed.

Lemma rank_lt (ids : list Z) (nid : Z) :
  In nid ids -> rank ids nid < List.length ids.
Proof.
  unfold rank. induction ids as [|a t IH]; cbn [In filter List.length]; [contradiction|].
  intros [-> | Hin].
  - rewrite Z.ltb_irrefl. pose proof (filter_length_le (fun j => (j <? nid)%Z) t). lia.
  - specialize (IH Hin). destruct (a <? nid)%Z; cbn [List.length]; lia.
Qed.

Lemma block_in_range (ids : list Z) (nid : Z) :
  In nid ids ->
  np.in_range (7 * List.length ids) (seq (7 * rank ids nid) 7) = true.
Proof.
  intros Hin. pose proof (rank_lt ids nid Hin).
  unfold np.in_range. apply forallb_forall. intros i Hi.
  apply in_seq in Hi. apply Nat.ltb_lt. lia.
Qed.

Lemma in_range_app (n : nat) (a b : list nat) :
  np.in_range n a = true -> np.in_range n b = true -> np.in_range n (a ++ b) = true.
Proof. unfold np.in_range. intros Ha Hb. now rewrite forallb_app, Ha, Hb. Qed.

(** What the steps of a solve need beyond a generated DOF map: the
    nodes of every element are nodes of the model, and loads are
    7-vectors on nodes of the model. *)
Definition model_ready (st : state F) : Prop :=
  nodes_wf (nodes (model st)) /\
  dof_map_of st st /\
  (forall el, In el (elements (model st)) ->
     (exists k, In (k, node1 el) (nodes (model st))) /\
     (exists k, In (k, node2 el) (nodes (model st)))) /\
  (forall nid load, In (nid, load) (loads (model st)) ->
     In nid (dict.keys (nodes (model st))) /\ List.length load = 7).

Lemma assemble_stiffness_ready (st : state F) :
  model_ready st ->
  exists K, Model.assemble_stiffness st = Ok (K, st) /\
            List.length K = total_dofs (model st).
Proof.
  intros (Hwf & Hmap & Hel & _).
  destruct Hmap as (_ & _ & _ & _ & Hg & Htot & Hblock).
  unfold Model.assemble_stiffness.
  unfold mbind at 1. rewrite (ensure_dof_map_current st Hg).
  unfold mbind at 1, gets at 1. rewrite Htot.
  set (n := 7 * List.length (nodes (model st))).
  assert (Hloop : forall els K0,
            (forall el, In el els -> In el (elements (model st))) ->
            dims n n K0 ->
            exists K, for_fold els
              (fun K_global el =>
                 (h <- gets heap ;;
                  lift (np.ix_iadd_checked K_global (Model.element_dofs h el)
                          (Model.element_dofs h el)
                          (Beam3D.global_stiffness_matrix el)))%M) K0 st = Ok (K, st) /\
              dims n n K).
  { induction els as [|el els IH]; intros K0 Hin HK0; cbn [for_fold].
    - exists K0. split; [reflexivity | exact HK0].
    - destruct (Hel el (Hin el (or_introl eq_refl))) as [[k1 H1] [k2 H2]].
      assert (Hpos : 0 < n).
      { unfold n. destruct (nodes (model st)); [destruct H1 | cbn; lia]. }
      unfold mbind at 1. unfold mbind at 1, gets at 1.
      unfold Model.element_dofs, dof_indices.
      rewrite (Hblock _ _ H1), (Hblock _ _ H2).
      unfold np.ix_iadd_checked.
      rewrite (dims_ncols _ _ _ HK0 Hpos), (proj1 HK0).
      assert (Hr : np.in_range n
                (seq (7 * rank (dict.keys (nodes (model st))) k1) 7 ++
                 seq (7 * rank (dict.keys (nodes (model st))) k2) 7) = true).
      { unfold n. rewrite <- (length_map fst (nodes (model st))).
        apply in_range_app; apply block_in_range.
        - apply (in_map fst) in H1. exact H1.
        - apply (in_map fst) in H2. exact H2. }
      rewrite Hr. cbn [andb negb].
      destruct (global_stiffness_rows el) as [-> ->].
      rewrite length_app, !length_seq. cbn [Nat.add Nat.eqb andb negb].
      unfold lift at 1.
      apply IH; [intros e He; apply Hin; now right|].
      now apply dims_ix_set. }
  destruct (Hloop (elements (model st)) (np.zeros2 n n) (fun _ H => H) (dims_zeros2 n n))
    as (K & HK & Hd).
  exists K. split; [exact HK | apply Hd].
Qed.

Lemma get_load_vector_ready (st : state F) :
  model_ready st ->
  exists Fv, Model.get_load_vector st = Ok (Fv, st) /\
             List.length Fv = total_dofs (model st).
Proof.
  intros (Hwf & Hmap & _ & Hld).
  destruct Hmap as (_ & _ & _ & _ & Hg & Htot & Hblock).
  unfold Model.get_load_vector.
  unfold mbind at 1. rewrite (ensure_dof_map_current st Hg).
  unfold mbind at 1, gets at 1. rewrite Htot.
  set (n := 7 * List.length (nodes (model st))).
  assert (Hloop : forall ls F0,
            (forall e, In e ls -> In e (loads (model st))) ->
            List.length F0 = n ->
            exists Fv, for_fold ls
              (fun Fv entry =>
                 (node <- lift (dict.getitem (nodes (model st)) (fst entry)) ;;
                  h <- gets heap ;;
                  lift (np.iadd_at_checked Fv (dof_indices h node) (snd entry)))%M)
              F0 st = Ok (Fv, st) /\
              List.length Fv = n).
  { induction ls as [|[nid load] ls IH]; intros F0 Hin HF0; cbn [for_fold].
    - exists F0. split; [reflexivity | exact HF0].
    - destruct (Hld nid load (Hin _ (or_introl eq_refl))) as [Hk Hlen].
      destruct (dict_key_get _ _ Hk) as [node Hget].
      pose proof (dict_get_in _ _ _ Hget) as Hnode.
      unfold mbind at 1. unfold mbind at 1. cbn [fst snd].
      unfold lift at 1, dict.getitem. rewrite Hget.
      unfold mbind at 1, gets at 1. unfold dof_indices.
      rewrite (Hblock _ _ Hnode).
      unfold np.iadd_at_checked. rewrite HF0.
      assert (Hr : np.in_range n
                (seq (7 * rank (dict.keys (nodes (model st))) nid) 7) = true).
      { unfold n. rewrite <- (length_map fst (nodes (model st))).
        now apply block_in_range. }
      rewrite Hr, length_seq, Hlen. cbn [Nat.eqb andb negb].
      unfold lift at 1.
      apply IH; [intros e He; apply Hin; now right|].
      now rewrite length_put. }
  destruct (Hloop (loads (model st)) (np.zeros n) (fun _ H => H) (length_zeros n))
    as (Fv & HF & Hl).
  exists Fv. split; [exact HF | exact Hl].
Qed.

End AssemblySucceeds.

Section StaticSolve.
Context {F : Type} {SF : Scalar F}.
Variable linalg_solve : np.matrix F -> np.vector F -> result (np.vector F).




End StaticSolve.

(** ** Comparison of binary64 numbers *)

Lemma SFcompare_antisym (a b : spec_float) (c : comparison) :
  SFcompare a b = Some c -> SFcompare b a = Some (CompOpp c).
Proof.
  destruct a as [sa|sa| |sa ma ea], b as [sb|sb| |sb mb eb]; cbn;
    try discriminate;
    try (destruct sa; intros [= <-]; reflexivity);
    try (destruct sb; intros [= <-]; reflexivity);
    try (destruct sa, sb; intros [= <-]; reflexivity).
  destruct sa, sb; intros [= <-]; try reflexivity;
    rewrite (Z.compare_antisym ea eb);
    destruct (ea ?= eb)%Z; cbn; try reflexivity;
    now rewrite (Pos.compare_cont_antisym ma mb Eq).
Qed.

Lemma ltb_comparable (c a : float) :
  PrimFloat.ltb c a = true -> Prim2SF a <> S754_nan.
Proof.
  rewrite FloatAxioms.ltb_spec. unfold SFltb. intros H Hn. rewrite Hn in H.
  destruct (Prim2SF c); discriminate.
Qed.

Lemma SFcompare_defined (a b : spec_float) :
  a <> S754_nan -> b <> S754_nan -> exists c, SFcompare a b = Some c.
Proof.
  destruct a as [sa|sa| |sa ma ea], b as [sb|sb| |sb mb eb]; cbn;
    intros Ha Hb; try congruence; eauto.
Qed.

(** Two numbers that are not NaN are comparable one way or the other. *)
Lemma leb_total (a b : float) :
  Prim2SF a <> S754_nan -> Prim2SF b <> S754_nan ->
  PrimFloat.leb a b = false -> PrimFloat.leb b a = true.
Proof.
  intros Ha Hb. rewrite !FloatAxioms.leb_spec. unfold SFleb.
  destruct (SFcompare_defined _ _ Ha Hb) as [c Hc].
  rewrite Hc, (SFcompare_antisym _ _ _ Hc).
  destruct c; cbn; congruence.
Qed.

(** ** Selection of the buckling modes *)

Section ModeSelection.
Context {F : Type} {SF : Scalar F}.

Definition le_at (l : np.vector F) (i j : nat) : Prop :=
  fleb (np.get l i) (np.get l j) = true.

(** Any two entries of [l] are comparable one way or the other. *)
Definition total_on (l : np.vector F) : Prop :=
  forall i j, i < List.length l -> j < List.length l ->
    fleb (np.get l i) (np.get l j) = false ->
    fleb (np.get l j) (np.get l i) = true.

Lemma insert_by_perm (l : np.vector F) (i : nat) (idx : list nat) :
  Permutation (BucklingSolver.insert_by l i idx) (i :: idx).
Proof.
  induction idx as [|j t IH]; cbn; [reflexivity|].
  destruct (fleb (np.get l i) (np.get l j)); [reflexivity|].
  rewrite IH. apply perm_swap.
Qed.

Lemma fold_insert_by_perm (l : np.vector F) (s : list nat) :
  Permutation (fold_right (BucklingSolver.insert_by l) [] s) s.
Proof.
  induction s as [|i t IH]; cbn; [reflexivity|].
  rewrite insert_by_perm. now constructor.
Qed.

Lemma argsort_perm (l : np.vector F) :
  Permutation (BucklingSolver.argsort l) (seq 0 (List.length l)).
Proof. apply fold_insert_by_perm. Qed.

Lemma insert_by_hd (l : np.vector F) (i j : nat) (t : list nat) :
  HdRel (le_at l) j t -> le_at l j i ->
  HdRel (le_at l) j (BucklingSolver.insert_by l i t).
Proof.
  intros Ht Hji. destruct t as [|k t]; cbn.
  - now constructor.
  - destruct (fleb (np.get l i) (np.get l k)); constructor; [assumption|].
    now inversion Ht.
Qed.

Lemma insert_by_sorted (l : np.vector F) (i : nat) (idx : list nat) :
  (forall j, In j idx -> fleb (np.get l i) (np.get l j) = false -> le_at l j i) ->
  Sorted (le_at l) idx -> Sorted (le_at l) (BucklingSolver.insert_by l i idx).
Proof.
  intros Htot Hs. induction Hs as [|j t Hs IH Hhd]; cbn.
  - repeat constructor.
  - destruct (fleb (np.get l i) (np.get l j)) eqn:Hij.
    + constructor; [now constructor|]. now constructor.
    + constructor.
      * apply IH. intros k Hk. apply Htot. now right.
      * apply insert_by_hd; [assumption|]. apply Htot; [now left | assumption].
Qed.

Lemma fold_insert_by_sorted (l : np.vector F) (s : list nat) :
  total_on l -> Forall (fun i => i < List.length l) s ->
  Sorted (le_at l) (fold_right (BucklingSolver.insert_by l) [] s).
Proof.
  intros Htot. induction 1 as [|i t Hi Ht IH]; cbn; [constructor|].
  apply insert_by_sorted; [|exact IH].
  intros j Hj. apply Htot; [assumption|].
  apply (Permutation_in _ (fold_insert_by_perm l t)) in Hj.
  rewrite Forall_forall in Ht. now apply Ht.
Qed.

Lemma argsort_sorted (l : np.vector F) :
  total_on l -> Sorted (le_at l) (BucklingSolver.argsort l).
Proof.
  intros Htot. apply fold_insert_by_sorted; [assumption|].
  apply Forall_forall. intros i Hi. apply in_seq in Hi. lia.
Qed.

Lemma sorted_values (l : np.vector F) (idx : list nat) :
  Sorted (le_at l) idx ->
  Sorted (fun a b => fleb a b = true) (map (np.get l) idx).
Proof.
  induction 1 as [|i t Hs IH Hhd]; cbn; constructor; [assumption|].
  destruct Hhd; cbn; now constructor.
Qed.

(** The real part of the eigenvalue at a position, and the positions of
    the eigenvalues that pass the filter. *)
Definition value (vals : list (complex F)) (i : nat) : F :=
  real (nth i vals (of_Z 0, of_Z 0)).

Definition valid_positions (vals : list (complex F)) : list nat :=
  filter (fun i => BucklingSolver.valid (nth i vals (of_Z 0, of_Z 0)))
         (seq 0 (List.length vals)).

Lemma enumerate_filter (P : complex F -> bool) (vals : list (complex F)) :
  forall s,
  map fst (filter (fun iv => P (snd iv)) (combine (seq s (List.length vals)) vals)) =
  filter (fun i => P (nth (i - s) vals (of_Z 0, of_Z 0))) (seq s (List.length vals)).
Proof.
  induction vals as [|v t IH]; intros s; cbn [List.length seq combine filter map];
    [reflexivity|].
  rewrite Nat.sub_diag.
  change (nth 0 (v :: t) (of_Z 0, of_Z 0)) with v. cbn [snd].
  assert (Hext : filter (fun i => P (nth (i - s) (v :: t) (of_Z 0, of_Z 0)))
                        (seq (S s) (List.length t)) =
                 filter (fun i => P (nth (i - S s) t (of_Z 0, of_Z 0)))
                        (seq (S s) (List.length t))).
  { apply filter_ext_in. intros i Hi. apply in_seq in Hi.
    replace (i - s) with (S (i - S s)) by lia. reflexivity. }
  destruct (P v); cbn [map fst]; rewrite IH, Hext; reflexivity.
Qed.

Lemma valid_indices_positions (vals : list (complex F)) :
  map fst (filter (fun iv => BucklingSolver.valid (snd iv)) (py.enumerate vals)) =
  valid_positions vals.
Proof.
  unfold py.enumerate, valid_positions. rewrite enumerate_filter.
  apply filter_ext. intros i. now rewrite Nat.sub_0_r.
Qed.

Lemma map_nth_seq (l : list nat) :
  map (fun k => nth k l 0) (seq 0 (List.length l)) = l.
Proof.
  induction l as [|h t IH]; cbn [List.length seq map]; [reflexivity|].
  f_equal. rewrite <- seq_shift, map_map. exact IH.
Qed.

Lemma slice_to_firstn {X : Type} (l : list X) (n : Z) :
  (1 <= n)%Z -> py.slice_to l n = firstn (Z.to_nat n) l.
Proof.
  intros H. unfold py.slice_to. destruct (Z.ltb_spec n 0); [lia | reflexivity].
Qed.

Lemma match_nonempty {X Y : Type} (l : list X) (a b : Y) :
  l <> [] -> match l with [] => a | _ :: _ => b end = b.
Proof. destruct l; [contradiction | reflexivity]. Qed.

Lemma nth_map_in {X Y : Type} (f : X -> Y) (l : list X) (k : nat) (d : X) (d' : Y) :
  k < List.length l -> nth k (map f l) d' = f (nth k l d).
Proof.
  intros H. rewrite (nth_indep _ d' (f d)) by (now rewrite length_map).
  apply map_nth.
Qed.

(** The outcome of [select_modes]: the valid positions are put in
    ascending order of their eigenvalue and the first [num_modes] of
    them are kept, with the corresponding columns. *)
Lemma select_modes_spec (vals : list (complex F)) (vecs : list (list (complex F)))
    (num_modes : Z) :
  (1 <= num_modes)%Z ->
  total_on (map (value vals) (valid_positions vals)) ->
  exists order : list nat,
    Permutation order (valid_positions vals) /\
    Sorted (fun a b => fleb a b = true) (map (value vals) order) /\
    BucklingSolver.select_modes vals vecs num_modes =
      (map (value vals) (firstn (Z.to_nat num_modes) order),
       match order with
       | [] => []
       | _ => BucklingSolver.columns (of_Z 0, of_Z 0) vecs
                (firstn (Z.to_nat num_modes) order)
       end).
Proof.
  intros Hn Htot.
  set (vi := valid_positions vals) in *.
  set (valid_vals := map (value vals) vi) in *.
  set (idx := BucklingSolver.argsort valid_vals).
  assert (Hperm : Permutation idx (seq 0 (List.length vi))).
  { unfold idx. rewrite argsort_perm. unfold valid_vals. now rewrite length_map. }
  assert (Hidx : forall k, In k idx -> k < List.length vi).
  { intros k Hk. apply (Permutation_in _ Hperm) in Hk. apply in_seq in Hk. lia. }
  assert (Hget : forall l, (forall k, In k l -> In k idx) ->
            map (np.get valid_vals) l = map (value vals) (map (fun k => nth k vi 0) l)).
  { intros l Hl. rewrite map_map. apply map_ext_in. intros k Hk.
    unfold np.get, valid_vals. apply nth_map_in. auto. }
  exists (map (fun k => nth k vi 0) idx). split; [|split].
  - etransitivity; [apply Permutation_map, Hperm|].
    now rewrite map_nth_seq.
  - rewrite <- Hget by auto. apply sorted_values, argsort_sorted, Htot.
  - unfold BucklingSolver.select_modes.
    rewrite valid_indices_positions. fold vi.
    destruct (Nat.eq_dec (List.length vi) 0) as [H0 | Hpos].
    + apply length_zero_iff_nil in H0.
      assert (Hi0 : idx = []).
      { apply Permutation_nil. rewrite Hperm, H0. reflexivity. }
      rewrite Hi0, H0. cbn [map]. now rewrite firstn_nil.
    + rewrite (match_nonempty vi) by (intros H0; apply Hpos; now rewrite H0).
      rewrite (match_nonempty (map (fun k => nth k vi 0) idx)).
      2:{ intros H0. apply map_eq_nil in H0. rewrite H0 in Hperm.
          apply Permutation_nil in Hperm. apply Hpos.
          apply (f_equal (@List.length nat)) in Hperm.
          rewrite length_seq in Hperm. now symmetry. }
      fold (value vals). fold valid_vals. fold idx.
      f_equal.
      * rewrite slice_to_firstn by assumption. unfold np.take.
        rewrite <- firstn_map, <- Hget by auto. reflexivity.
      * unfold BucklingSolver.columns. rewrite !map_map. apply map_ext. intros row.
        rewrite slice_to_firstn by assumption.
        rewrite <- !firstn_map, map_map. f_equal.
        apply map_ext_in. intros k Hk.
        apply (nth_map_in (fun i => nth i row (of_Z 0, of_Z 0))). auto.
Qed.

End ModeSelection.

Section BucklingClaim.
Variable linalg_solve : np.matrix float -> np.vector float -> result (np.vector float).
Variable eig : np.matrix float -> np.matrix float ->
               result (list (complex float) * list (list (complex float))).

Lemma valid_position_valid (vals : list (complex float)) (i : nat) :
  In i (valid_positions vals) ->
  PrimFloat.eqb (imag (nth i vals (0, 0)%float)) 0 = true /\
  PrimFloat.ltb (py.dec 1 6) (value vals i) = true /\
  PrimFloat.is_finite (value vals i) = true.
Proof.
  unfold valid_positions. rewrite filter_In. intros [_ Hv].
  unfold BucklingSolver.valid, BucklingSolver.isreal, BucklingSolver.isfinite in Hv.
  apply andb_prop in Hv. destruct Hv as [Hv Hfin].
  apply andb_prop in Hv. destruct Hv as [Hre Hpos].
  apply andb_prop in Hfin. destruct Hfin as [Hfin _].
  auto.
Qed.

Lemma valid_values_total (vals : list (complex float)) :
  total_on (map (value vals) (valid_positions vals)).
Proof.
  intros i j Hi Hj. rewrite length_map in Hi, Hj. unfold np.get.
  rewrite !(nth_map_in (value vals) _ _ 0%nat) by assumption.
  apply leb_total.
  - eapply ltb_comparable, valid_position_valid, nth_In, Hi.
  - eapply ltb_comparable, valid_position_valid, nth_In, Hj.
Qed.

End BucklingClaim.

(** ** The buckling modes that are returned *)

Section BucklingModes.
Variable linalg_solve : np.matrix float -> np.vector float -> result (np.vector float).
Variable eig : np.matrix float -> np.matrix float ->
               result (list (complex float) * list (list (complex float))).
Local Open Scope float_scope.

(** What is asked of an eigenvalue that is kept: an imaginary part
    equal to zero, finite, and a real part above 1e-6. *)
Definition passes_filter (v : complex float) : bool :=
  (imag v =? 0) &&
  (PrimFloat.is_finite (real v) && PrimFloat.is_finite (imag v)) &&
  (py.dec 1 6 <? real v).

(** Column [j] of a matrix given by its rows: eigenvector [j] of
    [scipy.linalg.eig]. *)
Definition column {X : Type} (d : X) (m : list (list X)) (j : nat) : list X :=
  map (fun row => nth j row d) m.

Lemma valid_passes_filter (v : complex float) :
  BucklingSolver.valid v = passes_filter v.
Proof.
  unfold BucklingSolver.valid, BucklingSolver.isreal, BucklingSolver.isfinite,
    passes_filter.
  cbn [feqb fltb fisfinite float_scalar].
  change (@of_Z float float_scalar 0) with 0.
  destruct (imag v =? 0), (PrimFloat.is_finite (real v)),
    (PrimFloat.is_finite (imag v)), (py.dec 1 6 <? real v); reflexivity.
Qed.

Lemma valid_positions_in (vals : list (complex float)) (i : nat) :
  In i (valid_positions vals) <->
  (i < List.length vals)%nat /\ passes_filter (nth i vals (0, 0)) = true.
Proof.
  unfold valid_positions. rewrite filter_In, in_seq, valid_passes_filter.
  change (@of_Z float float_scalar 0) with 0. intuition lia.
Qed.

Lemma valid_positions_nodup (vals : list (complex float)) :
  NoDup (valid_positions vals).
Proof. apply NoDup_filter, seq_NoDup. Qed.

Lemma columns_column {X : Type} (d : X) (m : list (list X)) (idx : list nat) :
  List.length (BucklingSolver.columns d m idx) = List.length m /\
  Forall (fun row => List.length row = List.length idx)
         (BucklingSolver.columns d m idx) /\
  forall k, (k < List.length idx)%nat ->
    column d (BucklingSolver.columns d m idx) k = column d m (nth k idx 0%nat).
Proof.
  unfold BucklingSolver.columns, column. split; [apply length_map|]. split.
  - apply Forall_forall. intros row Hin. apply in_map_iff in Hin.
    destruct Hin as (r & <- & _). apply length_map.
  - intros k Hk. rewrite map_map. apply map_ext. intros row.
    now rewrite (nth_map_in (fun i => nth i row d) idx k 0%nat d).
Qed.

(** C1 (amended): when the static steps and [scipy.linalg.eig] have
    returned, [solve] returns, with the free DOFs, exactly the
    eigenvalues of the pencil [(K_ff, -Kg_ff)] whose imaginary part is
    equal to zero, that are finite and whose real part exceeds 1e-6, in
    ascending order and cut to the first [num_modes]; column [k] of the
    returned matrix is the eigenvector of the [k]-th returned
    eigenvalue; with no such eigenvalue both results are empty and
    nothing is raised. *)
Theorem buckling_modes_selected
    (st st' : state float) (K_ff Kg_ff : np.matrix float) (free : list nat)
    (vals : list (complex float)) (vecs : list (list (complex float)))
    (num_modes : Z) :
  (1 <= num_modes)%Z ->
  BucklingSolver.stability_matrices linalg_solve st = Ok ((K_ff, Kg_ff, free), st') ->
  eig K_ff (np.mneg Kg_ff) = Ok (vals, vecs) ->
  exists (order : list nat) (modes : list (list (complex float))),
    NoDup order /\
    (forall i, In i order <->
       (i < List.length vals)%nat /\ passes_filter (nth i vals (0, 0)) = true) /\
    Sorted (fun a b => (a <=? b) = true) (map (value vals) order) /\
    let kept := firstn (Z.to_nat num_modes) order in
    BucklingSolver.solve linalg_solve eig num_modes st =
      Ok ((map (value vals) kept, modes, free), st') /\
    (order = [] -> modes = []) /\
    (order <> [] ->
       List.length modes = List.length vecs /\
       Forall (fun row => List.length row = List.length kept) modes /\
       forall k, (k < List.length kept)%nat ->
         column (0, 0) modes k = column (0, 0) vecs (nth k kept 0%nat)).
Proof.
  intros Hn Hmats Heig.
  destruct (select_modes_spec vals vecs num_modes Hn (valid_values_total vals))
    as (order & Hperm & Hsorted & Hsel).
  exists order.
  exists (match order with
          | [] => []
          | _ => BucklingSolver.columns (0, 0) vecs (firstn (Z.to_nat num_modes) order)
          end).
  split.
  { eapply Permutation_NoDup; [symmetry; exact Hperm | apply valid_positions_nodup]. }
  split.
  { intros i. rewrite <- valid_positions_in. split; apply Permutation_in; auto.
    now symmetry. }
  split; [exact Hsorted|].
  cbv zeta. split; [|split].
  - unfold BucklingSolver.solve.
    unfold mbind at 1. rewrite Hmats. cbn [fst snd].
    unfold mbind at 1, lift at 1. rewrite Heig. cbn [fst snd].
    rewrite Hsel. reflexivity.
  - intros ->. reflexivity.
  - intros Hne. rewrite (match_nonempty order) by exact Hne.
    apply columns_column.
Qed.

End BucklingModes.


(** ** Concrete models (binary64) *)

Definition ex_node (r : nat) (i : Z) (a b c : float) : Node float :=
  {| ref := r; id := i; x := a; y := b; z := c |}.

Definition ex_material : Material float :=
  {| E := 100000%float; G := 40000%float; nu := 0.25%float; rho := 0%float |}.

Definition ex_section : CrossSection float :=
  {| A := 1%float; Iy := 1%float; Iz := 1%float; J := 1%float; Cw := 1%float |}.

Definition ex_n1 : Node float := ex_node 0 1 0 0 0.
Definition ex_n2 : Node float := ex_node 1 2 1 0 0.

Definition ex_beam : Beam3D float :=
  {| node1 := ex_n1; node2 := ex_n2; material := ex_material; section := ex_section |}.

Definition init_state : state float :=
  {| model := Model.__init__; heap := empty_store |}.

(** The model of the repository's solver tests: two nodes on the x
    axis and one element. *)
Definition ex_state : state float :=
  {| model := {| nodes := [(1%Z, ex_n1); (2%Z, ex_n2)];
                 elements := [ex_beam];
                 constraints := [];
                 loads := [];
                 _dof_map_generated := false;
                 total_dofs := 0 |};
     heap := empty_store |}.

Example ex_state_built :
  (Model.add_node ex_n1 ;;; Model.add_node ex_n2 ;;; Model.add_element ex_beam)%M
    init_state = Ok (tt, ex_state).
Proof. reflexivity. Qed.

(** The literals of the program as binary64 numbers. *)
Example tolerance_literals :
  (py.dec 1 6 : float) = 0x1.0c6f7a0b5ed8dp-20%float /\
  (py.dec 1 8 : float) = 0x1.5798ee2308c3ap-27%float /\
  (py.dec 1 5 : float) = 0x1.4f8b588e368f1p-17%float /\
  (py.dec 1 9 : float) = 0x1.12e0be826d695p-30%float.
Proof. repeat split; vm_compute; reflexivity. Qed.

(** The element of the repository's tests (along x) has the identity as
    transformation on binary64 too, and the one along y an orthogonal
    transformation. *)
Example transformation_test_element :
  Beam3D.transformation_matrix ex_beam = np.eye 14.
Proof. vm_compute. reflexivity. Qed.

Definition ex_beam_y : Beam3D float :=
  {| node1 := ex_node 0 1 0 0 0; node2 := ex_node 1 2 0 1 0;
     material := ex_material; section := ex_section |}.

Example transformation_test_rotation :
  np.matmul (Beam3D.transformation_matrix ex_beam_y)
            (np.transpose (Beam3D.transformation_matrix ex_beam_y)) = np.eye 14.
Proof. vm_compute. reflexivity. Qed.

Example stiffness_test_symmetry :
  np.transpose (Beam3D.local_stiffness_matrix ex_beam) =
  Beam3D.local_stiffness_matrix ex_beam.
Proof. vm_compute. reflexivity. Qed.

Ltac solve_nodup :=
  repeat constructor; cbn; intuition (try discriminate; try lia).

Lemma ex_state_wf : model_wf ex_state.
Proof.
  split; [split; solve_nodup|]. split.
  - cbn. discriminate.
  - cbn. intros nid [].
Qed.

(** Three nodes inserted in the order 5, 2, 9. *)
Definition dof_example : state float :=
  {| model := {| nodes := [(5%Z, ex_node 0 5 0 0 0); (2%Z, ex_node 1 2 1 0 0);
                           (9%Z, ex_node 2 9 2 0 0)];
                 elements := [];
                 constraints := [];
                 loads := [];
                 _dof_map_generated := false;
                 total_dofs := 0 |};
     heap := empty_store |}.

Lemma dof_map_by_ascending_id_witness :
  nodes_wf (nodes (model dof_example)) /\
  exists st',
    Model._generate_dof_map dof_example = Ok (tt, st') /\
    total_dofs (model st') = 21 /\
    dof_indices (heap st') (ex_node 1 2 1 0 0) = [0; 1; 2; 3; 4; 5; 6] /\
    dof_indices (heap st') (ex_node 0 5 0 0 0) = [7; 8; 9; 10; 11; 12; 13] /\
    dof_indices (heap st') (ex_node 2 9 2 0 0) = [14; 15; 16; 17; 18; 19; 20].
Proof.
  assert (Hwf : nodes_wf (nodes (model dof_example))) by (split; solve_nodup).
  split; [exact Hwf|].
  destruct (dof_map_by_ascending_id dof_example Hwf) as (st' & Hrun & Htot & _ & Hblock & _).
  exists st'. split; [exact Hrun|]. split; [exact Htot|].
  split; [|split].
  - apply (Hblock 2%Z). cbn. auto.
  - apply (Hblock 5%Z). cbn. auto.
  - apply (Hblock 9%Z). cbn. auto.
Defined.

Lemma add_constraint_unchecked_witness :
  model_wf ex_state /\ dict.mem (nodes (model ex_state)) 2 = true /\
  exists st',
    Model.add_constraint 2 (-1) ex_state = Ok (tt, st') /\
    exists cons st'',
      Model.get_constrained_dofs st' = Ok (cons, st'') /\ In 13 cons.
Proof.
  split; [exact ex_state_wf|]. split; [reflexivity|].
  destruct (add_constraint_unchecked ex_state 2 (-1) ex_state_wf eq_refl)
    as (st' & Hrun & _ & _ & Hin).
  exists st'. split; [exact Hrun|].
  exact (Hin eq_refl eq_refl).
Defined.

(** An index below -7 is accepted by [add_constraint] and makes
    [get_constrained_dofs] raise: a negative index can fail. *)
Lemma negative_index_can_fail :
  (exists st',
     Model.add_constraint 2 (-8) ex_state = Ok (tt, st') /\
     Model.get_constrained_dofs st' = Raise IndexError) /\
  ~ (forall d st', (d < 0)%Z ->
       Model.add_constraint 2 d ex_state = Ok (tt, st') ->
       is_ok (Model.get_constrained_dofs st') = true).
Proof.
  split.
  - eexists. split; [vm_compute; reflexivity|]. vm_compute. reflexivity.
  - intros H.
    assert (Hf : is_ok (Model.get_constrained_dofs
                   {| model := {| nodes := nodes (model ex_state);
                                  elements := elements (model ex_state);
                                  constraints := [(2%Z, [(-8)%Z])];
                                  loads := [];
                                  _dof_map_generated := false;
                                  total_dofs := 0 |};
                      heap := heap ex_state |}) = true).
    { apply (H (-8)%Z); [lia | reflexivity]. }
    vm_compute in Hf. discriminate Hf.
Qed.

(** A beam between two nodes at the same point. *)
Definition degenerate_beam : Beam3D float :=
  {| node1 := ex_node 0 1 1 2 3; node2 := ex_node 1 2 1 2 3;
     material := ex_material; section := ex_section |}.

Definition degenerate_state : state float :=
  {| model := {| nodes := [(1%Z, ex_node 0 1 1 2 3); (2%Z, ex_node 1 2 1 2 3)];
                 elements := [degenerate_beam];
                 constraints := [];
                 loads := [];
                 _dof_map_generated := false;
                 total_dofs := 0 |};
     heap := empty_store |}.


(** The zero-length beam is built and all its matrices are returned
    (holding inf and nan); assembling a model that contains it raises
    nothing either. *)
Lemma degenerate_element_accepted :
  coords (node1 degenerate_beam) = coords (node2 degenerate_beam) /\
  Beam3D.length degenerate_beam = 0%float /\
  np.mget (Beam3D.local_stiffness_matrix degenerate_beam) 0 0 = infinity /\
  np.mget (Beam3D.local_stiffness_matrix degenerate_beam) 1 5 = nan /\
  np.mget (Beam3D.transformation_matrix degenerate_beam) 0 0 = nan /\
  np.mget (Beam3D.global_stiffness_matrix degenerate_beam) 0 0 = nan /\
  (Model.add_node (ex_node 0 1 1 2 3) ;;; Model.add_node (ex_node 1 2 1 2 3) ;;;
   Model.add_element degenerate_beam)%M init_state = Ok (tt, degenerate_state) /\
  is_ok (Model.assemble_stiffness degenerate_state) = true.
Proof.
  repeat split; vm_compute; reflexivity.
Qed.

(** The model of [test_static_axial]: node 1 fixed, node 2 free only
    along the axis, an axial load of 100 at node 2. *)
Definition ex_loaded : state float :=
  {| model := {| nodes := [(1%Z, ex_n1); (2%Z, ex_n2)];
                 elements := [ex_beam];
                 constraints := [(1%Z, [0; 1; 2; 3; 4; 5; 6]%Z);
                                 (2%Z, [1; 2; 3; 4; 5; 6]%Z)];
                 loads := [(2%Z, [100; 0; 0; 0; 0; 0; 0]%float)];
                 _dof_map_generated := false;
                 total_dofs := 0 |};
     heap := empty_store |}.

Definition ex_mapped : state float :=
  match Model._generate_dof_map ex_loaded with
  | Ok (_, s) => s
  | Raise _ => ex_loaded
  end.

(** The loaded model, once its DOF map is generated, is ready for
    assembly. *)
Example ex_mapped_ready : model_ready ex_mapped.
Proof.
  split; [split; cbn; solve_nodup|].
  split.
  { unfold dof_map_of. repeat split; try reflexivity.
    intros nid node [H | [H | []]]; injection H as <- <-; reflexivity. }
  split.
  { intros el [<- | []]. split; [exists 1%Z; now left | exists 2%Z; right; now left]. }
  intros nid load [H | []]. injection H as <- <-. split; [right; now left | reflexivity].
Qed.

Definition ex_K : np.matrix float :=
  match Model.assemble_stiffness ex_mapped with
  | Ok (K, _) => K
  | Raise _ => []
  end.

Definition ex_F : np.vector float :=
  match Model.get_load_vector ex_mapped with
  | Ok (v, _) => v
  | Raise _ => []
  end.

Definition ex_cons : list nat := [0; 1; 2; 3; 4; 5; 6; 8; 9; 10; 11; 12; 13].

(** Division for systems of one equation, standing for LAPACK there. *)
Definition solve_1x1_float (a : np.matrix float) (b : np.vector float)
  : result (np.vector float) :=
  match a, b with
  | [[a0]], [b0] =>
      if PrimFloat.eqb a0 0 then Raise LinAlgError else Ok [(b0 / a0)%float]
  | _, _ => Raise LinAlgError
  end.




Lemma ex_constrained : Model.get_constrained_dofs ex_mapped = Ok (ex_cons, ex_mapped).
Proof. vm_compute. reflexivity. Qed.

Lemma ex_K_free : np.ix_get ex_K [7] [7] = [[100000%float]].
Proof. vm_compute. reflexivity. Qed.

Lemma ex_F_free : np.take ex_F [7] = [100%float].
Proof. vm_compute. reflexivity. Qed.

Lemma ex_free :
  npi.setdiff1d (npi.arange (7 * List.length (nodes (model ex_loaded)))) ex_cons = [7].
Proof. reflexivity. Qed.

Example static_axial_displacement :
  StaticSolver.solve solve_1x1_float ex_loaded =
  Ok ([0; 0; 0; 0; 0; 0; 0; 100 / 100000; 0; 0; 0; 0; 0; 0]%float, ex_mapped).
Proof. vm_compute. reflexivity. Qed.

(** A stand-in for [scipy.linalg.eig] that returns a fixed spectrum:
    3, -1, 2 + 1e-300 i, inf, nan, 1.5, 0.5 and 1e-7. *)
Definition fixed_eig (a b : np.matrix float)
  : result (list (complex float) * list (list (complex float))) :=
  Ok ([(3, 0); (-1, 0); (2, 1 / 0x1p1000); (infinity, 0); (nan, 0);
       (1.5, 0); (0.5, 0); (1 / 10000000, 0)]%float,
      [[(1, 0); (2, 0); (3, 0); (4, 0); (5, 0); (6, 0); (7, 0); (8, 0)]%float]).

Lemma ex_stability :
  BucklingSolver.stability_matrices solve_1x1_float ex_loaded =
  Ok (([[100000%float]], [[0%float]], [7]), ex_mapped).
Proof. vm_compute. reflexivity. Qed.

Definition fixed_vals : list (complex float) :=
  match fixed_eig [] [] with Ok (vals, _) => vals | Raise _ => [] end.

Definition fixed_vecs : list (list (complex float)) :=
  match fixed_eig [] [] with Ok (_, vecs) => vecs | Raise _ => [] end.


(** Of the eight eigenvalues only 3, 1.5 and 0.5 pass the filter; the
    two smallest are returned with their eigenvectors. *)
Example buckling_two_modes :
  BucklingSolver.solve solve_1x1_float fixed_eig 2 ex_loaded =
  Ok (([0.5; 1.5]%float, [[(7, 0); (6, 0)]%float], [7]), ex_mapped).
Proof. vm_compute. reflexivity. Qed.

(** A spectrum without any positive real finite eigenvalue gives empty
    results and no error. *)
Definition barren_eig (a b : np.matrix float)
  : result (list (complex float) * list (list (complex float))) :=
  Ok ([(-1, 0); (nan, 0); (2, 1)]%float, [[(1, 0); (2, 0); (3, 0)]%float]).

Example buckling_no_modes :
  BucklingSolver.solve solve_1x1_float barren_eig 1 ex_loaded =
  Ok (([], [], [7]), ex_mapped).
Proof. vm_compute. reflexivity. Qed.

(** * Further properties *)

(** ** The geometric stiffness matrix of an element *)

Section GeometricStiffness.
Context {F : Type} {SF : Scalar F}.
Local Open Scope scalar_scope.

(** X1: [geometric_stiffness_matrix] raises [ZeroDivisionError] exactly
    when the area of the section compares equal to zero (the radius of
    gyration is a quotient of Python floats); otherwise it returns a
    14x14 matrix that is symmetric, for every element and axial force. *)
Theorem geometric_stiffness_cases (b : Beam3D F) (P : F) :
  match Beam3D.geometric_stiffness_matrix b P with
  | Ok kg =>
      (A (section b) =? #0) = false /\
      np.shape_is 14 14 kg /\
      forall i j : nat, np.mget kg i j = np.mget kg j i
  | Raise e =>
      e = ZeroDivisionError /\ (A (section b) =? #0) = true
  end.
Proof.
  unfold Beam3D.geometric_stiffness_matrix, py.truediv.
  destruct (A (section b) =? #0); cbn [bind]; [split; reflexivity|].
  split; [reflexivity|].
  generalize (Beam3D.length b); intro L.
  generalize ((Iy (section b) + Iz (section b)) / A (section b)); intro r0.
  match goal with |- np.shape_is 14 14 ?k /\ _ => set (kg := k) end.
  assert (Hs : np.shape_is 14 14 kg).
  { cbv. split; [reflexivity | repeat constructor]. }
  assert (Ht : np.transpose kg = kg) by (cbv; reflexivity).
  split; [exact Hs|]. intros i j.
  rewrite <- Ht at 1. now apply mget_transpose with (r := 14) (c := 14).
Qed.

End GeometricStiffness.

(** ** Shapes and entries of matrix products *)

Section MatrixShapes.
Context {F : Type} {SF : Scalar F}.

Lemma dims_shape (r c : nat) (m : np.matrix F) : dims r c m <-> np.shape_is r c m.
Proof.
  unfold dims, np.shape_is. split; intros [Hr Hc]; (split; [exact Hr|]).
  - apply Forall_forall. intros row Hin.
    destruct (In_nth _ _ [] Hin) as (k & Hk & <-). apply Hc. lia.
  - intros k Hk. rewrite Forall_forall in Hc. apply Hc, nth_In. lia.
Qed.

Lemma dims_block_diag (n : nat) (a b : np.matrix F) :
  0 < n -> dims n n a -> dims n n b -> dims (n + n) (n + n) (np.block_diag a b).
Proof.
  intros Hn Ha Hb.
  pose proof (dims_ncols _ _ _ Ha Hn) as Hca.
  pose proof (dims_ncols _ _ _ Hb Hn) as Hcb.
  apply dims_shape. apply dims_shape in Ha, Hb.
  destruct Ha as [Hra Hfa], Hb as [Hrb Hfb].
  unfold np.block_diag. split.
  - now rewrite length_app, !length_map, Hra, Hrb.
  - apply Forall_app. split; apply Forall_map.
    + eapply Forall_impl; [|exact Hfa]. cbn. intros row Hrow.
      now rewrite length_app, length_zeros, Hrow, Hcb.
    + eapply Forall_impl; [|exact Hfb]. cbn. intros row Hrow.
      now rewrite length_app, length_zeros, Hrow, Hca.
Qed.

Lemma transformation_dims (b : Beam3D F) :
  dims 14 14 (Beam3D.transformation_matrix b).
Proof.
  unfold Beam3D.transformation_matrix.
  apply (dims_block_diag 7); [lia | |];
    unfold np.set_block; do 2 apply dims_ix_set; apply dims_eye.
Qed.

(** Two matrices of one shape with the same entries are equal. *)
Lemma matrix_ext (r c : nat) (m m' : np.matrix F) :
  dims r c m -> dims r c m' ->
  (forall i j, i < r -> j < c -> np.mget m i j = np.mget m' i j) ->
  m = m'.
Proof.
  intros [Hr Hc] [Hr' Hc'] H.
  apply (nth_ext _ _ [] []); [congruence|].
  intros i Hi. rewrite Hr in Hi.
  apply (nth_ext _ _ (of_Z 0) (of_Z 0)); [rewrite Hc, Hc'; auto|].
  intros j Hj. rewrite Hc in Hj by assumption. now apply H.
Qed.

Lemma nth_matmul (a b : np.matrix F) (i : nat) :
  i < List.length a ->
  nth i (np.matmul a b) [] =
  map (fun col => np.dot (nth i a []) col) (np.transpose b).
Proof. intros Hi. unfold np.matmul. now rewrite (nth_map_in _ _ _ []). Qed.

Lemma nth_transpose (m : np.matrix F) (j : nat) :
  j < np.ncols m ->
  nth j (np.transpose m) [] = map (fun row => np.get row j) m.
Proof.
  intros Hj. unfold np.transpose.
  rewrite (nth_map_in _ _ _ O) by (now rewrite length_seq).
  now rewrite seq_nth.
Qed.

Lemma dims_matmul (p q r : nat) (a b : np.matrix F) :
  dims p q a -> dims q r b -> 0 < q -> dims p r (np.matmul a b).
Proof.
  intros [Hra Hca] Hb Hq.
  pose proof (dims_ncols _ _ _ Hb Hq) as Hnc.
  split; [now rewrite length_matmul|].
  intros k Hk. rewrite nth_matmul by lia.
  now rewrite length_map, length_transpose.
Qed.

Lemma dims_transpose (r c : nat) (m : np.matrix F) :
  dims r c m -> 0 < r -> dims c r (np.transpose m).
Proof.
  intros Hm Hr. pose proof (dims_ncols _ _ _ Hm Hr) as Hnc.
  split; [now rewrite length_transpose|].
  intros k Hk. rewrite nth_transpose by lia.
  rewrite length_map. apply Hm.
Qed.

Lemma mget_overflow_row (m : np.matrix F) (i j : nat) :
  List.length m <= i -> np.mget m i j = of_Z 0.
Proof. intros H. unfold np.mget. rewrite (nth_overflow m) by exact H. now destruct j. Qed.

Lemma mget_overflow_col (r c : nat) (m : np.matrix F) (i j : nat) :
  dims r c m -> c <= j -> np.mget m i j = of_Z 0.
Proof.
  intros [Hr Hc] Hj. destruct (Nat.lt_ge_cases i r) as [Hi | Hi].
  - unfold np.mget. apply nth_overflow. rewrite Hc by exact Hi. exact Hj.
  - apply mget_overflow_row. lia.
Qed.

Lemma mget_eye (n i j : nat) :
  i < n -> j < n ->
  np.mget (np.eye n : np.matrix F) i j = if Nat.eqb i j then of_Z 1 else of_Z 0.
Proof.
  intros Hi Hj. unfold np.mget, np.eye.
  rewrite (nth_map_in _ _ _ O) by (now rewrite length_seq).
  rewrite (nth_map_in _ _ _ O) by (now rewrite length_seq).
  now rewrite !seq_nth.
Qed.

End MatrixShapes.

(** ** Entries of a matrix after an indexed update *)

Section IndexedUpdate.
Context {F : Type} {SF : Scalar F}.

Lemma mget_mset_eq (r c : nat) (m : np.matrix F) (i j : nat) (a : F) :
  dims r c m -> i < r -> j < c -> np.mget (np.mset m i j a) i j = a.
Proof.
  intros [Hr Hc] Hi Hj. unfold np.mget, np.mset.
  rewrite nth_setitem_eq by lia. apply nth_setitem_eq. rewrite Hc; auto.
Qed.

Lemma mget_mset_ne (m : np.matrix F) (i j i' j' : nat) (a : F) :
  i <> i' \/ j <> j' -> np.mget (np.mset m i j a) i' j' = np.mget m i' j'.
Proof.
  intros H. unfold np.mget, np.mset.
  destruct (Nat.eq_dec i i') as [<- | Hne].
  - destruct H as [H | H]; [congruence|].
    destruct (Nat.lt_ge_cases i (List.length m)) as [Hi | Hi].
    + rewrite nth_setitem_eq by assumption. now apply nth_setitem_ne.
    + rewrite (nth_overflow (py.setitem _ _ _)) by (rewrite length_setitem; lia).
      now rewrite (nth_overflow m) by lia.
  - now rewrite nth_setitem_ne.
Qed.

(** One row of [m[ix_(rows, cols)] = v]: the columns [cols] of row [i]
    receive the values [w s], [w (s+1)], ... *)
Definition set_row (i : nat) (w : nat -> F) (s : nat) (cols : list nat)
    (m : np.matrix F) : np.matrix F :=
  fold_left (fun m2 bj => np.mset m2 i (snd bj) (w (fst bj)))
            (combine (seq s (List.length cols)) cols) m.

Lemma set_row_dims (r c i : nat) (w : nat -> F) (cols : list nat) :
  forall s m, dims r c m -> dims r c (set_row i w s cols m).
Proof.
  unfold set_row. induction cols as [|j cols IH]; intros s m Hm;
    cbn [List.length seq combine fold_left]; [exact Hm|].
  apply IH. now apply dims_mset.
Qed.

Lemma set_row_other (i : nat) (w : nat -> F) (cols : list nat) (i' j' : nat) :
  i <> i' \/ ~ In j' cols ->
  forall s m, np.mget (set_row i w s cols m) i' j' = np.mget m i' j'.
Proof.
  unfold set_row. induction cols as [|j cols IH]; intros H s m;
    cbn [List.length seq combine fold_left]; [reflexivity|].
  rewrite IH by (cbn [In] in H; tauto).
  cbn [fst snd]. apply mget_mset_ne. cbn [In] in H.
  destruct H as [H | H]; [now left | right; intros ->; tauto].
Qed.

Lemma set_row_at (r c i : nat) (w : nat -> F) (cols : list nat) :
  i < r -> NoDup cols -> np.in_range c cols = true ->
  forall s m b, dims r c m -> b < List.length cols ->
  np.mget (set_row i w s cols m) i (nth b cols 0) = w (s + b).
Proof.
  intros Hi. induction cols as [|j cols IH]; intros Hnd Hin s m b Hm Hb;
    [cbn in Hb; lia|].
  inversion Hnd as [|? ? Hnotin Hnd']; subst.
  cbn [np.in_range forallb] in Hin. apply andb_prop in Hin as [Hj Hin].
  apply Nat.ltb_lt in Hj.
  unfold set_row. cbn [List.length seq combine fold_left fst snd].
  fold (set_row i w (S s) cols (np.mset m i j (w s))).
  destruct b as [|b]; cbn [nth].
  - rewrite set_row_other by now right.
    rewrite (mget_mset_eq r c) by assumption. f_equal. lia.
  - rewrite IH; try assumption.
    + f_equal. lia.
    + now apply dims_mset.
    + cbn in Hb. lia.
Qed.

(** The rows of [m[ix_(rows, cols)] = v], from row number [s] of [v]. *)
Definition set_rows (v : np.matrix F) (cols : list nat) (s : nat) (rows : list nat)
    (m : np.matrix F) : np.matrix F :=
  fold_left (fun m1 ai => set_row (snd ai) (np.mget v (fst ai)) 0 cols m1)
            (combine (seq s (List.length rows)) rows) m.

Lemma ix_set_rows (m : np.matrix F) (rows cols : list nat) (v : np.matrix F) :
  np.ix_set m rows cols v = set_rows v cols 0 rows m.
Proof. reflexivity. Qed.

Lemma set_rows_dims (r c : nat) (v : np.matrix F) (cols rows : list nat) :
  forall s m, dims r c m -> dims r c (set_rows v cols s rows m).
Proof.
  unfold set_rows. induction rows as [|i rows IH]; intros s m Hm;
    cbn [List.length seq combine fold_left]; [exact Hm|].
  apply IH. now apply set_row_dims.
Qed.

Lemma set_rows_other (v : np.matrix F) (cols rows : list nat) (i' j' : nat) :
  ~ In i' rows \/ ~ In j' cols ->
  forall s m, np.mget (set_rows v cols s rows m) i' j' = np.mget m i' j'.
Proof.
  unfold set_rows. induction rows as [|i rows IH]; intros H s m;
    cbn [List.length seq combine fold_left]; [reflexivity|].
  rewrite IH by (cbn [In] in H; tauto).
  cbn [fst snd]. apply set_row_other. cbn [In] in H.
  destruct H as [H | H]; [left; intros ->; tauto | now right].
Qed.

Lemma set_rows_at (r c : nat) (v : np.matrix F) (cols rows : list nat) :
  NoDup cols -> np.in_range c cols = true ->
  NoDup rows -> np.in_range r rows = true ->
  forall s m a b, dims r c m -> a < List.length rows -> b < List.length cols ->
  np.mget (set_rows v cols s rows m) (nth a rows 0) (nth b cols 0) =
  np.mget v (s + a) b.
Proof.
  intros Hndc Hinc. induction rows as [|i rows IH]; intros Hnd Hin s m a b Hm Ha Hb;
    [cbn in Ha; lia|].
  inversion Hnd as [|? ? Hnotin Hnd']; subst.
  cbn [np.in_range forallb] in Hin. apply andb_prop in Hin as [Hi Hin].
  apply Nat.ltb_lt in Hi.
  unfold set_rows. cbn [List.length seq combine fold_left fst snd].
  fold (set_rows v cols (S s) rows (set_row i (np.mget v s) 0 cols m)).
  destruct a as [|a]; cbn [nth].
  - rewrite set_rows_other by now left.
    rewrite (set_row_at r c) by assumption. f_equal. lia.
  - rewrite IH; try assumption.
    + f_equal. lia.
    + now apply set_row_dims.
    + cbn in Ha. lia.
Qed.

Lemma mget_ix_get (m : np.matrix F) (rows cols : list nat) (a b : nat) :
  a < List.length rows -> b < List.length cols ->
  np.mget (np.ix_get m rows cols) a b = np.mget m (nth a rows 0) (nth b cols 0).
Proof.
  intros Ha Hb. unfold np.ix_get. unfold np.mget at 1.
  rewrite (nth_map_in _ _ _ 0) by assumption.
  now rewrite (nth_map_in _ _ _ 0) by assumption.
Qed.

Lemma nth_combine_lt {X Y : Type} (u : list X) :
  forall (v : list Y) (k : nat) (dx : X) (dy : Y),
  k < List.length u -> k < List.length v ->
  nth k (combine u v) (dx, dy) = (nth k u dx, nth k v dy).
Proof.
  induction u as [|a u IH]; intros [|b v] k dx dy Hu Hv; cbn in *; try lia.
  destruct k as [|k]; [reflexivity | apply IH; lia].
Qed.

Lemma nth_map2 {X Y Z : Type} (f : X -> Y -> Z) (u : list X) (v : list Y)
    (k : nat) (dx : X) (dy : Y) (dz : Z) :
  k < List.length u -> k < List.length v ->
  nth k (np.map2 f u v) dz = f (nth k u dx) (nth k v dy).
Proof.
  intros Hu Hv. unfold np.map2.
  rewrite (nth_map_in _ _ _ (dx, dy)) by (rewrite length_combine; lia).
  now rewrite nth_combine_lt by lia.
Qed.

Lemma mget_madd (p q : nat) (u v : np.matrix F) (a b : nat) :
  dims p q u -> dims p q v -> a < p -> b < q ->
  np.mget (np.madd u v) a b = (np.mget u a b + np.mget v a b)%S.
Proof.
  intros [Hu Hcu] [Hv Hcv] Ha Hb. unfold np.mget, np.madd.
  rewrite (nth_map2 _ _ _ _ [] []) by lia.
  unfold np.vadd. apply nth_map2; [rewrite Hcu | rewrite Hcv]; auto.
Qed.

Lemma dims_ix_get (m : np.matrix F) (rows cols : list nat) :
  dims (List.length rows) (List.length cols) (np.ix_get m rows cols).
Proof.
  unfold np.ix_get. split; [now rewrite length_map|].
  intros k Hk. rewrite (nth_map_in _ _ _ 0) by assumption. now rewrite length_map.
Qed.

(** [m[ix_(rows, cols)] += v] adds [v[a][b]] to the entry at row
    [rows[a]] and column [cols[b]] and changes nothing else. *)
Lemma ix_iadd_entries (r c : nat) (m : np.matrix F) (rows cols : list nat)
    (v : np.matrix F) :
  dims r c m -> dims (List.length rows) (List.length cols) v ->
  NoDup rows -> np.in_range r rows = true ->
  NoDup cols -> np.in_range c cols = true ->
  dims r c (np.ix_iadd m rows cols v) /\
  (forall a b, a < List.length rows -> b < List.length cols ->
     np.mget (np.ix_iadd m rows cols v) (nth a rows 0) (nth b cols 0) =
     (np.mget m (nth a rows 0) (nth b cols 0) + np.mget v a b)%S) /\
  (forall i j, ~ In i rows \/ ~ In j cols ->
     np.mget (np.ix_iadd m rows cols v) i j = np.mget m i j).
Proof.
  intros Hm Hv Hndr Hinr Hndc Hinc. unfold np.ix_iadd. rewrite ix_set_rows.
  split; [now apply set_rows_dims|]. split.
  - intros a b Ha Hb. rewrite (set_rows_at r c) by assumption.
    cbn [Nat.add]. rewrite (mget_madd (List.length rows) (List.length cols));
      auto using dims_ix_get.
    now rewrite mget_ix_get.
  - intros i j H. now apply set_rows_other.
Qed.

End IndexedUpdate.

(** ** The warping DOF in the transformation matrix *)

Section WarpingDof.
Context {F : Type} {SF : Scalar F}.

Lemma direction_cosine_dims (b : Beam3D F) :
  List.length (np.transpose (Beam3D.direction_cosine_matrix b)) = 3 /\
  np.ncols (np.transpose (Beam3D.direction_cosine_matrix b)) = 3.
Proof.
  unfold Beam3D.direction_cosine_matrix.
  cbn [coords np.vsub np.map2 combine map fst snd np.vdivs firstn].
  match goal with
  | |- context [np.column_stack [?a; ?b; ?c]] =>
      generalize b; generalize c; intros zl yl
  end.
  split; reflexivity.
Qed.

Lemma node_transformation_outside (Rt : np.matrix F) (i j : nat) :
  List.length Rt = 3 -> np.ncols Rt = 3 ->
  6 <= i \/ 6 <= j ->
  np.mget (np.set_block (np.set_block (np.eye 7) 0 0 Rt) 3 3 Rt) i j =
  np.mget (np.eye 7 : np.matrix F) i j.
Proof.
  intros Hl Hc Hij. unfold np.set_block. rewrite Hl, Hc.
  rewrite !ix_set_rows.
  rewrite !set_rows_other; [reflexivity| |];
    (destruct Hij as [H | H]; [left | right]); intros Hin; apply in_seq in Hin; lia.
Qed.

Lemma mget_block_diag (a : np.matrix F) (i j : nat) :
  dims 7 7 a ->
  np.mget (np.block_diag a a) i j =
  if (i <? 7) && (j <? 7) then np.mget a i j
  else if (7 <=? i) && (7 <=? j) then np.mget a (i - 7) (j - 7)
  else of_Z 0.
Proof.
  intros Ha. pose proof (dims_ncols _ _ _ Ha ltac:(lia)) as Hc.
  destruct Ha as [Hr Hrow].
  unfold np.block_diag. rewrite Hc. unfold np.mget at 1.
  destruct (Nat.ltb_spec i 7) as [Hi | Hi]; cbn [andb].
  - rewrite app_nth1 by (rewrite length_map; lia).
    rewrite (nth_map_in _ _ _ []) by lia.
    destruct (Nat.ltb_spec j 7) as [Hj | Hj].
    + rewrite app_nth1 by (rewrite Hrow; lia). reflexivity.
    + replace (7 <=? i) with false by (symmetry; apply Nat.leb_gt; lia). cbn [andb].
      rewrite app_nth2 by (rewrite Hrow; lia). apply get_zeros.
  - replace (7 <=? i) with true by (symmetry; apply Nat.leb_le; lia). cbn [andb].
    rewrite app_nth2 by (rewrite length_map; lia). rewrite length_map, Hr.
    destruct (Nat.lt_ge_cases (i - 7) 7) as [Hi' | Hi'].
    + rewrite (nth_map_in _ _ _ []) by lia.
      destruct (Nat.leb_spec 7 j) as [Hj | Hj].
      * rewrite app_nth2 by (rewrite length_zeros; lia). now rewrite length_zeros.
      * rewrite app_nth1 by (rewrite length_zeros; lia). apply get_zeros.
    + rewrite (nth_overflow (map _ _)) by (rewrite length_map; lia).
      rewrite nth_nil_default.
      destruct (7 <=? j); [|reflexivity].
      symmetry. apply mget_overflow_row. lia.
Qed.

(** X23: the transformation matrix never mixes the warping DOF with
    the others: its rows and columns 6 and 13 are those of the 14x14
    identity, for every element and every scalar instance. *)
Theorem transformation_keeps_warping (b : Beam3D F) (k : nat) :
  np.mget (Beam3D.transformation_matrix b) 6 k = np.mget (np.eye 14) 6 k /\
  np.mget (Beam3D.transformation_matrix b) 13 k = np.mget (np.eye 14) 13 k /\
  np.mget (Beam3D.transformation_matrix b) k 6 = np.mget (np.eye 14) k 6 /\
  np.mget (Beam3D.transformation_matrix b) k 13 = np.mget (np.eye 14) k 13.
Proof.
  destruct (direction_cosine_dims b) as [Hl Hc].
  unfold Beam3D.transformation_matrix.
  set (Rt := np.transpose (Beam3D.direction_cosine_matrix b)) in *.
  assert (Hd : dims 7 7 (np.set_block (np.set_block (np.eye 7) 0 0 Rt) 3 3 Rt)).
  { unfold np.set_block. do 2 apply dims_ix_set. apply dims_eye. }
  rewrite !(mget_block_diag _ _ _ Hd).
  assert (Hout : forall i j, 6 <= i \/ 6 <= j ->
            np.mget (np.set_block (np.set_block (np.eye 7) 0 0 Rt) 3 3 Rt) i j =
            np.mget (np.eye 7 : np.matrix F) i j)
    by (intros; now apply node_transformation_outside).
  destruct (Nat.lt_ge_cases k 14) as [Hk | Hk].
  - rewrite !Hout by lia.
    do 14 (destruct k as [|k]; [repeat split; reflexivity|]). exfalso. lia.
  - replace (k <? 7) with false by (symmetry; apply Nat.ltb_ge; lia).
    replace (7 <=? k) with true by (symmetry; apply Nat.leb_le; lia).
    cbn [Nat.ltb Nat.leb andb].
    rewrite !(mget_overflow_row (np.eye 14) k) by (rewrite (proj1 (dims_eye 14)); lia).
    rewrite !(mget_overflow_col 14 14 (np.eye 14) _ k (dims_eye 14)) by lia.
    rewrite !(mget_overflow_col 7 7 _ _ (k - 7) Hd) by lia.
    rewrite !(mget_overflow_row _ (k - 7)) by (rewrite (proj1 Hd); lia).
    repeat split; reflexivity.
Qed.

End WarpingDof.

(** ** Assembly of the stiffness matrix *)

Lemma rank_lt_mono (ids : list Z) (k1 k2 : Z) :
  In k1 ids -> (k1 < k2)%Z -> rank ids k1 < rank ids k2.
Proof.
  unfold rank. induction ids as [|a t IH]; cbn [In filter]; [contradiction|].
  intros [-> | Hin] Hlt.
  - rewrite Z.ltb_irrefl. replace (k1 <? k2)%Z with true by (symmetry; now apply Z.ltb_lt).
    cbn [List.length].
    assert (List.length (filter (fun j => (j <? k1)%Z) t) <=
            List.length (filter (fun j => (j <? k2)%Z) t)); [|lia].
    clear IH. induction t as [|b t IH]; cbn [filter]; [lia|].
    destruct (Z.ltb_spec b k1), (Z.ltb_spec b k2); cbn [List.length]; lia.
  - specialize (IH Hin Hlt).
    destruct (Z.ltb_spec a k1), (Z.ltb_spec a k2); cbn [List.length]; lia.
Qed.

Lemma rank_inj (ids : list Z) (k1 k2 : Z) :
  In k1 ids -> In k2 ids -> rank ids k1 = rank ids k2 -> k1 = k2.
Proof.
  intros H1 H2 Heq. destruct (Z.lt_trichotomy k1 k2) as [Hlt | [-> | Hgt]]; [|reflexivity|].
  - pose proof (rank_lt_mono ids k1 k2 H1 Hlt). lia.
  - pose proof (rank_lt_mono ids k2 k1 H2 Hgt). lia.
Qed.

Lemma nodup_blocks (r1 r2 : nat) :
  r1 <> r2 -> NoDup (seq (7 * r1) 7 ++ seq (7 * r2) 7).
Proof.
  intros Hne. apply NoDup_app; [apply seq_NoDup | apply seq_NoDup |].
  intros i H1 H2. apply in_seq in H1, H2. lia.
Qed.

Section Assembly.
Context {F : Type} {SF : Scalar F}.

Definition symmetric_matrix (m : np.matrix F) : Prop :=
  forall i j : nat, np.mget m i j = np.mget m j i.

Lemma mget_zeros2 (r c i j : nat) : np.mget (np.zeros2 r c : np.matrix F) i j = of_Z 0.
Proof.
  unfold np.mget, np.zeros2.
  destruct (Nat.lt_ge_cases i r) as [Hi | Hi].
  - rewrite nth_repeat_lt by assumption. apply get_zeros.
  - rewrite (nth_overflow (repeat _ _)) by (rewrite repeat_length; lia).
    apply nth_nil_default.
Qed.

Lemma symmetric_zeros2 (n : nat) : symmetric_matrix (np.zeros2 n n).
Proof. intros i j. now rewrite !mget_zeros2. Qed.

Lemma ix_iadd_symmetric (n : nat) (m : np.matrix F) (dofs : list nat) (v : np.matrix F) :
  dims n n m -> dims (List.length dofs) (List.length dofs) v ->
  NoDup dofs -> np.in_range n dofs = true ->
  symmetric_matrix m -> symmetric_matrix v ->
  symmetric_matrix (np.ix_iadd m dofs dofs v).
Proof.
  intros Hm Hv Hnd Hin Hsm Hsv i j.
  destruct (ix_iadd_entries n n m dofs dofs v Hm Hv Hnd Hin Hnd Hin) as (_ & Hat & Hother).
  destruct (in_dec Nat.eq_dec i dofs) as [Hi | Hi];
    [destruct (in_dec Nat.eq_dec j dofs) as [Hj | Hj]|].
  - destruct (In_nth _ _ 0 Hi) as (a & Ha & <-).
    destruct (In_nth _ _ 0 Hj) as (b & Hb & <-).
    rewrite !Hat by assumption. now rewrite (Hsm _ _), (Hsv a b).
  - rewrite !Hother by tauto. apply Hsm.
  - rewrite !Hother by tauto. apply Hsm.
Qed.

(** The two nodes of an element are nodes of the model, under
    different ids. *)
Definition connects (ns : list (Z * Node F)) (el : Beam3D F) : Prop :=
  exists k1 k2, In (k1, node1 el) ns /\ In (k2, node2 el) ns /\ k1 <> k2.

Lemma element_dofs_mapped (st : state F) (el : Beam3D F) :
  dof_map_of st st -> connects (nodes (model st)) el ->
  let n := 7 * List.length (nodes (model st)) in
  List.length (Model.element_dofs (heap st) el) = 14 /\
  NoDup (Model.element_dofs (heap st) el) /\
  np.in_range n (Model.element_dofs (heap st) el) = true.
Proof.
  intros Hmap (k1 & k2 & H1 & H2 & Hne) n.
  destruct Hmap as (_ & _ & _ & _ & _ & _ & Hblock).
  unfold Model.element_dofs, dof_indices.
  rewrite (Hblock _ _ H1), (Hblock _ _ H2).
  pose proof (in_map fst _ _ H1) as Hk1. pose proof (in_map fst _ _ H2) as Hk2.
  cbn [fst] in Hk1, Hk2.
  split; [now rewrite length_app, !length_seq|]. split.
  - apply nodup_blocks. intros Heq. apply Hne. eapply rank_inj; eauto.
  - unfold n. rewrite <- (length_map fst (nodes (model st))).
    apply in_range_app; now apply block_in_range.
Qed.

Lemma global_stiffness_dims (b : Beam3D F) :
  dims 14 14 (Beam3D.global_stiffness_matrix b).
Proof.
  unfold Beam3D.global_stiffness_matrix.
  pose proof (transformation_dims b) as HT.
  eapply dims_matmul; [|exact HT|lia].
  eapply dims_matmul; [|apply dims_shape, local_stiffness_shape|lia].
  apply dims_transpose; [exact HT | lia].
Qed.

Definition assemble_step (K_global : np.matrix F) (el : Beam3D F)
  : M F (np.matrix F) :=
  (h <- gets heap ;;
   lift (np.ix_iadd_checked K_global (Model.element_dofs h el)
           (Model.element_dofs h el) (Beam3D.global_stiffness_matrix el)))%M.

Lemma assemble_stiffness_loop (st : state F) :
  _dof_map_generated (model st) = true ->
  Model.assemble_stiffness st =
  for_fold (elements (model st)) assemble_step
    (np.zeros2 (total_dofs (model st)) (total_dofs (model st))) st.
Proof.
  intros Hg. unfold Model.assemble_stiffness.
  unfold mbind at 1. rewrite (ensure_dof_map_current st Hg). reflexivity.
Qed.

Lemma assemble_step_mapped (st : state F) (K0 : np.matrix F) (el : Beam3D F) :
  dof_map_of st st -> connects (nodes (model st)) el ->
  let n := 7 * List.length (nodes (model st)) in
  dims n n K0 ->
  assemble_step K0 el st =
    Ok (np.ix_iadd K0 (Model.element_dofs (heap st) el)
          (Model.element_dofs (heap st) el) (Beam3D.global_stiffness_matrix el), st) /\
  dims n n (np.ix_iadd K0 (Model.element_dofs (heap st) el)
          (Model.element_dofs (heap st) el) (Beam3D.global_stiffness_matrix el)) /\
  (symmetric_matrix K0 -> symmetric_matrix (Beam3D.global_stiffness_matrix el) ->
   symmetric_matrix (np.ix_iadd K0 (Model.element_dofs (heap st) el)
          (Model.element_dofs (heap st) el) (Beam3D.global_stiffness_matrix el))).
Proof.
  intros Hmap Hel n HK0.
  destruct (element_dofs_mapped st el Hmap Hel) as (Hlen & Hnd & Hin).
  fold n in Hin.
  pose proof (global_stiffness_dims el) as Hd.
  assert (Hpos : 0 < n).
  { destruct Hel as (k1 & _ & H1 & _). unfold n.
    destruct (nodes (model st)); [destruct H1 | cbn; lia]. }
  split; [|split].
  - unfold assemble_step, mbind, gets, np.ix_iadd_checked.
    rewrite (dims_ncols _ _ _ HK0 Hpos), (proj1 HK0), Hin. cbn [andb negb].
    rewrite Hlen, (proj1 Hd), (dims_ncols _ _ _ Hd ltac:(lia)). reflexivity.
  - apply ix_iadd_entries; try assumption; now rewrite Hlen.
  - intros Hs Hsel. apply (ix_iadd_symmetric n); try assumption. now rewrite Hlen.
Qed.

Lemma assemble_loop (st : state F) (els : list (Beam3D F)) :
  dof_map_of st st ->
  Forall (connects (nodes (model st))) els ->
  let n := 7 * List.length (nodes (model st)) in
  forall K0, dims n n K0 ->
  exists K, for_fold els assemble_step K0 st = Ok (K, st) /\ dims n n K /\
    (symmetric_matrix K0 -> Forall (fun el => symmetric_matrix (Beam3D.global_stiffness_matrix el)) els ->
     symmetric_matrix K).
Proof.
  intros Hmap Hels n. induction Hels as [|el els Hel Hels IH]; intros K0 HK0;
    cbn [for_fold].
  - exists K0. split; [reflexivity|]. split; [exact HK0|]. intros Hs _. exact Hs.
  - destruct (assemble_step_mapped st K0 el Hmap Hel HK0) as (Hrun & Hd & Hs).
    unfold mbind at 1. rewrite Hrun.
    destruct (IH _ Hd) as (K & HK & HdK & HsK).
    exists K. split; [exact HK|]. split; [exact HdK|].
    intros Hs0 Hall. inversion Hall; subst. apply HsK; auto.
Qed.

(** A model whose DOF map is current and whose elements connect nodes
    of the model. *)
Definition assembled (st : state F) : Prop :=
  dof_map_of st st /\
  Forall (connects (nodes (model st))) (elements (model st)).

(** X8: on a model with a current DOF map whose elements connect
    nodes of the model, [assemble_stiffness] raises nothing, leaves the
    model as it is and returns a square matrix with 7 rows per node. *)
Theorem assemble_stiffness_square (st : state F) :
  assembled st ->
  exists K, Model.assemble_stiffness st = Ok (K, st) /\
    dims (7 * List.length (nodes (model st))) (7 * List.length (nodes (model st))) K.
Proof.
  intros (Hmap & Hels).
  pose proof Hmap as (_ & _ & _ & _ & Hg & Htot & _).
  rewrite (assemble_stiffness_loop st Hg), Htot.
  destruct (assemble_loop st _ Hmap Hels _ (dims_zeros2 _ _)) as (K & HK & Hd & _).
  exists K. split; assumption.
Qed.

(** X10: [add_element] takes any element; when an element has a node
    that was never numbered (its [dof_indices] are still empty), the
    assembly raises [ValueError]: the 14x14 element matrix does not fit
    the 0 or 7 positions selected. *)
Theorem assemble_stiffness_unmapped_node (st : state F) (pre post : list (Beam3D F))
    (el : Beam3D F) :
  dof_map_of st st ->
  elements (model st) = pre ++ el :: post ->
  Forall (connects (nodes (model st))) pre ->
  (dof_indices (heap st) (node1 el) = [] /\
   (dof_indices (heap st) (node2 el) = [] \/
    exists k, In (k, node2 el) (nodes (model st)))) \/
  (dof_indices (heap st) (node2 el) = [] /\
   exists k, In (k, node1 el) (nodes (model st))) ->
  Model.assemble_stiffness st = Raise ValueError.
Proof.
  intros Hmap Hels Hpre Hel.
  pose proof Hmap as (_ & _ & _ & _ & Hg & Htot & Hblock).
  rewrite (assemble_stiffness_loop st Hg), Htot, Hels. clear Hels.
  set (n := 7 * List.length (nodes (model st))).
  assert (Hloop : forall K0, dims n n K0 ->
            for_fold (pre ++ el :: post) assemble_step K0 st = Raise ValueError).
  { induction Hpre as [|e pre He Hpre IH]; intros K0 HK0; cbn [app for_fold].
    - unfold mbind at 1.
      assert (Hstep : assemble_step K0 el st = Raise ValueError); [|now rewrite Hstep].
      unfold assemble_step, mbind, gets, np.ix_iadd_checked, Model.element_dofs.
      pose proof (global_stiffness_dims el) as Hd.
      rewrite (proj1 Hd), (proj1 HK0).
      assert (Hblk : forall k nd, In (k, nd) (nodes (model st)) ->
                np.in_range n (dof_indices (heap st) nd) = true /\
                np.in_range (np.ncols K0) (dof_indices (heap st) nd) = true /\
                List.length (dof_indices (heap st) nd) = 7).
      { intros k nd Hk. unfold dof_indices. rewrite (Hblock _ _ Hk).
        assert (Hpos : 0 < n).
        { unfold n. destruct (nodes (model st)); [destruct Hk | cbn; lia]. }
        rewrite (dims_ncols _ _ _ HK0 Hpos), length_seq.
        assert (Hr : np.in_range n (seq (7 * rank (dict.keys (nodes (model st))) k) 7) = true).
        { unfold n. rewrite <- (length_map fst (nodes (model st))).
          apply block_in_range. apply (in_map fst) in Hk. exact Hk. }
        auto. }
      destruct Hel as [[H1 [H2 | [k Hk]]] | [H2 [k Hk]]].
      + rewrite H1, H2. reflexivity.
      + rewrite H1. cbn [app]. destruct (Hblk _ _ Hk) as (Ha & Hb & Hc). rewrite Ha, Hb, Hc. reflexivity.
      + rewrite H2, app_nil_r. destruct (Hblk _ _ Hk) as (-> & -> & ->). reflexivity.
    - destruct (assemble_step_mapped st K0 e Hmap He HK0) as (Hrun & Hd & _).
      unfold mbind at 1. rewrite Hrun. apply IH. exact Hd. }
  apply Hloop, dims_zeros2.
Qed.

End Assembly.

(** ** The load vector *)

Section LoadVector.
Context {F : Type} {SF : Scalar F}.

Lemma take_put_disjoint (idx idx' : list nat) (w v : np.vector F) :
  (forall i, In i idx' -> ~ In i idx) ->
  np.take (np.put v idx w) idx' = np.take v idx'.
Proof.
  intros H. unfold np.take. apply map_ext_in. intros i Hi.
  apply get_put_other. now apply H.
Qed.

Lemma length_vadd (u v : np.vector F) :
  List.length u = List.length v -> List.length (np.vadd u v) = List.length u.
Proof.
  intros H. unfold np.vadd, np.map2. rewrite length_map, length_combine. lia.
Qed.

Lemma length_take (v : np.vector F) (idx : list nat) :
  List.length (np.take v idx) = List.length idx.
Proof. unfold np.take. apply length_map. Qed.

Definition block (ids : list Z) (nid : Z) : list nat := seq (7 * rank ids nid) 7.

Lemma block_disjoint (ids : list Z) (k1 k2 : Z) (i : nat) :
  In k1 ids -> In k2 ids -> k1 <> k2 ->
  In i (block ids k1) -> ~ In i (block ids k2).
Proof.
  intros H1 H2 Hne Hi1 Hi2. unfold block in *. apply in_seq in Hi1, Hi2.
  apply Hne. apply (rank_inj ids); auto. lia.
Qed.

Definition load_step (ns : list (Z * Node F)) (Fv : np.vector F) (entry : Z * list F)
  : M F (np.vector F) :=
  (node <- lift (dict.getitem ns (fst entry)) ;;
   h <- gets heap ;;
   lift (np.iadd_at_checked Fv (dof_indices h node) (snd entry)))%M.

(** The loads are 7-vectors on nodes of the table, one per node. *)
Definition loads_wf (ns : list (Z * Node F)) (ls : list (Z * list F)) : Prop :=
  NoDup (dict.keys ls) /\
  forall nid load, In (nid, load) ls ->
    In nid (dict.keys ns) /\ List.length load = 7.

Lemma load_loop (ns : list (Z * Node F)) (st : state F) :
  (forall nid node, In (nid, node) ns ->
     heap st (ref node) = block (dict.keys ns) nid) ->
  forall ls, loads_wf ns ls ->
  forall F0, List.length F0 = 7 * List.length ns ->
  exists Fv, for_fold ls (load_step ns) F0 st = Ok (Fv, st) /\
    List.length Fv = 7 * List.length ns /\
    (forall nid load, In (nid, load) ls ->
       np.take Fv (block (dict.keys ns) nid) =
       np.vadd (np.take F0 (block (dict.keys ns) nid)) load) /\
    (forall i, (forall nid, In nid (dict.keys ls) -> ~ In i (block (dict.keys ns) nid)) ->
       np.get Fv i = np.get F0 i).
Proof.
  intros Hblock. induction ls as [|[nid load] ls IH]; intros [Hnd Hls] F0 HF0;
    cbn [for_fold].
  - exists F0. split; [reflexivity|]. split; [exact HF0|]. split; [intros ? ? []|].
    reflexivity.
  - cbn [dict.keys map fst] in Hnd. inversion Hnd as [|? ? Hnotin Hnd']; subst.
    destruct (Hls nid load (or_introl eq_refl)) as [Hk Hlen].
    destruct (dict_key_get _ _ Hk) as [node Hget].
    pose proof (dict_get_in _ _ _ Hget) as Hnode.
    assert (Hr : np.in_range (7 * List.length ns) (block (dict.keys ns) nid) = true).
    { unfold block. rewrite <- (length_map fst ns). now apply block_in_range. }
    set (blk := block (dict.keys ns) nid) in *.
    set (F1 := np.put F0 blk (np.vadd (np.take F0 blk) load)).
    assert (Hstep : load_step ns F0 (nid, load) st = Ok (F1, st)).
    { unfold load_step. cbn [fst snd]. unfold mbind at 1.
      unfold lift at 1, dict.getitem. rewrite Hget.
      unfold mbind, gets, dof_indices. rewrite (Hblock _ _ Hnode).
      fold blk. unfold np.iadd_at_checked. rewrite HF0, Hr.
      unfold blk, block. rewrite length_seq, Hlen. reflexivity. }
    unfold mbind at 1. rewrite Hstep.
    assert (HF1 : List.length F1 = 7 * List.length ns)
      by (unfold F1; now rewrite length_put).
    assert (Hls' : loads_wf ns ls).
    { split; [exact Hnd'|]. intros k l Hkl. apply Hls. now right. }
    destruct (IH Hls' F1 HF1) as (Fv & Hrun & HlenFv & Hat & Hother).
    exists Fv. split; [exact Hrun|]. split; [exact HlenFv|]. split.
    + intros k l [Heq | Hkl].
      * injection Heq as <- <-. fold blk.
        assert (Htake : np.take Fv blk = np.take F1 blk).
        { unfold np.take. apply map_ext_in. intros i Hi. apply Hother.
          intros k Hk' Hi'. apply (block_disjoint (dict.keys ns) nid k i); auto.
          - destruct (proj1 (in_map_iff fst ls k) Hk') as ([k' l'] & <- & Hin').
            apply (Hls k' l'). now right.
          - intros ->. contradiction. }
        rewrite Htake. unfold F1. apply take_put.
        -- apply seq_NoDup.
        -- now rewrite HF0.
        -- rewrite length_vadd; rewrite length_take; unfold blk, block;
             rewrite length_seq; auto.
      * rewrite (Hat k l Hkl). f_equal. unfold F1.
        apply take_put_disjoint. intros i Hi.
        destruct (Hls k l (or_intror Hkl)) as [Hk' _].
        apply (block_disjoint (dict.keys ns) k nid i); auto.
        intros ->. apply Hnotin. apply (in_map fst) in Hkl. exact Hkl.
    + intros i Hi. rewrite Hother.
      * unfold F1. apply get_put_other. apply Hi. now left.
      * intros k Hk'. apply Hi. now right.
Qed.

Lemma get_load_vector_spec (st : state F) :
  model_wf st ->
  loads_wf (nodes (model st)) (loads (model st)) ->
  exists Fv st1,
    dof_map_of st st1 /\
    Model.get_load_vector st = Ok (Fv, st1) /\
    List.length Fv = 7 * List.length (nodes (model st)) /\
    (forall nid load, In (nid, load) (loads (model st)) ->
       np.take Fv (block (dict.keys (nodes (model st))) nid) =
       np.vadd (np.zeros 7) load) /\
    (forall i, (forall nid, In nid (dict.keys (loads (model st))) ->
                  ~ In i (block (dict.keys (nodes (model st))) nid)) ->
       np.get Fv i = of_Z 0).
Proof.
  intros Hwf Hls.
  destruct (ensure_dof_map_spec st Hwf) as (st1 & Hens & Hmap).
  pose proof Hmap as (Hns & _ & _ & Hlds & _ & Htot & Hblock).
  assert (Hblock1 : forall nid node, In (nid, node) (nodes (model st)) ->
            heap st1 (ref node) = block (dict.keys (nodes (model st))) nid)
    by exact Hblock.
  destruct (load_loop (nodes (model st)) st1 Hblock1 _ Hls
              (np.zeros (7 * List.length (nodes (model st)))) (length_zeros _))
    as (Fv & Hrun & Hlen & Hat & Hother).
  exists Fv, st1. split; [exact Hmap|]. split.
  - unfold Model.get_load_vector. unfold mbind at 1. rewrite Hens.
    unfold mbind at 1, gets at 1. rewrite Htot, Hlds, Hns. exact Hrun.
  - split; [exact Hlen|]. split.
    + intros nid load Hin. rewrite (Hat nid load Hin). f_equal.
      rewrite take_zeros. unfold block. now rewrite length_seq.
    + intros i Hi. rewrite (Hother i Hi). apply get_zeros.
Qed.


(** X11: [get_load_vector] returns a vector of 7 entries per node
    in which the block of each loaded node holds its load (added to
    zero) and every entry outside the blocks of the loaded nodes is
    zero. *)
Theorem load_vector_blocks (st : state F) :
  model_wf st ->
  loads_wf (nodes (model st)) (loads (model st)) ->
  exists Fv st1,
    Model.get_load_vector st = Ok (Fv, st1) /\
    List.length Fv = 7 * List.length (nodes (model st)) /\
    (forall nid load, In (nid, load) (loads (model st)) ->
       np.take Fv (block (dict.keys (nodes (model st))) nid) =
       np.vadd (np.zeros 7) load) /\
    (forall i, (forall nid, In nid (dict.keys (loads (model st))) ->
                  ~ In i (block (dict.keys (nodes (model st))) nid)) ->
       np.get Fv i = of_Z 0).
Proof.
  intros Hwf Hls.
  destruct (get_load_vector_spec st Hwf Hls) as (Fv & st1 & _ & H).
  now exists Fv, st1.
Qed.

End LoadVector.

(** ** The constrained DOFs *)

Lemma insert_unique_sorted (a : nat) (l : list nat) :
  StronglySorted lt l -> StronglySorted lt (npi.insert_unique a l).
Proof.
  induction 1 as [|b t Hs IH Hall]; cbn [npi.insert_unique].
  - repeat constructor.
  - destruct (Nat.ltb_spec a b) as [Hlt | Hge].
    + constructor; [now constructor|]. constructor; [exact Hlt|].
      eapply Forall_impl; [|exact Hall]. cbn. lia.
    + destruct (Nat.eqb_spec a b) as [-> | Hne]; [now constructor|].
      constructor; [exact IH|].
      apply Forall_forall. intros i Hi. apply insert_unique_in in Hi.
      destruct Hi as [-> | Hi]; [lia|].
      rewrite Forall_forall in Hall. now apply Hall.
Qed.

Lemma unique_sorted (l : list nat) : StronglySorted lt (npi.unique l).
Proof.
  unfold npi.unique. induction l as [|a l IH]; cbn [fold_right]; [constructor|].
  now apply insert_unique_sorted.
Qed.

Section ConstrainedDofs.
Context {F : Type} {SF : Scalar F}.

Lemma gdof_lt (ids : list Z) (nid d : Z) :
  In nid ids -> gdof ids nid d < 7 * List.length ids.
Proof.
  intros Hin. pose proof (rank_lt ids nid Hin). unfold gdof.
  pose proof (Z.mod_pos_bound d 7 ltac:(lia)). lia.
Qed.

(** X12: when every recorded index lies in [-7, 6],
    [get_constrained_dofs] returns the constrained global DOFs in
    strictly ascending order (hence each once), all below the number
    of DOFs of the model. *)
Theorem constrained_dofs_sorted (st : state F) :
  model_wf st ->
  all_in_block (constraints (model st)) = true ->
  exists cons st1,
    Model.get_constrained_dofs st = Ok (cons, st1) /\
    StronglySorted lt cons /\
    (forall g, In g cons <->
       exists nid s d, In (nid, s) (constraints (model st)) /\ In d s /\
                       g = gdof (dict.keys (nodes (model st))) nid d) /\
    (forall g, In g cons -> g < 7 * List.length (nodes (model st))).
Proof.
  intros Hwf Hall.
  destruct (get_constrained_dofs_spec st Hwf) as (st1 & _ & Hrun).
  rewrite Hall in Hrun.
  eexists _, st1. split; [exact Hrun|]. split; [apply unique_sorted|].
  assert (Hmem : forall g,
    In g (npi.unique (constrained_of (dict.keys (nodes (model st)))
                                     (constraints (model st)))) <->
    exists nid s d, In (nid, s) (constraints (model st)) /\ In d s /\
                    g = gdof (dict.keys (nodes (model st))) nid d).
  { intros g. rewrite unique_in. unfold constrained_of. rewrite in_flat_map. split.
    - intros ([nid s] & He & Hg). cbn [fst snd] in Hg.
      apply in_map_iff in Hg. destruct Hg as (d & <- & Hd). eauto 6.
    - intros (nid & s & d & He & Hd & ->). exists (nid, s). split; [exact He|].
      cbn [fst snd]. now apply in_map. }
  split; [exact Hmem|].
  intros g Hg. apply Hmem in Hg. destruct Hg as (nid & s & d & He & _ & ->).
  rewrite <- (length_map fst (nodes (model st))). apply gdof_lt.
  destruct Hwf as (_ & _ & Hck). apply Hck.
  apply (in_map fst) in He. exact He.
Qed.

End ConstrainedDofs.

(** ** Models built through the methods of [Model] *)

Section DictKeys.
Context {V : Type}.

Lemma dict_get_none (d : list (Z * V)) (k : Z) :
  dict.get d k = None -> ~ In k (dict.keys d).
Proof.
  intros H Hin. destruct (dict_key_get d k Hin) as [v Hv]. congruence.
Qed.

Lemma dict_set_fresh (d : list (Z * V)) (k : Z) (v : V) :
  dict.get d k = None -> dict.set d k v = d ++ [(k, v)].
Proof.
  induction d as [|[k' v'] t IH]; cbn; [reflexivity|].
  destruct (Z.eqb k' k); [discriminate|]. intros H. now rewrite IH.
Qed.

Lemma dict_set_present (d : list (Z * V)) (k : Z) (v : V) :
  In k (dict.keys d) -> dict.keys (dict.set d k v) = dict.keys d.
Proof.
  induction d as [|[k' v'] t IH]; cbn; [contradiction|].
  intros Hin. destruct (Z.eqb_spec k' k) as [-> | Hne]; [reflexivity|].
  cbn. f_equal. apply IH. destruct Hin; [contradiction | assumption].
Qed.

Lemma dict_set_nodup (d : list (Z * V)) (k : Z) (v : V) :
  NoDup (dict.keys d) -> NoDup (dict.keys (dict.set d k v)).
Proof.
  intros Hnd. destruct (dict.get d k) eqn:Hget.
  - rewrite dict_set_present; [exact Hnd|].
    apply dict_get_in in Hget. apply (in_map fst) in Hget. exact Hget.
  - rewrite dict_set_fresh by assumption. unfold dict.keys. rewrite map_app.
    cbn [map fst]. apply NoDup_app; [exact Hnd | repeat constructor; intros [] |].
    intros a Ha [Heq | []]. subst a. now apply (dict_get_none d k).
Qed.

Lemma dict_keys_set (d : list (Z * V)) (k : Z) (v : V) (k' : Z) :
  In k' (dict.keys d) -> In k' (dict.keys (dict.set d k v)).
Proof.
  unfold dict.keys. induction d as [|[k0 v0] t IH]; cbn; [contradiction|].
  intros [-> | H].
  - destruct (Z.eqb_spec k' k) as [-> | Hne]; now left.
  - destruct (Z.eqb_spec k0 k) as [-> | Hne]; cbn; auto.
Qed.

End DictKeys.

Section Calls.
Context {F : Type} {SF : Scalar F}.

(** The calls by which a program builds a model. *)
Inductive call : Type :=
| AddNode (node : Node F)
| AddElement (element : Beam3D F)
| AddConstraint (node_id dof_index : Z)
| AddLoad (node_id : Z) (load_vector : list F).

Definition run_call (c : call) : M F unit :=
  match c with
  | AddNode node => Model.add_node node
  | AddElement element => Model.add_element element
  | AddConstraint node_id dof_index => Model.add_constraint node_id dof_index
  | AddLoad node_id load_vector => Model.add_load node_id load_vector
  end.

(** The node objects that the calls add. *)
Definition call_refs (c : call) : list nat :=
  match c with AddNode node => [ref node] | _ => [] end.

Definition added_refs (cs : list call) : list nat := flat_map call_refs cs.

Definition node_refs (st : state F) : list nat :=
  map (fun p => ref (snd p)) (nodes (model st)).

(** What every call maintains. *)
Definition consistent (st : state F) : Prop :=
  model_wf st /\
  loads_wf (nodes (model st)) (loads (model st)) /\
  NoDup (dict.keys (constraints (model st))).

Lemma dof_map_fields (st st' : state F) :
  nodes (model st') = nodes (model st) ->
  _dof_map_generated (model st') = _dof_map_generated (model st) ->
  total_dofs (model st') = total_dofs (model st) ->
  heap st' = heap st ->
  (_dof_map_generated (model st) = true -> dof_map_of st st) ->
  _dof_map_generated (model st') = true -> dof_map_of st' st'.
Proof.
  intros Hn Hg Ht Hh Hcur Hg'. rewrite Hg in Hg'. specialize (Hcur Hg').
  destruct Hcur as (_ & _ & _ & _ & Hflag & Htot & Hblock).
  unfold dof_map_of. rewrite Hn, Hg, Ht, Hh. repeat split; auto.
Qed.

Ltac keep_dof_map st :=
  match goal with
  | |- consistent ?s /\ _ =>
      assert (Hd : _dof_map_generated (model s) = true -> dof_map_of s s)
        by (apply (dof_map_fields st s); auto)
  end.

Lemma add_node_consistent (st st' : state F) (node : Node F) :
  consistent st -> ~ In (ref node) (node_refs st) ->
  Model.add_node node st = Ok (tt, st') ->
  consistent st' /\ node_refs st' = node_refs st ++ [ref node].
Proof.
  intros ((Hn & Hcur & Hck) & (Hlnd & Hls) & Hcnd) Hfresh.
  unfold Model.add_node, mbind, gets, dict.mem.
  destruct (dict.get (nodes (model st)) (id node)) eqn:Hget; [discriminate|].
  unfold set_model. intros [= <-]. unfold node_refs. cbn [model nodes].
  rewrite (dict_set_fresh _ _ _ Hget).
  split; [|now rewrite map_app].
  split; [split; [|split]|split; [split|]]; cbn [model heap nodes constraints loads
    _dof_map_generated].
  - destruct Hn as [Hk Hr]. split.
    + unfold dict.keys. rewrite map_app. cbn [map fst].
      apply NoDup_app; [exact Hk | repeat constructor; intros [] |].
      intros a Ha [Heq | []]. subst a. now apply (dict_get_none _ _ Hget).
    + rewrite map_app. cbn [map snd].
      apply NoDup_app; [exact Hr | repeat constructor; intros [] |].
      intros a Ha [Heq | []]. subst a. now apply Hfresh.
  - discriminate.
  - intros nid Hin. unfold dict.keys. rewrite map_app. apply in_or_app. left.
    now apply Hck.
  - exact Hlnd.
  - intros nid load Hin. destruct (Hls nid load Hin) as [Hk Hlen]. split; [|exact Hlen].
    unfold dict.keys. rewrite map_app. apply in_or_app. now left.
  - exact Hcnd.
Qed.

Lemma add_element_consistent (st st' : state F) (element : Beam3D F) :
  consistent st -> Model.add_element element st = Ok (tt, st') ->
  consistent st' /\ node_refs st' = node_refs st.
Proof.
  intros ((Hn & Hcur & Hck) & Hl & Hcnd).
  unfold Model.add_element, set_model. intros [= <-].
  keep_dof_map st.
  split; [|reflexivity].
  split; [split; [|split]|split]; cbn [model heap nodes constraints loads]; auto.
Qed.

Lemma add_constraint_consistent (st st' : state F) (nid d : Z) :
  consistent st -> Model.add_constraint nid d st = Ok (tt, st') ->
  consistent st' /\ node_refs st' = node_refs st.
Proof.
  intros ((Hn & Hcur & Hck) & Hl & Hcnd).
  unfold Model.add_constraint, mbind, gets.
  destruct (dict.mem (nodes (model st)) nid) eqn:Hmem; [|discriminate].
  cbn [negb]. unfold set_model. intros [= <-].
  keep_dof_map st.
  split; [|reflexivity].
  split; [split; [|split]|split]; cbn [model heap nodes constraints loads]; auto.
  - intros k Hk. apply dict_set_keys in Hk. destruct Hk as [-> | Hk]; [|now apply Hck].
    now apply dict_mem_key.
  - now apply dict_set_nodup.
Qed.

Lemma length_map2 {X Y Z : Type} (f : X -> Y -> Z) (u : list X) (v : list Y) :
  List.length u = List.length v -> List.length (np.map2 f u v) = List.length u.
Proof. intros H. unfold np.map2. rewrite length_map, length_combine. lia. Qed.

Lemma add_load_consistent (st st' : state F) (nid : Z) (v : list F) :
  consistent st -> Model.add_load nid v st = Ok (tt, st') ->
  consistent st' /\ node_refs st' = node_refs st.
Proof.
  intros ((Hn & Hcur & Hck) & (Hlnd & Hls) & Hcnd).
  unfold Model.add_load. unfold mbind at 1. unfold gets at 1.
  destruct (dict.mem (nodes (model st)) nid) eqn:Hmem; [|discriminate].
  cbn [negb].
  set (old := match dict.get (loads (model st)) nid with
              | Some w => w
              | None => np.zeros 7
              end).
  assert (Hold : List.length old = 7).
  { unfold old. destruct (dict.get (loads (model st)) nid) eqn:Hget.
    - apply dict_get_in in Hget. now apply Hls in Hget.
    - apply length_zeros. }
  unfold mbind at 1.
  match goal with |- context [lift ?r st] => destruct r as [new|e] eqn:Hnew end;
    unfold lift; [|discriminate].
  assert (Hlen : List.length new = 7).
  { destruct v as [|c [|c' v']].
    - cbn in Hnew. rewrite Hold in Hnew. discriminate.
    - injection Hnew as <-. now rewrite length_map.
    - destruct (Nat.eqb_spec (List.length (c :: c' :: v')) (List.length old)) as [He|];
        [|discriminate].
      injection Hnew as <-. unfold np.vadd. rewrite length_map2; auto. }
  unfold set_model. intros [= <-].
  keep_dof_map st.
  split; [|reflexivity].
  split; [split; [|split]|split; [split|]]; cbn [model heap nodes constraints loads]; auto.
  - now apply dict_set_nodup.
  - intros k l Hin. apply dict_set_inv in Hin. destruct Hin as [[-> ->] | Hin].
    + split; [now apply dict_mem_key | exact Hlen].
    + now apply Hls.
Qed.

Lemma run_call_consistent (c : call) (st st' : state F) :
  consistent st -> (forall r, In r (call_refs c) -> ~ In r (node_refs st)) ->
  run_call c st = Ok (tt, st') ->
  consistent st' /\ node_refs st' = node_refs st ++ call_refs c.
Proof.
  intros Hc Hfresh. destruct c as [node | element | nid d | nid v];
    cbn [run_call call_refs]; rewrite ?app_nil_r.
  - apply add_node_consistent; [exact Hc|]. apply Hfresh. now left.
  - now apply add_element_consistent.
  - now apply add_constraint_consistent.
  - now apply add_load_consistent.
Qed.

Lemma nodup_app_disjoint {X : Type} (l l' : list X) (a : X) :
  NoDup (l ++ l') -> In a l' -> ~ In a l.
Proof.
  induction l as [|b l IH]; cbn; intros Hnd Ha; [tauto|].
  inversion Hnd as [|? ? Hnotin Hnd']; subst.
  intros [-> | Hin]; [|now apply IH].
  apply Hnotin. apply in_or_app. now right.
Qed.

Lemma run_calls_consistent (cs : list call) :
  forall st st', consistent st ->
  NoDup (node_refs st ++ added_refs cs) ->
  for_each cs run_call st = Ok (tt, st') ->
  consistent st'.
Proof.
  induction cs as [|c cs IH]; intros st st' Hc Hnd; cbn [for_each].
  - unfold ret. now intros [= <-].
  - unfold mbind at 1. destruct (run_call c st) as [[[] st1]|e] eqn:Hrun; [|discriminate].
    cbn [added_refs flat_map] in Hnd. fold (added_refs cs) in Hnd.
    destruct (run_call_consistent c st st1 Hc) as [Hc1 Hrefs]; [|exact Hrun|].
    + intros r Hr. apply (nodup_app_disjoint _ _ r Hnd). apply in_or_app. now left.
    + apply (IH st1 st' Hc1). rewrite Hrefs, <- app_assoc. exact Hnd.
Qed.

Definition fresh_state (h : store) : state F :=
  {| model := Model.__init__; heap := h |}.

Lemma fresh_consistent (h : store) : consistent (fresh_state h).
Proof.
  unfold consistent, model_wf, nodes_wf, loads_wf. cbn.
  repeat split; try (now constructor); try discriminate;
    try (now intros ? []); try (now intros ? ? []); contradiction.
Qed.

(** X13: for a model built from an empty one by any calls of
    [add_node], [add_element], [add_constraint] and [add_load] that
    returned (the nodes being distinct objects), [get_load_vector]
    returns a vector with 7 entries per node, and
    [get_constrained_dofs] fails only on an index outside [-7, 6]:
    no key is ever missing. *)
Theorem built_model_vectors (h : store) (cs : list call) (st : state F) :
  NoDup (added_refs cs) ->
  for_each cs run_call (fresh_state h) = Ok (tt, st) ->
  (exists Fv st1, Model.get_load_vector st = Ok (Fv, st1) /\
     List.length Fv = 7 * List.length (nodes (model st))) /\
  (exists st1, Model.get_constrained_dofs st =
     if all_in_block (constraints (model st))
     then Ok (npi.unique (constrained_of (dict.keys (nodes (model st)))
                                         (constraints (model st))), st1)
     else Raise IndexError).
Proof.
  intros Hnd Hrun.
  assert (Hc : consistent st).
  { apply (run_calls_consistent cs (fresh_state h) st (fresh_consistent h)); auto. }
  destruct Hc as (Hwf & Hls & _). split.
  - destruct (get_load_vector_spec st Hwf Hls) as (Fv & st1 & _ & HF & Hlen & _).
    eauto.
  - destruct (get_constrained_dofs_spec st Hwf) as (st1 & _ & Hcd). eauto.
Qed.

End Calls.

Lemma rank_app (l : list Z) (a k : Z) :
  rank (l ++ [a]) k = rank l k + (if (a <? k)%Z then 1 else 0).
Proof.
  unfold rank. rewrite filter_app, length_app. cbn [filter].
  destruct (a <? k)%Z; reflexivity.
Qed.

Section Renumbering.
Context {F : Type} {SF : Scalar F}.

(** X14: [add_node] refuses an id that is already in the model with
    [ValueError]; otherwise it discards the DOF map, so that the next
    method that needs one numbers the nodes again: the new node gets
    the block of its rank, and the nodes with a larger id move up by
    7. *)
Theorem add_node_renumbers (st : state F) (node : Node F) :
  consistent st ->
  ~ In (ref node) (node_refs st) ->
  match Model.add_node node st with
  | Raise e => e = ValueError /\ In (id node) (dict.keys (nodes (model st)))
  | Ok (_, st1) =>
      ~ In (id node) (dict.keys (nodes (model st))) /\
      exists Fv st2,
        Model.get_load_vector st1 = Ok (Fv, st2) /\
        List.length Fv = 7 * (List.length (nodes (model st)) + 1) /\
        dof_indices (heap st2) node =
          seq (7 * rank (dict.keys (nodes (model st))) (id node)) 7 /\
        forall nid nd, In (nid, nd) (nodes (model st)) ->
          dof_indices (heap st2) nd =
          seq (7 * (rank (dict.keys (nodes (model st))) nid +
                    (if (id node <? nid)%Z then 1 else 0))) 7
  end.
Proof.
  intros Hc Hfresh.
  destruct (Model.add_node node st) as [[[] st1]|e] eqn:Hadd.
  - destruct (add_node_consistent st st1 node Hc Hfresh Hadd) as [(Hwf1 & Hls1 & _) _].
    assert (Hnodes : ~ In (id node) (dict.keys (nodes (model st))) /\
                     nodes (model st1) = nodes (model st) ++ [(id node, node)]).
    { revert Hadd. unfold Model.add_node, mbind, gets, dict.mem.
      destruct (dict.get (nodes (model st)) (id node)) eqn:Hget; [discriminate|].
      unfold set_model. intros [= <-]. cbn [model nodes].
      split; [now apply dict_get_none | now apply dict_set_fresh]. }
    destruct Hnodes as [Hnew Hnodes]. split; [exact Hnew|].
    destruct (get_load_vector_spec st1 Hwf1 Hls1) as (Fv & st2 & Hmap & HF & Hlen & _).
    exists Fv, st2. split; [exact HF|].
    destruct Hmap as (_ & _ & _ & _ & _ & _ & Hblock).
    rewrite Hnodes in Hlen, Hblock.
    unfold dict.keys in Hblock. rewrite map_app in Hblock. cbn [map fst] in Hblock.
    fold (dict.keys (nodes (model st))) in Hblock.
    split; [now rewrite Hlen, length_app|]. split.
    + unfold dof_indices. rewrite (Hblock (id node) node) by (apply in_or_app; right; now left).
      rewrite rank_app, Z.ltb_irrefl. do 2 f_equal. lia.
    + intros nid nd Hin. unfold dof_indices.
      rewrite (Hblock nid nd) by (apply in_or_app; now left).
      now rewrite rank_app.
  - revert Hadd. unfold Model.add_node, mbind, gets.
    destruct (dict.mem (nodes (model st)) (id node)) eqn:Hmem.
    + unfold raise. intros [= <-]. split; [reflexivity | now apply dict_mem_key].
    + unfold set_model. discriminate.
Qed.

End Renumbering.

Section DictSetAgain.
Context {V : Type}.

Lemma dict_get_set_ne (d : list (Z * V)) (k k' : Z) (v : V) :
  k' <> k -> dict.get (dict.set d k v) k' = dict.get d k'.
Proof.
  intros Hne. induction d as [|[k0 v0] t IH]; cbn.
  - destruct (Z.eqb_spec k k'); [congruence | reflexivity].
  - destruct (Z.eqb_spec k0 k) as [-> | Hk]; cbn.
    + destruct (Z.eqb_spec k k'); [congruence | reflexivity].
    + destruct (Z.eqb_spec k0 k'); [reflexivity | exact IH].
Qed.

Lemma dict_set_set (d : list (Z * V)) (k : Z) (v w : V) :
  dict.set (dict.set d k v) k w = dict.set d k w.
Proof.
  induction d as [|[k0 v0] t IH]; cbn.
  - now rewrite Z.eqb_refl.
  - destruct (Z.eqb_spec k0 k) as [-> | Hk]; cbn.
    + now rewrite Z.eqb_refl.
    + destruct (Z.eqb_spec k0 k); [contradiction | now rewrite IH].
Qed.

End DictSetAgain.

Lemma pyset_add_present (s : list Z) (a : Z) : In a s -> pyset.add s a = s.
Proof.
  intros H. unfold pyset.add.
  replace (existsb (Z.eqb a) s) with true; [reflexivity|].
  symmetry. apply existsb_exists. exists a. split; [exact H | apply Z.eqb_refl].
Qed.

Section Mutators.
Context {F : Type} {SF : Scalar F}.

(** X15: [add_constraint] raises [ValueError] exactly when the node is
    not in the model; after a call that returned, the same call again
    leaves the model unchanged (the constraints of a node form a
    set). *)
Theorem add_constraint_idempotent (st : state F) (nid d : Z) :
  match Model.add_constraint nid d st with
  | Raise e => e = ValueError /\ ~ In nid (dict.keys (nodes (model st)))
  | Ok (_, st1) =>
      In nid (dict.keys (nodes (model st))) /\
      Model.add_constraint nid d st1 = Ok (tt, st1)
  end.
Proof.
  unfold Model.add_constraint at 1. unfold mbind, gets.
  destruct (dict.mem (nodes (model st)) nid) eqn:Hmem; cbn [negb].
  - unfold set_model. split; [now apply dict_mem_key|].
    unfold Model.add_constraint, mbind, gets. cbn [model nodes constraints].
    rewrite Hmem. cbn [negb]. unfold set_model. cbn [model heap nodes elements
      constraints loads _dof_map_generated total_dofs].
    rewrite dict_get_set_eq.
    rewrite (pyset_add_present (pyset.add _ d) d) by apply pyset_add_in.
    now rewrite dict_set_set.
  - unfold raise. split; [reflexivity|].
    intros Hin. apply dict_mem_key in Hin. congruence.
Qed.

(** X16: two loads of 7 entries added to the same node add up entry
    by entry on top of what the node carried before (zero at first),
    the loads of the other nodes stay as they are, and the calls raise
    [ValueError] exactly when the node is not in the model. *)
Theorem add_load_accumulates (st : state F) (nid : Z) (v w : list F) :
  consistent st ->
  List.length v = 7 -> List.length w = 7 ->
  match (Model.add_load nid v ;;; Model.add_load nid w)%M st with
  | Raise e => e = ValueError /\ ~ In nid (dict.keys (nodes (model st)))
  | Ok (_, st2) =>
      In nid (dict.keys (nodes (model st))) /\
      dict.get (loads (model st2)) nid =
        Some (np.vadd (np.vadd (match dict.get (loads (model st)) nid with
                                | Some old => old
                                | None => np.zeros 7
                                end) v) w) /\
      forall k, k <> nid ->
        dict.get (loads (model st2)) k = dict.get (loads (model st)) k
  end.
Proof.
  intros (_ & (_ & Hls) & _) Hv Hw.
  unfold mbind at 1. unfold Model.add_load at 1. unfold mbind at 1, gets at 1.
  destruct (dict.mem (nodes (model st)) nid) eqn:Hmem; cbn [negb].
  2:{ unfold raise. split; [reflexivity|].
      intros Hin. apply dict_mem_key in Hin. congruence. }
  set (old := match dict.get (loads (model st)) nid with
              | Some o => o
              | None => np.zeros 7
              end).
  assert (Hold : List.length old = 7).
  { unfold old. destruct (dict.get (loads (model st)) nid) eqn:Hget.
    - apply dict_get_in in Hget. now apply Hls in Hget.
    - apply length_zeros. }
  assert (Hadd : forall (o u : list F), List.length o = 7 -> List.length u = 7 ->
            match u with
            | [c] => Ok (map (fun a => fadd a c) o)
            | _ => if Nat.eqb (List.length u) (List.length o)
                   then Ok (np.vadd o u) else Raise ValueError
            end = Ok (np.vadd o u)).
  { intros o u Ho Hu. destruct u as [|c [|c' u']]; try (cbn in Hu; lia).
    now rewrite Hu, Ho. }
  rewrite (Hadd old v Hold Hv).
  unfold mbind at 1, lift at 1, set_model at 1.
  unfold Model.add_load, mbind, gets. cbn [model nodes loads]. rewrite Hmem. cbn [negb].
  rewrite dict_get_set_eq.
  rewrite (Hadd (np.vadd old v) w) by (try rewrite length_vadd; congruence).
  unfold lift, set_model. cbn [model loads].
  split; [now apply dict_mem_key|]. split.
  - now rewrite dict_set_set, dict_get_set_eq.
  - intros k Hk. now rewrite dict_set_set, dict_get_set_ne.
Qed.

End Mutators.

(** ** The geometric stiffness matrix of the model *)

Section GeometricAssembly.
Context {F : Type} {SF : Scalar F}.
Local Open Scope scalar_scope.

(** A force that [assemble_geometric_stiffness] skips. *)
Definition negligible (P : F) : bool := fabs P <? py.dec 1 9.

Definition geometric_step (forces : list F) (Kg_global : np.matrix F)
    (iel : nat * Beam3D F) : M F (np.matrix F) :=
  (P <- lift (match nth_error forces (fst iel) with
              | Some P => Ok P
              | None => Raise IndexError
              end) ;;
   if fabs P <? py.dec 1 9 then ret Kg_global
   else
     kg_el_global <- lift (Beam3D.global_geometric_stiffness_matrix (snd iel) P) ;;
     h <- gets heap ;;
     let dofs := Model.element_dofs h (snd iel) in
     lift (np.ix_iadd_checked Kg_global dofs dofs kg_el_global))%M.

Lemma geometric_loop_negligible (forces : list F) (st : state F) (Kg : np.matrix F) :
  forallb negligible forces = true ->
  forall (els : list (Beam3D F)) (s : nat),
  for_fold (combine (seq s (List.length els)) els) (geometric_step forces) Kg st =
  if (s + List.length els <=? List.length forces)%nat || Nat.eqb (List.length els) 0
  then Ok (Kg, st) else Raise IndexError.
Proof.
  intros Hall. induction els as [|el els IH]; intros s;
    cbn [List.length seq combine for_fold].
  - rewrite orb_true_r. reflexivity.
  - unfold mbind at 1. unfold geometric_step at 1. cbn [fst snd].
    unfold mbind at 1, lift at 1.
    destruct (nth_error forces s) as [P|] eqn:HP.
    + assert (Hs : (s < List.length forces)%nat)
        by (apply nth_error_Some; congruence).
      assert (Hneg : negligible P = true).
      { rewrite forallb_forall in Hall. apply Hall. eapply nth_error_In; eauto. }
      unfold negligible in Hneg. rewrite Hneg. unfold ret at 1.
      rewrite IH. cbn [Nat.eqb]. rewrite orb_false_r.
      destruct els as [|e els'].
      * cbn [List.length Nat.eqb]. rewrite orb_true_r.
        replace (s + 1 <=? List.length forces)%nat with true
          by (symmetry; apply Nat.leb_le; lia). reflexivity.
      * cbn [List.length Nat.eqb]. rewrite orb_false_r.
        replace (S s + S (List.length els'))%nat
          with (s + S (S (List.length els')))%nat by lia. reflexivity.
    + apply nth_error_None in HP. cbn [Nat.eqb]. rewrite orb_false_r.
      replace (s + S (List.length els) <=? List.length forces)%nat with false
        by (symmetry; apply Nat.leb_gt; lia). reflexivity.
Qed.

Lemma geometric_stiffness_zero_run (st : state F) (forces : list F) :
  _dof_map_generated (model st) = true ->
  forallb negligible forces = true ->
  Model.assemble_geometric_stiffness forces st =
  if (List.length (elements (model st)) <=? List.length forces)%nat
  then Ok (np.zeros2 (total_dofs (model st)) (total_dofs (model st)), st)
  else Raise IndexError.
Proof.
  intros Hg Hall. unfold Model.assemble_geometric_stiffness.
  unfold mbind at 1. rewrite (ensure_dof_map_current st Hg).
  unfold mbind at 1, gets at 1. unfold py.enumerate.
  change (for_fold (combine (seq 0 (List.length (elements (model st)))) (elements (model st))) _)
    with (for_fold (combine (seq 0 (List.length (elements (model st)))) (elements (model st)))
            (geometric_step forces)).
  rewrite (geometric_loop_negligible forces st _ Hall). cbn [Nat.add].
  destruct (elements (model st)) as [|el els]; [reflexivity|].
  cbn [List.length Nat.eqb]. now rewrite orb_false_r.
Qed.


(** X17: when every given axial force is below 1e-9 in magnitude,
    [assemble_geometric_stiffness] returns the zero matrix; if the list
    holds fewer forces than the model has elements it raises
    [IndexError] instead. *)
Theorem geometric_stiffness_negligible (st : state F) (forces : list F) :
  _dof_map_generated (model st) = true ->
  forallb negligible forces = true ->
  Model.assemble_geometric_stiffness forces st =
  if (List.length (elements (model st)) <=? List.length forces)%nat
  then Ok (np.zeros2 (total_dofs (model st)) (total_dofs (model st)), st)
  else Raise IndexError.
Proof. exact (geometric_stiffness_zero_run st forces). Qed.

End GeometricAssembly.

(** ** The geometric stiffness matrix of a model: forces that count *)

Section GeometricAssemblyCases.
Context {F : Type} {SF : Scalar F}.
Local Open Scope scalar_scope.

Lemma geometric_stiffness_run (b : Beam3D F) (P : F) :
  (A (section b) =? #0) = false ->
  exists kg, Beam3D.geometric_stiffness_matrix b P = Ok kg /\
    dims 14 14 kg /\ symmetric_matrix kg.
Proof.
  intros HA. unfold Beam3D.geometric_stiffness_matrix, py.truediv.
  rewrite HA. cbn [bind].
  generalize (Beam3D.length b); intro L.
  generalize ((Iy (section b) + Iz (section b)) / A (section b)); intro r0.
  match goal with |- exists kg, Ok ?k = Ok kg /\ _ => set (kg := k) end.
  assert (Hs : np.shape_is 14 14 kg).
  { cbv. split; [reflexivity | repeat constructor]. }
  assert (Ht : np.transpose kg = kg) by (cbv; reflexivity).
  exists kg. split; [reflexivity|]. split; [now apply dims_shape|].
  intros i j. rewrite <- Ht at 1. now apply mget_transpose with (r := 14) (c := 14).
Qed.

Lemma global_geometric_stiffness_run (b : Beam3D F) (P : F) :
  (A (section b) =? #0) = false ->
  exists kg, Beam3D.geometric_stiffness_matrix b P = Ok kg /\
    dims 14 14 kg /\ symmetric_matrix kg /\
    Beam3D.global_geometric_stiffness_matrix b P =
      Ok (np.matmul (np.matmul (np.transpose (Beam3D.transformation_matrix b)) kg)
                    (Beam3D.transformation_matrix b)) /\
    dims 14 14 (np.matmul (np.matmul (np.transpose (Beam3D.transformation_matrix b)) kg)
                          (Beam3D.transformation_matrix b)).
Proof.
  intros HA. destruct (geometric_stiffness_run b P HA) as (kg & Hkg & Hd & Hs).
  exists kg. split; [exact Hkg|]. split; [exact Hd|]. split; [exact Hs|].
  split.
  - unfold Beam3D.global_geometric_stiffness_matrix. rewrite Hkg. reflexivity.
  - pose proof (transformation_dims b) as HT.
    eapply dims_matmul; [|exact HT|lia].
    eapply dims_matmul; [|exact Hd|lia].
    apply dims_transpose; [exact HT | lia].
Qed.

Lemma global_geometric_stiffness_no_area (b : Beam3D F) (P : F) :
  (A (section b) =? #0) = true ->
  Beam3D.global_geometric_stiffness_matrix b P = Raise ZeroDivisionError.
Proof.
  intros HA.
  unfold Beam3D.global_geometric_stiffness_matrix, Beam3D.geometric_stiffness_matrix,
    py.truediv.
  rewrite HA. reflexivity.
Qed.

(** Adding a 14x14 matrix at the DOFs of an element that connects
    nodes of the model. *)
Lemma ix_iadd_checked_mapped (st : state F) (K0 : np.matrix F) (el : Beam3D F)
    (k : np.matrix F) :
  dof_map_of st st -> connects (nodes (model st)) el ->
  let n := (7 * List.length (nodes (model st)))%nat in
  let dofs := Model.element_dofs (heap st) el in
  dims n n K0 -> dims 14 14 k ->
  np.ix_iadd_checked K0 dofs dofs k = Ok (np.ix_iadd K0 dofs dofs k) /\
  dims n n (np.ix_iadd K0 dofs dofs k) /\
  (symmetric_matrix K0 -> symmetric_matrix k ->
   symmetric_matrix (np.ix_iadd K0 dofs dofs k)).
Proof.
  intros Hmap Hel n dofs HK0 Hd.
  destruct (element_dofs_mapped st el Hmap Hel) as (Hlen & Hnd & Hin).
  fold n in Hin. fold dofs in Hlen, Hnd, Hin.
  assert (Hpos : (0 < n)%nat).
  { destruct Hel as (k1 & _ & H1 & _). unfold n.
    destruct (nodes (model st)); [destruct H1 | cbn; lia]. }
  split; [|split].
  - unfold np.ix_iadd_checked.
    rewrite (dims_ncols _ _ _ HK0 Hpos), (proj1 HK0), Hin. cbn [andb negb].
    rewrite Hlen, (proj1 Hd), (dims_ncols _ _ _ Hd ltac:(lia)). reflexivity.
  - apply ix_iadd_entries; try assumption; now rewrite Hlen.
  - intros Hs Hsel. apply (ix_iadd_symmetric n); try assumption. now rewrite Hlen.
Qed.

(** The elements from position [s] on, with the forces at their
    positions: what the loop of [assemble_geometric_stiffness] does. *)
Lemma geometric_loop (st : state F) (forces : list F) :
  dof_map_of st st ->
  let n := (7 * List.length (nodes (model st)))%nat in
  forall (els : list (Beam3D F)) (s : nat) (K0 : np.matrix F),
  Forall (connects (nodes (model st))) els ->
  (s + List.length els <= List.length forces)%nat ->
  dims n n K0 ->
  match for_fold (combine (seq s (List.length els)) els) (geometric_step forces) K0 st with
  | Ok (K, st1) =>
      st1 = st /\ dims n n K /\
      (forall i el P, nth_error els i = Some el -> nth_error forces (s + i)%nat = Some P ->
         negligible P = false -> (A (section el) =? #0) = false) /\
      ((forall b P kg, Beam3D.global_geometric_stiffness_matrix b P = Ok kg ->
          symmetric_matrix kg) ->
       symmetric_matrix K0 -> symmetric_matrix K)
  | Raise e =>
      e = ZeroDivisionError /\
      exists i el P, nth_error els i = Some el /\ nth_error forces (s + i)%nat = Some P /\
        negligible P = false /\ (A (section el) =? #0) = true
  end.
Proof.
  intros Hmap n els. induction els as [|el els IH]; intros s K0 Hels Hlen HK0;
    cbn [List.length seq combine for_fold].
  - unfold ret. split; [reflexivity|]. split; [exact HK0|]. split.
    + intros i el P Hi. destruct i; discriminate.
    + intros _ Hs. exact Hs.
  - cbn [List.length] in Hlen. inversion Hels as [|? ? Hel Hels']; subst.
    destruct (nth_error forces s) as [P|] eqn:HP.
    2:{ apply nth_error_None in HP. lia. }
    assert (Hnext : forall K1, dims n n K1 ->
              (A (section el) =? #0) = false \/ negligible P = true ->
              ((forall b P kg, Beam3D.global_geometric_stiffness_matrix b P = Ok kg ->
                  symmetric_matrix kg) ->
               symmetric_matrix K0 -> symmetric_matrix K1) ->
              match for_fold (combine (seq (S s) (List.length els)) els)
                      (geometric_step forces) K1 st with
              | Ok (K, st1) =>
                  st1 = st /\ dims n n K /\
                  (forall i el0 P0, nth_error (el :: els) i = Some el0 ->
                     nth_error forces (s + i)%nat = Some P0 ->
                     negligible P0 = false -> (A (section el0) =? #0) = false) /\
                  ((forall b P kg, Beam3D.global_geometric_stiffness_matrix b P = Ok kg ->
                      symmetric_matrix kg) ->
                   symmetric_matrix K0 -> symmetric_matrix K)
              | Raise e =>
                  e = ZeroDivisionError /\
                  exists i el0 P0, nth_error (el :: els) i = Some el0 /\
                    nth_error forces (s + i)%nat = Some P0 /\
                    negligible P0 = false /\ (A (section el0) =? #0) = true
              end).
    { intros K1 HK1 Hhere Hsym1.
      specialize (IH (S s) K1 Hels' ltac:(lia) HK1).
      destruct (for_fold (combine (seq (S s) (List.length els)) els)
                  (geometric_step forces) K1 st) as [[K st1]|e].
      - destruct IH as (-> & HdK & Hok & HsK).
        split; [reflexivity|]. split; [exact HdK|]. split.
        + intros [|i] el0 P0 Hi HPi Hneg; cbn [nth_error] in Hi.
          * injection Hi as <-. rewrite Nat.add_0_r, HP in HPi. injection HPi as <-.
            destruct Hhere as [Hh | Hh]; [exact Hh | congruence].
          * apply (Hok i el0 P0 Hi); [|exact Hneg].
            now replace (S s + i)%nat with (s + S i)%nat by lia.
        + intros Hall Hs0. apply HsK; [exact Hall|]. now apply Hsym1.
      - destruct IH as (-> & i & el0 & P0 & Hi & HPi & Hneg & HA).
        split; [reflexivity|]. exists (S i), el0, P0.
        split; [exact Hi|]. split; [|split; assumption].
        now replace (s + S i)%nat with (S s + i)%nat by lia. }
    unfold mbind at 1. unfold geometric_step at 1. cbn [fst snd].
    unfold mbind at 1, lift at 1. rewrite HP.
    destruct (fabs P <? py.dec 1 9) eqn:Hneg.
    + unfold ret at 1. apply Hnext; [exact HK0 | now right | auto].
    + destruct (A (section el) =? #0) eqn:HA.
      * unfold mbind at 1, lift at 1.
        rewrite (global_geometric_stiffness_no_area el P HA).
        split; [reflexivity|]. exists 0%nat, el, P.
        rewrite Nat.add_0_r. repeat split; assumption.
      * destruct (global_geometric_stiffness_run el P HA)
          as (kg & _ & _ & _ & HG & HdG).
        unfold mbind at 1, lift at 1. rewrite HG.
        unfold mbind at 1, gets at 1.
        destruct (ix_iadd_checked_mapped st K0 el _ Hmap Hel HK0 HdG) as (Hrun & Hd & Hs).
        unfold lift at 1. rewrite Hrun.
        apply Hnext; [exact Hd | now left |].
        intros Hall Hs0. apply Hs; [exact Hs0|]. eapply Hall. exact HG.
Qed.

Lemma assemble_geometric_stiffness_loop (st : state F) (forces : list F) :
  _dof_map_generated (model st) = true ->
  Model.assemble_geometric_stiffness forces st =
  for_fold (combine (seq 0 (List.length (elements (model st)))) (elements (model st)))
    (geometric_step forces)
    (np.zeros2 (total_dofs (model st)) (total_dofs (model st))) st.
Proof.
  intros Hg. unfold Model.assemble_geometric_stiffness.
  unfold mbind at 1. rewrite (ensure_dof_map_current st Hg). reflexivity.
Qed.

(** X26: on a model with a current DOF map whose elements connect
    nodes of the model, and with a force for every element,
    [assemble_geometric_stiffness] either returns a square matrix with
    7 rows per node and leaves the model as it is, or raises
    [ZeroDivisionError]; it raises exactly when some element with a
    force of at least 1e-9 in magnitude has a section of area zero. *)
Theorem assemble_geometric_stiffness_cases (st : state F) (forces : list F) :
  assembled st ->
  (List.length (elements (model st)) <= List.length forces)%nat ->
  match Model.assemble_geometric_stiffness forces st with
  | Ok (Kg, st1) =>
      st1 = st /\
      dims (7 * List.length (nodes (model st)))%nat
           (7 * List.length (nodes (model st)))%nat Kg /\
      forall i el P,
        nth_error (elements (model st)) i = Some el -> nth_error forces i = Some P ->
        negligible P = false -> (A (section el) =? #0) = false
  | Raise e =>
      e = ZeroDivisionError /\
      exists i el P,
        nth_error (elements (model st)) i = Some el /\ nth_error forces i = Some P /\
        negligible P = false /\ (A (section el) =? #0) = true
  end.
Proof.
  intros (Hmap & Hels) Hlen.
  pose proof Hmap as (_ & _ & _ & _ & Hg & Htot & _).
  rewrite (assemble_geometric_stiffness_loop st forces Hg), Htot.
  pose proof (geometric_loop st forces Hmap (elements (model st)) 0%nat _
                Hels Hlen (dims_zeros2 _ _)) as H.
  destruct (for_fold _ _ _ st) as [[Kg st1]|e].
  - destruct H as (-> & Hd & Hok & _).
    split; [reflexivity|]. split; [exact Hd|]. exact Hok.
  - exact H.
Qed.

(** X25: [global_geometric_stiffness_matrix] raises
    [ZeroDivisionError] exactly when the area of the section compares
    equal to zero, and otherwise returns the 14x14 matrix [T^T kg T]
    built on the local geometric stiffness matrix [kg]. *)
Theorem global_geometric_stiffness_cases (b : Beam3D F) (P : F) :
  match Beam3D.global_geometric_stiffness_matrix b P with
  | Ok Kg =>
      (A (section b) =? #0) = false /\ dims 14 14 Kg /\
      exists kg,
        Beam3D.geometric_stiffness_matrix b P = Ok kg /\ dims 14 14 kg /\
        Kg = np.matmul (np.matmul (np.transpose (Beam3D.transformation_matrix b)) kg)
                       (Beam3D.transformation_matrix b)
  | Raise e => e = ZeroDivisionError /\ (A (section b) =? #0) = true
  end.
Proof.
  destruct (A (section b) =? #0) eqn:HA.
  - rewrite (global_geometric_stiffness_no_area b P HA). split; reflexivity.
  - destruct (global_geometric_stiffness_run b P HA) as (kg & Hkg & Hd & _ & -> & HD).
    split; [reflexivity|]. split; [exact HD|].
    exists kg. split; [exact Hkg|]. split; [exact Hd | reflexivity].
Qed.

End GeometricAssemblyCases.

(** ** Element forces *)

Section ElementForces.
Context {F : Type} {SF : Scalar F}.

Definition forces_step (u : np.vector F) (forces : list (np.vector F)) (el : Beam3D F)
  : M F (list (np.vector F)) :=
  (h <- gets heap ;;
   let dofs := Model.element_dofs h el in
   u_global <- lift (np.take_checked u dofs) ;;
   let T := Beam3D.transformation_matrix el in
   u_local <- lift (np.matvec_checked T u_global) ;;
   let k_local := Beam3D.local_stiffness_matrix el in
   let f_local := np.matvec k_local u_local in
   ret (forces ++ [f_local]))%M.

(** The force vector of one element for the displacements [u]. *)
Definition element_force (h : store) (u : np.vector F) (el : Beam3D F) : np.vector F :=
  np.matvec (Beam3D.local_stiffness_matrix el)
    (np.matvec (Beam3D.transformation_matrix el)
       (np.take u (Model.element_dofs h el))).

Lemma forces_step_run (st : state F) (u : np.vector F) (el : Beam3D F)
    (acc : list (np.vector F)) :
  dof_map_of st st ->
  List.length u = 7 * List.length (nodes (model st)) ->
  connects (nodes (model st)) el ->
  forces_step u acc el st = Ok (acc ++ [element_force (heap st) u el], st).
Proof.
  intros Hmap Hu Hel.
  destruct (element_dofs_mapped st el Hmap Hel) as (Hlen & _ & Hin).
  rewrite <- Hu in Hin.
  destruct (transformation_rows el) as [_ Hc].
  unfold forces_step, element_force.
  generalize dependent (Beam3D.transformation_matrix el). intros T HT.
  generalize (Beam3D.local_stiffness_matrix el). intros k.
  unfold mbind, gets, lift, np.take_checked, np.matvec_checked, ret.
  rewrite Hin, HT, length_take, Hlen. reflexivity.
Qed.

Lemma forces_loop (st : state F) (u : np.vector F) :
  dof_map_of st st ->
  List.length u = 7 * List.length (nodes (model st)) ->
  forall els, Forall (connects (nodes (model st))) els ->
  forall acc,
  for_fold els (forces_step u) acc st =
  Ok (acc ++ map (element_force (heap st) u) els, st).
Proof.
  intros Hmap Hu. induction 1 as [|el els Hel Hels IH]; intros acc; cbn [for_fold map].
  - now rewrite app_nil_r.
  - unfold mbind at 1. rewrite (forces_step_run st u el acc Hmap Hu Hel).
    rewrite IH, <- app_assoc. reflexivity.
Qed.

(** X18: on a model with a current DOF map whose elements connect
    nodes of the model, and for a displacement vector with 7 entries
    per node, [compute_element_forces] raises nothing and returns one
    vector of 14 entries per element. *)
Theorem element_forces_shape (st : state F) (u : np.vector F) :
  assembled st ->
  List.length u = 7 * List.length (nodes (model st)) ->
  exists forces,
    StaticSolver.compute_element_forces u st = Ok (forces, st) /\
    List.length forces = List.length (elements (model st)) /\
    Forall (fun f => List.length f = 14) forces.
Proof.
  intros (Hmap & Hels) Hu.
  exists (map (element_force (heap st) u) (elements (model st))). split; [|split].
  - unfold StaticSolver.compute_element_forces. unfold mbind at 1, gets at 1.
    change (for_fold (elements (model st)) _ [] st)
      with (for_fold (elements (model st)) (forces_step u) [] st).
    rewrite (forces_loop st u Hmap Hu _ Hels). reflexivity.
  - apply length_map.
  - apply Forall_map, Forall_forall. intros el _. unfold element_force, np.matvec.
    rewrite length_map. exact (proj1 (local_stiffness_shape el)).
Qed.

End ElementForces.

Lemma ix_get_zeros2 {F : Type} {SF : Scalar F} (r c : nat) (rows cols : list nat) :
  np.ix_get (np.zeros2 r c : np.matrix F) rows cols =
  np.zeros2 (List.length rows) (List.length cols).
Proof.
  unfold np.ix_get.
  rewrite (map_ext _ (fun _ => np.zeros (List.length cols))).
  - unfold np.zeros2. induction rows as [|i rows IH]; cbn; [reflexivity | now rewrite IH].
  - intros i. rewrite (map_ext _ (fun _ => of_Z 0)) by (intros j; apply mget_zeros2).
    unfold np.zeros. induction cols as [|j cols IH]; cbn; [reflexivity | now rewrite IH].
Qed.

Section ModeCount.
Context {F : Type} {SF : Scalar F}.

(** [select_modes] for any [num_modes]: the valid positions in
    ascending order of their eigenvalue, then the slice [[:num_modes]]. *)
Lemma select_modes_slice (vals : list (complex F)) (vecs : list (list (complex F)))
    (num_modes : Z) :
  total_on (map (value vals) (valid_positions vals)) ->
  exists order : list nat,
    Permutation order (valid_positions vals) /\
    Sorted (fun a b => fleb a b = true) (map (value vals) order) /\
    BucklingSolver.select_modes vals vecs num_modes =
      (py.slice_to (map (value vals) order) num_modes,
       match order with
       | [] => []
       | _ => map (fun row => py.slice_to row num_modes)
                  (BucklingSolver.columns (of_Z 0, of_Z 0) vecs order)
       end).
Proof.
  intros Htot.
  set (vi := valid_positions vals) in *.
  set (valid_vals := map (value vals) vi) in *.
  set (idx := BucklingSolver.argsort valid_vals).
  assert (Hperm : Permutation idx (seq 0 (List.length vi))).
  { unfold idx. rewrite argsort_perm. unfold valid_vals. now rewrite length_map. }
  assert (Hidx : forall k, In k idx -> k < List.length vi).
  { intros k Hk. apply (Permutation_in _ Hperm) in Hk. apply in_seq in Hk. lia. }
  assert (Hget : np.take valid_vals idx =
                 map (value vals) (map (fun k => nth k vi 0) idx)).
  { unfold np.take. rewrite map_map. apply map_ext_in. intros k Hk.
    unfold np.get, valid_vals. apply nth_map_in. auto. }
  exists (map (fun k => nth k vi 0) idx). split; [|split].
  - etransitivity; [apply Permutation_map, Hperm|].
    now rewrite map_nth_seq.
  - rewrite <- Hget. apply sorted_values, argsort_sorted, Htot.
  - unfold BucklingSolver.select_modes.
    rewrite valid_indices_positions. fold vi.
    destruct (Nat.eq_dec (List.length vi) 0) as [H0 | Hpos].
    + apply length_zero_iff_nil in H0.
      assert (Hi0 : idx = []).
      { apply Permutation_nil. rewrite Hperm, H0. reflexivity. }
      rewrite Hi0, H0. cbn [map]. unfold py.slice_to. cbn [List.length].
      now rewrite !firstn_nil, Tauto.if_same.
    + rewrite (match_nonempty vi) by (intros H0; apply Hpos; now rewrite H0).
      rewrite (match_nonempty (map (fun k => nth k vi 0) idx)).
      2:{ intros H0. apply map_eq_nil in H0. rewrite H0 in Hperm.
          apply Permutation_nil in Hperm. apply Hpos.
          apply (f_equal (@List.length nat)) in Hperm.
          rewrite length_seq in Hperm. now symmetry. }
      fold (value vals). fold valid_vals. fold idx.
      f_equal.
      * now rewrite Hget.
      * unfold BucklingSolver.columns. rewrite !map_map. apply map_ext. intros row.
        f_equal. rewrite map_map.
        apply map_ext_in. intros k Hk.
        apply (nth_map_in (fun i => nth i row (of_Z 0, of_Z 0))). auto.
Qed.

End ModeCount.

Section ModeCountClaim.
Variable linalg_solve : np.matrix float -> np.vector float -> result (np.vector float).
Variable eig : np.matrix float -> np.matrix float ->
               result (list (complex float) * list (list (complex float))).

(** X20: [BucklingSolver.solve] does not validate [num_modes]: with 0
    it returns no mode, and with a negative number the slice
    [[:num_modes]] drops that many modes from the upper end of the
    ascending list of valid eigenvalues. *)
Theorem buckling_nonpositive_num_modes
    (st st' : state float) (K_ff Kg_ff : np.matrix float) (free : list nat)
    (vals : list (complex float)) (vecs : list (list (complex float)))
    (num_modes : Z) :
  (num_modes <= 0)%Z ->
  BucklingSolver.stability_matrices linalg_solve st = Ok ((K_ff, Kg_ff, free), st') ->
  eig K_ff (np.mneg Kg_ff) = Ok (vals, vecs) ->
  exists order : list nat,
    Permutation order (valid_positions vals) /\
    Sorted (fun a b => PrimFloat.leb a b = true) (map (value vals) order) /\
    let kept :=
      if (num_modes =? 0)%Z then []
      else firstn (List.length order - Z.to_nat (- num_modes)) order in
    BucklingSolver.solve linalg_solve eig num_modes st =
      Ok ((map (value vals) kept,
           match order with
           | [] => []
           | _ => BucklingSolver.columns (0, 0)%float vecs kept
           end,
           free), st').
Proof.
  intros Hn Hmats Heig.
  destruct (select_modes_slice vals vecs num_modes (valid_values_total vals))
    as (order & Hperm & Hsorted & Hsel).
  exists order. split; [exact Hperm|]. split; [exact Hsorted|].
  cbv zeta. unfold BucklingSolver.solve.
  unfold mbind at 1. rewrite Hmats. cbn [fst snd].
  unfold mbind at 1, lift at 1. rewrite Heig. cbn [fst snd].
  rewrite Hsel. unfold ret. cbn [fst snd]. do 4 f_equal.
  - unfold py.slice_to. rewrite length_map.
    destruct (Z.eqb_spec num_modes 0) as [-> | Hne].
    + reflexivity.
    + replace (num_modes <? 0)%Z with true by (symmetry; apply Z.ltb_lt; lia).
      now rewrite firstn_map.
  - destruct order as [|o order']; [reflexivity|].
    set (ord := o :: order') in *.
    unfold BucklingSolver.columns. rewrite map_map. apply map_ext. intros row.
    unfold py.slice_to. rewrite length_map.
    destruct (Z.eqb_spec num_modes 0) as [-> | Hne].
    + reflexivity.
    + replace (num_modes <? 0)%Z with true by (symmetry; apply Z.ltb_lt; lia).
      now rewrite firstn_map.
Qed.

End ModeCountClaim.

(** X21: for [n_elems <= 0] the API function [solve] always raises:
    [ZeroDivisionError] when [2 * G] is zero (in [Material]) or
    [n_elems] is zero (the x coordinate of the first node), and
    otherwise [ValueError], from the constraint on node 0 of a model
    without nodes. *)
Theorem api_solve_no_elements
    (linalg_solve : np.matrix float -> np.vector float -> result (np.vector float))
    (E0 G0 A0 Iy0 Iz0 J0 Cw0 length : float) (n_elems : Z) (load_val : float) :
  (n_elems <= 0)%Z ->
  api.solve linalg_solve E0 G0 A0 Iy0 Iz0 J0 Cw0 length n_elems load_val =
  Raise (if PrimFloat.eqb (2 * G0) 0 || (n_elems =? 0)%Z
         then ZeroDivisionError else ValueError).
Proof.
  intros Hn. unfold api.solve, api.solve_model.
  unfold mbind at 1. unfold lift at 1, Material.__init__, py.truediv.
  change (@feqb float float_scalar (@fmul float float_scalar (@of_Z float float_scalar 2) G0)
            (@of_Z float float_scalar 0))
    with (PrimFloat.eqb (2 * G0) 0).
  destruct (PrimFloat.eqb (2 * G0) 0); [reflexivity|].
  cbn [bind orb].
  destruct (Z.eqb_spec n_elems 0) as [-> | Hne].
  - reflexivity.
  - unfold builtins.range.
    replace (Z.to_nat (n_elems + 1)) with 0%nat by lia.
    replace (Z.to_nat n_elems) with 0%nat by lia.
    reflexivity.
Qed.

(** ** The cantilever of the API *)







Section PutBlock.
Context {F : Type} {SF : Scalar F}.


End PutBlock.

Section ApiChain.
Context {F : Type} {SF : Scalar F}.
Variable linalg_solve : np.matrix F -> np.vector F -> result (np.vector F).
Variables E0 G0 A0 Iy0 Iz0 J0 Cw0 length : F.
Variable n_elems : Z.
Variable load_val : F.
Local Open Scope scalar_scope.









Hypothesis n_elems_nonzero : (of_Z n_elems =? #0) = false.
























Hypothesis n_elems_positive : (1 <= n_elems)%Z.
Hypothesis G0_nonzero : (of_Z 2 * G0 =? of_Z 0) = false.





End ApiChain.

(** * Binary64 arithmetic: the local frame, coincident nodes and the static solution *)

(** ** Facts about binary64 arithmetic *)

Section Binary64Facts.
Local Open Scope float_scope.

(** A zero of either sign. *)
Definition zero_like (x : float) : Prop := exists s, Prim2SF x = S754_zero s.

Lemma sub_self (x : float) : x - x = 0 \/ x - x = nan.
Proof.
  assert (H : Prim2SF (x - x) = S754_zero false \/ Prim2SF (x - x) = S754_nan).
  { rewrite FloatAxioms.sub_spec. unfold FloatAxioms.SF64sub, SFsub.
    destruct (Prim2SF x) as [s|s| |s m e].
    - left. destruct s; reflexivity.
    - right. destruct s; reflexivity.
    - now right.
    - left. rewrite Z.min_id. unfold shl_align. rewrite Z.sub_diag. cbn iota beta.
      cbn [fst]. reflexivity. }
  destruct H as [H|H]; [left|right]; apply FloatAxioms.Prim2SF_inj; rewrite H; reflexivity.
Qed.

Lemma finite_cases (x : float) :
  ~ nonfinite x ->
  zero_like x \/ exists s m e, Prim2SF x = S754_finite s m e.
Proof.
  unfold nonfinite, zero_like.
  destruct (Prim2SF x) as [s|s| |s m e]; intros H; eauto.
  - exfalso. apply H. eauto.
  - exfalso. apply H. eauto.
Qed.





Lemma zero_like_finite (z : float) : zero_like z -> ~ nonfinite z.
Proof. intros [s Hs] [H | [s' H]]; congruence. Qed.

Lemma mul_zero_r (a : float) : ~ nonfinite a -> zero_like (a * 0).
Proof.
  intros H. unfold zero_like. rewrite FloatAxioms.mul_spec.
  change (Prim2SF 0) with (S754_zero false). unfold FloatAxioms.SF64mul, SFmul.
  destruct (finite_cases a H) as [[s Hs] | (s & m & e & Hs)]; rewrite Hs; eauto.
Qed.


Lemma zero_add_zero_like (z : float) : zero_like z -> 0 + z = 0.
Proof.
  intros [s Hs]. apply FloatAxioms.Prim2SF_inj. rewrite FloatAxioms.add_spec, Hs.
  destruct s; reflexivity.
Qed.






Lemma zero_like_eqb (x : float) : zero_like x -> (x =? 0) = true.
Proof.
  intros [s Hs]. rewrite FloatAxioms.eqb_spec, Hs. destruct s; reflexivity.
Qed.

Lemma finite_not_nonfinite (x : float) :
  PrimFloat.is_finite x = true -> ~ nonfinite x.
Proof. intros H Hn. apply nonfinite_is_finite in Hn. congruence. Qed.

Lemma sub_self_finite (x : float) : PrimFloat.is_finite x = true -> x - x = 0.
Proof.
  intros H. apply finite_not_nonfinite in H.
  apply FloatAxioms.Prim2SF_inj. rewrite FloatAxioms.sub_spec.
  change (Prim2SF 0) with (S754_zero false).
  unfold FloatAxioms.SF64sub, SFsub.
  destruct (finite_cases x H) as [[s Hs] | (s & m & e & Hs)]; rewrite Hs.
  - destruct s; reflexivity.
  - rewrite Z.min_id. unfold shl_align. rewrite Z.sub_diag. cbn iota beta.
    cbn [fst]. reflexivity.
Qed.

Lemma nonzero_finite (d : float) :
  PrimFloat.is_finite d = true -> (d =? 0) = false ->
  exists s m e, Prim2SF d = S754_finite s m e.
Proof.
  intros Hf Hz. apply finite_not_nonfinite in Hf.
  destruct (finite_cases d Hf) as [Hzero | H]; [|exact H].
  apply zero_like_eqb in Hzero. congruence.
Qed.

Lemma zero_div_positive (L : float) (m : positive) (e : Z) :
  Prim2SF L = S754_finite false m e -> 0 / L = 0.
Proof.
  intros HL. apply FloatAxioms.Prim2SF_inj. rewrite FloatAxioms.div_spec, HL.
  reflexivity.
Qed.

Lemma positive_sign (d : float) (s : bool) (m : positive) (e : Z) :
  Prim2SF d = S754_finite s m e -> (0 <? d) = negb s.
Proof.
  intros Hd. rewrite FloatAxioms.ltb_spec, Hd. destruct s; reflexivity.
Qed.

Lemma div_core_same (m : positive) (e : Z) :
  SFdiv_core_binary prec emax (Zpos m) e (Zpos m) e =
  (9007199254740992%Z, (-53)%Z, loc_Exact).
Proof.
  unfold SFdiv_core_binary. rewrite !Z.sub_diag.
  change (Z.min (fexp prec emax 0) 0) with (-53)%Z.
  change (0 - -53)%Z with 53%Z. cbv iota beta zeta.
  rewrite Z.shiftl_mul_pow2 by lia.
  assert (Hq : ((Zpos m * 2 ^ 53) / Zpos m = 9007199254740992)%Z).
  { rewrite Z.mul_comm. apply Z.div_mul. discriminate. }
  assert (Hr : ((Zpos m * 2 ^ 53) mod Zpos m = 0)%Z).
  { rewrite Z.mul_comm. apply Z.mod_mul. discriminate. }
  unfold Z.div in Hq. unfold Z.modulo in Hr.
  destruct (Z.div_eucl (Zpos m * 2 ^ 53) (Zpos m)) as [q r].
  cbn [fst snd] in Hq, Hr. subst q r.
  unfold new_location. destruct (Z.even (Zpos m)); reflexivity.
Qed.

(** The quotient of two finite numbers of the same magnitude is 1 or -1. *)
Lemma div_same_magnitude (a b : float) (sa sb : bool) (m : positive) (e : Z) :
  Prim2SF a = S754_finite sa m e -> Prim2SF b = S754_finite sb m e ->
  a / b = if xorb sa sb then -1 else 1.
Proof.
  intros Ha Hb. apply FloatAxioms.Prim2SF_inj.
  rewrite FloatAxioms.div_spec, Ha, Hb.
  unfold FloatAxioms.SF64div, SFdiv. rewrite div_core_same.
  destruct (xorb sa sb); reflexivity.
Qed.

(** The quotient of a finite number other than zero by its absolute
    value is its sign. *)
Lemma div_abs (d : float) :
  PrimFloat.is_finite d = true -> (d =? 0) = false ->
  d / abs d = (if 0 <? d then 1 else -1) /\ 0 / abs d = 0.
Proof.
  intros Hf Hz. destruct (nonzero_finite d Hf Hz) as (s & m & e & Hd).
  assert (Ha : Prim2SF (abs d) = S754_finite false m e)
    by (rewrite FloatAxioms.abs_spec, Hd; reflexivity).
  split.
  - rewrite (div_same_magnitude d (abs d) s false m e Hd Ha).
    rewrite (positive_sign d s m e Hd). destruct s; reflexivity.
  - exact (zero_div_positive _ m e Ha).
Qed.


Lemma binary_round_aux_abs (s s' : bool) (m e : Z) (l : location) :
  SFabs (binary_round_aux prec emax s m e l) =
  SFabs (binary_round_aux prec emax s' m e l).
Proof.
  unfold binary_round_aux.
  destruct (shr_fexp prec emax m e l) as [mrs' e'].
  destruct (shr_fexp prec emax _ e' loc_Exact) as [mrs'' e''].
  destruct (shr_m mrs'') as [|p|p]; try reflexivity.
  destruct (Z.leb e'' (emax - prec)); reflexivity.
Qed.

Lemma binary_normalize_opp (m e : Z) :
  SFabs (binary_normalize prec emax m e false) =
  SFabs (binary_normalize prec emax (- m) e false).
Proof.
  destruct m as [|p|p]; cbn [Z.opp binary_normalize]; try reflexivity;
    unfold binary_round;
    destruct (shl_align p e _) as [mz ez]; apply binary_round_aux_abs.
Qed.

(** [a - b] and [b - a] differ in the sign at most. *)
Lemma SFsub_swap (a b : spec_float) :
  SFabs (SFsub prec emax a b) = SFabs (SFsub prec emax b a).
Proof.
  destruct a as [sa|sa| |sa ma ea], b as [sb|sb| |sb mb eb];
    try reflexivity; try (destruct sa, sb; reflexivity).
  unfold SFsub. rewrite (Z.min_comm eb ea).
  rewrite binary_normalize_opp. f_equal. f_equal. lia.
Qed.

Lemma SFmul_abs (a b : spec_float) :
  SFabs a = SFabs b -> SFmul prec emax a a = SFmul prec emax b b.
Proof.
  destruct a as [sa|sa| |sa ma ea], b as [sb|sb| |sb mb eb];
    cbn [SFabs]; intros H; try discriminate H; try reflexivity;
    try (destruct sa, sb; reflexivity).
  injection H as -> ->. unfold SFmul. destruct sa, sb; reflexivity.
Qed.

Lemma square_swap (a b : float) : (a - b) * (a - b) = (b - a) * (b - a).
Proof.
  apply FloatAxioms.Prim2SF_inj. rewrite !FloatAxioms.mul_spec, !FloatAxioms.sub_spec.
  apply SFmul_abs, SFsub_swap.
Qed.

(** A square root is NaN or not below zero. *)
Lemma sqrt_sign (a : float) : (0 <=? sqrt a) = true \/ sqrt a = nan.
Proof.
  assert (H : SFleb (S754_zero false) (Prim2SF (sqrt a)) = true \/
              Prim2SF (sqrt a) = S754_nan).
  { rewrite FloatAxioms.sqrt_spec. unfold FloatAxioms.SF64sqrt, SFsqrt.
    destruct (Prim2SF a) as [s|s| |s m e].
    - left. destruct s; reflexivity.
    - destruct s; [right | left]; reflexivity.
    - right. reflexivity.
    - destruct s; [right; reflexivity|].
      destruct (SFsqrt_core_binary prec emax (Z.pos m) e) as [[mz ez] lz].
      unfold binary_round_aux.
      destruct (shr_fexp prec emax mz ez lz) as [mrs' e'].
      destruct (shr_fexp prec emax _ e' loc_Exact) as [mrs'' e''].
      destruct (shr_m mrs'') as [|p|p];
        [left; reflexivity | | right; reflexivity].
      destruct (Z.leb e'' (emax - prec)); left; reflexivity. }
  destruct H as [H | H]; [left | right].
  - rewrite FloatAxioms.leb_spec. exact H.
  - apply FloatAxioms.Prim2SF_inj. rewrite H. reflexivity.
Qed.

End Binary64Facts.

(** ** The local frame of an element *)

Section LocalFrame.
Context {F : Type} {SF : Scalar F}.
Local Open Scope scalar_scope.

(** The unit vector along the element: [x_local] in
    [direction_cosine_matrix]. *)
Definition x_local (b : Beam3D F) : np.vector F :=
  np.vdivs (np.vsub (coords (node2 b)) (coords (node1 b))) (Beam3D.length b).

(** [direction_cosine_matrix] from [x_local] on, and
    [transformation_matrix] from [R] on. *)
Definition frame_of (x_local : np.vector F) : np.matrix F :=
  let temp_vec :=
    if np.allclose (firstn 2 x_local) #0 then [#1; #0; #0] else [#0; #0; #1] in
  let y_local := np.cross temp_vec x_local in
  let y_local :=
    if np.norm y_local <? py.dec 1 6
    then np.cross [#0; #1; #0] x_local
    else y_local in
  let y_local := np.vdivs y_local (np.norm y_local) in
  let z_local := np.cross x_local y_local in
  np.column_stack [x_local; y_local; z_local].

Definition transformation_of (R : np.matrix F) : np.matrix F :=
  let Rt := np.transpose R in
  let T_node := np.eye 7 in
  let T_node := np.set_block T_node 0 0 Rt in
  let T_node := np.set_block T_node 3 3 Rt in
  np.block_diag T_node T_node.

Lemma direction_cosine_frame (b : Beam3D F) :
  Beam3D.direction_cosine_matrix b = frame_of (x_local b).
Proof. reflexivity. Qed.

Lemma transformation_frame (b : Beam3D F) :
  Beam3D.transformation_matrix b = transformation_of (frame_of (x_local b)).
Proof.
  unfold Beam3D.transformation_matrix, transformation_of.
  now rewrite direction_cosine_frame.
Qed.

Lemma x_local_entries (b : Beam3D F) :
  x_local b =
  [ (x (node2 b) - x (node1 b)) / Beam3D.length b;
    (y (node2 b) - y (node1 b)) / Beam3D.length b;
    (z (node2 b) - z (node1 b)) / Beam3D.length b ].
Proof. reflexivity. Qed.


End LocalFrame.

Section AxisAligned.
Local Open Scope float_scope.

(** The element runs along the global axis [k] and its length is
    computed exactly: the two other coordinates of the nodes agree and
    are finite, the difference [d] of the coordinates [k] is finite and
    not zero, and [length] returns [|d|]. *)
Definition along_axis (b : Beam3D float) (k : nat) : Prop :=
  let p1 := coords (node1 b) in
  let p2 := coords (node2 b) in
  let d := np.get p2 k - np.get p1 k in
  (forall j, (j < 3)%nat -> j <> k ->
     np.get p2 j = np.get p1 j /\ PrimFloat.is_finite (np.get p1 j) = true) /\
  PrimFloat.is_finite d = true /\ (d =? 0) = false /\
  Beam3D.length b = abs d.

(** The unit vector along the global axis [k], with the sign [s]. *)
Definition axis_vector (k : nat) (s : float) : np.vector float :=
  map (fun j => if Nat.eqb j k then s else 0) [0; 1; 2]%nat.

Lemma along_axis_x_local (b : Beam3D float) (k : nat) :
  (k < 3)%nat -> along_axis b k ->
  x_local b =
  axis_vector k
    (if 0 <? np.get (coords (node2 b)) k - np.get (coords (node1 b)) k
     then 1 else -1).
Proof.
  intros Hk (Hothers & Hfin & Hnz & HL).
  destruct (div_abs _ Hfin Hnz) as (Hsign & Hzero).
  rewrite x_local_entries, HL. cbn [fsub fdiv float_scalar].
  destruct k as [|[|[|k]]]; [| | |lia].
  - destruct (Hothers 1%nat) as (Hy & Hyf); [lia|lia|].
    destruct (Hothers 2%nat) as (Hz & Hzf); [lia|lia|].
    cbn [coords np.get nth] in *.
    rewrite Hy, Hz, (sub_self_finite _ Hyf), (sub_self_finite _ Hzf).
    rewrite Hsign, Hzero. reflexivity.
  - destruct (Hothers 0%nat) as (Hx & Hxf); [lia|lia|].
    destruct (Hothers 2%nat) as (Hz & Hzf); [lia|lia|].
    cbn [coords np.get nth] in *.
    rewrite Hx, Hz, (sub_self_finite _ Hxf), (sub_self_finite _ Hzf).
    rewrite Hsign, Hzero. reflexivity.
  - destruct (Hothers 0%nat) as (Hx & Hxf); [lia|lia|].
    destruct (Hothers 1%nat) as (Hy & Hyf); [lia|lia|].
    cbn [coords np.get nth] in *.
    rewrite Hx, Hy, (sub_self_finite _ Hxf), (sub_self_finite _ Hyf).
    rewrite Hsign, Hzero. reflexivity.
Qed.

End AxisAligned.

Section Binary64Frame.
Local Open Scope float_scope.









End Binary64Frame.

Section Binary64Orthogonality.
Local Open Scope float_scope.








End Binary64Orthogonality.

Section Binary64Claims.
Local Open Scope float_scope.






End Binary64Claims.

(** ** Elements whose nodes coincide *)

Section Binary64Degenerate.
Local Open Scope float_scope.

Lemma div_nan_nonfinite (x : float) : nonfinite (x / nan).
Proof.
  left. rewrite FloatAxioms.div_spec.
  change (Prim2SF nan) with S754_nan.
  destruct (Prim2SF x); reflexivity.
Qed.

(** Coincident nodes: the length evaluates to zero, or to NaN when a
    coordinate is infinite or NaN, and the unit vector to NaN. *)
Lemma coincident_x_local (b : Beam3D float) :
  coords (node2 b) = coords (node1 b) ->
  (Beam3D.length b = 0 \/ Beam3D.length b = nan) /\
  x_local b = [nan; nan; nan].
Proof.
  unfold coords. intros [= Hx Hy Hz].
  unfold x_local, Beam3D.length.
  cbn [coords np.vsub np.map2 combine map fst snd fsub float_scalar].
  rewrite Hx, Hy, Hz.
  destruct (sub_self (x (node1 b))) as [-> | ->],
           (sub_self (y (node1 b))) as [-> | ->],
           (sub_self (z (node1 b))) as [-> | ->];
    vm_compute; auto.
Qed.

Lemma of_Z_zero : @of_Z float float_scalar 0 = 0.
Proof. reflexivity. Qed.

Lemma geometric_stiffness_no_area (b : Beam3D float) (P : float) :
  (A (section b) =? 0) = true ->
  Beam3D.geometric_stiffness_matrix b P = Raise ZeroDivisionError.
Proof.
  intros HA. unfold Beam3D.geometric_stiffness_matrix, py.truediv.
  rewrite of_Z_zero. cbn [feqb float_scalar].
  rewrite HA. reflexivity.
Qed.

(** C9 (amended): an element whose nodes coincide is not rejected.
    Construction is the record constructor; the length evaluates to
    zero (to NaN when a coordinate is not finite);
    [local_stiffness_matrix], [transformation_matrix] and
    [global_stiffness_matrix] return 14x14 matrices, the first with an
    axial entry [E A / L] that is infinite or NaN, the second built on a
    direction cosine matrix of NaN; [geometric_stiffness_matrix] raises
    [ZeroDivisionError] exactly when the area of the section compares
    equal to zero, and returns a 14x14 matrix otherwise. *)
Theorem degenerate_element_nonfinite (b : Beam3D float) (P : float) :
  coords (node2 b) = coords (node1 b) ->
  (Beam3D.length b = 0 \/ Beam3D.length b = nan) /\
  np.shape_is 14 14 (Beam3D.local_stiffness_matrix b) /\
  PrimFloat.is_finite (np.mget (Beam3D.local_stiffness_matrix b) 0 0) = false /\
  Beam3D.direction_cosine_matrix b =
    [[nan; nan; nan]; [nan; nan; nan]; [nan; nan; nan]] /\
  dims 14 14 (Beam3D.transformation_matrix b) /\
  np.mget (Beam3D.transformation_matrix b) 0 0 = nan /\
  dims 14 14 (Beam3D.global_stiffness_matrix b) /\
  match Beam3D.geometric_stiffness_matrix b P with
  | Ok kg => (A (section b) =? 0) = false /\ dims 14 14 kg
  | Raise e => e = ZeroDivisionError /\ (A (section b) =? 0) = true
  end.
Proof.
  intros H. destruct (coincident_x_local b H) as (HL & Hx).
  split; [exact HL|]. split; [apply local_stiffness_shape|]. split.
  { rewrite local_stiffness_axial_entry.
    apply nonfinite_is_finite.
    apply zero_add_nonfinite, mul_one_nonfinite.
    destruct HL as [-> | ->].
    - apply div_zero_nonfinite. reflexivity.
    - apply div_nan_nonfinite. }
  split.
  { rewrite direction_cosine_frame, Hx. vm_compute. reflexivity. }
  split; [apply transformation_dims|]. split.
  { rewrite transformation_frame, Hx. vm_compute. reflexivity. }
  split; [apply global_stiffness_dims|].
  destruct (A (section b) =? 0) eqn:HA.
  - rewrite (geometric_stiffness_no_area b P HA). split; reflexivity.
  - assert (HA' : @feqb float float_scalar (A (section b)) (of_Z 0) = false)
      by (rewrite of_Z_zero; exact HA).
    destruct (geometric_stiffness_run b P HA') as (kg & -> & Hd & _).
    split; [reflexivity | exact Hd].
Qed.

End Binary64Degenerate.

(** ** The length of an element and the vertical branch *)

Section Binary64Length.
Local Open Scope float_scope.

(** The element between the same nodes in the other order. *)
Definition reversed (b : Beam3D float) : Beam3D float :=
  {| node1 := node2 b; node2 := node1 b;
     material := material b; section := section b |}.

Lemma length_entries (b : Beam3D float) :
  Beam3D.length b =
  sqrt (0 + (x (node2 b) - x (node1 b)) * (x (node2 b) - x (node1 b))
          + (y (node2 b) - y (node1 b)) * (y (node2 b) - y (node1 b))
          + (z (node2 b) - z (node1 b)) * (z (node2 b) - z (node1 b))).
Proof. reflexivity. Qed.

(** X3: the length of an element is NaN or not below zero, is the
    same when the two nodes are swapped, and for nodes with the same
    coordinates it is 0.0, or NaN when a coordinate is infinite or
    NaN. *)
Theorem length_swap_coincident (b : Beam3D float) :
  ((0 <=? Beam3D.length b) = true \/ Beam3D.length b = nan) /\
  Beam3D.length (reversed b) = Beam3D.length b /\
  (coords (node2 b) = coords (node1 b) ->
   Beam3D.length b = 0 \/ Beam3D.length b = nan).
Proof.
  split; [|split].
  - rewrite length_entries. apply sqrt_sign.
  - rewrite !length_entries. cbn [reversed node1 node2].
    now rewrite (square_swap (x (node1 b))), (square_swap (y (node1 b))),
      (square_swap (z (node1 b))).
  - intros H. exact (proj1 (coincident_x_local b H)).
Qed.

End Binary64Length.

Section VerticalElement.
Local Open Scope float_scope.

(** X4: when the unit vector computed along the element is
    [(0, 0, 1)] or [(0, 0, -1)], [direction_cosine_matrix] takes the
    vertical branch: its columns, the local x, y and z axes, are
    [(0, 0, 1)], [(0, -1, 0)], [(1, 0, 0)], respectively [(0, 0, -1)],
    [(0, 1, 0)], [(1, 0, 0)], with one zero entry of negative sign.
    The unit vector is such for an element along the z axis whose
    length is computed exactly. *)
Theorem direction_cosine_z_aligned (b : Beam3D float) :
  (x_local b = [0; 0; 1] ->
   Beam3D.direction_cosine_matrix b = [[0; 0; 1]; [0; -1; 0]; [1; 0; -0]]) /\
  (x_local b = [0; 0; -1] ->
   Beam3D.direction_cosine_matrix b = [[0; -0; 1]; [0; 1; 0]; [-1; 0; 0]]) /\
  (along_axis b 2 ->
   x_local b = [0; 0; if 0 <? z (node2 b) - z (node1 b) then 1 else -1]).
Proof.
  split; [|split].
  - intros H. rewrite direction_cosine_frame, H. vm_compute. reflexivity.
  - intros H. rewrite direction_cosine_frame, H. vm_compute. reflexivity.
  - intros Hax. rewrite (along_axis_x_local b 2 ltac:(lia) Hax). reflexivity.
Qed.

End VerticalElement.

(** ** The static solution *)

Section StaticSolution.
Context {F : Type} {SF : Scalar F}.
Variable linalg_solve : np.matrix F -> np.vector F -> result (np.vector F).







End StaticSolution.

Section UnloadedSolution.
Variable linalg_solve : np.matrix float -> np.vector float -> result (np.vector float).
Local Open Scope float_scope.




End UnloadedSolution.

(** ** The buckling matrices of a model at rest *)

Section ZeroDisplacement.
Variable linalg_solve : np.matrix float -> np.vector float -> result (np.vector float).
Local Open Scope float_scope.

(** A matrix without infinite or NaN entries. *)
Definition finite_matrix (m : np.matrix float) : bool :=
  forallb (forallb PrimFloat.is_finite) m.

Lemma dot_zeros_finite (row : np.vector float) :
  Forall (fun x => PrimFloat.is_finite x = true) row ->
  forall n, np.dot row (np.zeros n) = 0.
Proof.
  unfold np.dot. change (@of_Z float float_scalar 0) with 0.
  induction 1 as [|a row Ha Hrow IH]; intros [|n]; try reflexivity.
  change (np.zeros (S n)) with (0 :: @np.zeros float float_scalar n).
  cbn [combine fold_left fst snd fadd fmul float_scalar].
  rewrite (zero_add_zero_like (a * 0))
    by (apply mul_zero_r, finite_not_nonfinite, Ha).
  apply IH.
Qed.

Lemma matvec_zeros_finite (m : np.matrix float) (n : nat) :
  finite_matrix m = true -> np.matvec m (np.zeros n) = np.zeros (List.length m).
Proof.
  unfold np.matvec, finite_matrix.
  induction m as [|row m IH]; cbn [forallb]; intros H; [reflexivity|].
  apply andb_prop in H. destruct H as [Hrow Hm].
  cbn [map List.length]. rewrite dot_zeros_finite, (IH Hm); [reflexivity|].
  apply Forall_forall. now apply forallb_forall.
Qed.

Lemma element_force_zero (h : store) (n : nat) (el : Beam3D float) :
  finite_matrix (Beam3D.transformation_matrix el) = true ->
  finite_matrix (Beam3D.local_stiffness_matrix el) = true ->
  element_force h (np.zeros n) el = np.zeros 14.
Proof.
  intros HT Hk. unfold element_force.
  rewrite take_zeros, (matvec_zeros_finite _ _ HT), (matvec_zeros_finite _ _ Hk).
  now rewrite (proj1 (local_stiffness_shape el)).
Qed.

(** X19: when the static solution is the zero vector and the
    transformation and local stiffness matrices of the elements hold
    no infinite or NaN entry, every element force is the zero vector,
    and the free block of the geometric stiffness matrix that
    [BucklingSolver.solve] hands to the eigenvalue solver is the zero
    matrix. *)
Theorem buckling_zero_displacement (st st1 : state float) :
  StaticSolver.solve linalg_solve st =
    Ok (np.zeros (7 * List.length (nodes (model st1))), st1) ->
  assembled st1 -> model_wf st1 ->
  all_in_block (constraints (model st1)) = true ->
  forallb (fun el => finite_matrix (Beam3D.transformation_matrix el) &&
                     finite_matrix (Beam3D.local_stiffness_matrix el))
          (elements (model st1)) = true ->
  exists K cons,
    StaticSolver.compute_element_forces
      (np.zeros (7 * List.length (nodes (model st1)))) st1 =
      Ok (map (fun _ => np.zeros 14) (elements (model st1)), st1) /\
    Model.assemble_stiffness st1 = Ok (K, st1) /\
    Model.get_constrained_dofs st1 = Ok (cons, st1) /\
    let free := npi.setdiff1d (npi.arange (7 * List.length (nodes (model st1)))) cons in
    BucklingSolver.stability_matrices linalg_solve st =
      Ok ((np.ix_get K free free,
           np.zeros2 (List.length free) (List.length free), free), st1).
Proof.
  intros Hsolve Hasm Hwf Hall Hfin.
  pose proof Hasm as (Hmap & Hels).
  pose proof Hmap as (_ & _ & _ & _ & Hg & Htot & _).
  set (n := (7 * List.length (nodes (model st1)))%nat) in *.
  destruct (assemble_loop st1 _ Hmap Hels _ (dims_zeros2 n n)) as (K & HK & _ & _).
  rewrite <- Htot in HK at 1 2. rewrite <- (assemble_stiffness_loop st1 Hg) in HK.
  destruct (get_constrained_dofs_spec st1 Hwf) as (st2 & _ & HC).
  rewrite Hall in HC.
  pose proof (get_constrained_dofs_pure _ _ _ Hg HC) as ->.
  assert (HF : StaticSolver.compute_element_forces (np.zeros n) st1 =
               Ok (map (fun _ => np.zeros 14) (elements (model st1)), st1)).
  { unfold StaticSolver.compute_element_forces. unfold mbind at 1, gets at 1.
    change (for_fold (elements (model st1)) _ [] st1)
      with (for_fold (elements (model st1)) (forces_step (np.zeros n)) [] st1).
    rewrite (forces_loop st1 (np.zeros n) Hmap (length_zeros n) _ Hels). cbn [app].
    do 2 f_equal. apply map_ext_in. intros el Hel.
    rewrite forallb_forall in Hfin. specialize (Hfin el Hel).
    apply andb_prop in Hfin. destruct Hfin as [HT Hk].
    now apply element_force_zero. }
  eexists K, _. split; [exact HF|]. split; [exact HK|]. split; [exact HC|].
  cbv zeta. unfold BucklingSolver.stability_matrices.
  unfold mbind at 1. rewrite Hsolve.
  unfold mbind at 1. rewrite HF. unfold mbind at 1. rewrite HK.
  unfold mbind at 1.
  rewrite geometric_stiffness_zero_run; [|exact Hg|].
  2:{ rewrite map_map. apply forallb_forall. intros P HP.
      apply in_map_iff in HP. destruct HP as (el & <- & _).
      rewrite get_zeros. vm_compute. reflexivity. }
  rewrite !length_map, Nat.leb_refl.
  unfold mbind at 1. rewrite HC.
  unfold mbind at 1, gets at 1. rewrite Htot. fold n.
  unfold ret. rewrite ix_get_zeros2. reflexivity.
Qed.

End ZeroDisplacement.

(** ** Concrete models for the further properties (binary64) *)

Lemma ex_mapped_assembled : assembled ex_mapped.
Proof.
  split; [apply ex_mapped_ready|].
  repeat constructor. exists 1%Z, 2%Z.
  split; [now left|]. split; [right; now left | lia].
Qed.

Lemma ex_mapped_wf : model_wf ex_mapped.
Proof.
  split; [apply ex_mapped_ready|]. split; [intros _; apply ex_mapped_ready|].
  intros nid [<- | [<- | []]]; cbn; auto.
Qed.

Lemma ex_mapped_loads : loads_wf (nodes (model ex_mapped)) (loads (model ex_mapped)).
Proof.
  split; [cbn; solve_nodup|].
  intros nid load [[= <- <-] | []]. split; [cbn; auto | reflexivity].
Qed.

Lemma ex_mapped_consistent : consistent ex_mapped.
Proof.
  split; [exact ex_mapped_wf|]. split; [exact ex_mapped_loads|]. cbn. solve_nodup.
Qed.

Lemma assemble_stiffness_square_witness :
  assembled ex_mapped /\
  exists K, Model.assemble_stiffness ex_mapped = Ok (K, ex_mapped) /\ dims 14 14 K.
Proof.
  split; [exact ex_mapped_assembled|].
  exact (assemble_stiffness_square ex_mapped ex_mapped_assembled).
Defined.

(** The model with a second element that ends in a node that was never
    added to it. *)
Definition ex_stray_beam : Beam3D float :=
  {| node1 := ex_n2; node2 := ex_node 7 9 2 0 0;
     material := ex_material; section := ex_section |}.

Definition ex_stray : state float :=
  {| model := {| nodes := nodes (model ex_mapped);
                 elements := [ex_beam; ex_stray_beam];
                 constraints := constraints (model ex_mapped);
                 loads := loads (model ex_mapped);
                 _dof_map_generated := true;
                 total_dofs := 14 |};
     heap := heap ex_mapped |}.

Lemma ex_stray_map : dof_map_of ex_stray ex_stray.
Proof.
  unfold dof_map_of. repeat split; try reflexivity.
  intros nid node [H | [H | []]]; injection H as <- <-; reflexivity.
Qed.

Lemma assemble_stiffness_unmapped_node_witness :
  dof_map_of ex_stray ex_stray /\
  elements (model ex_stray) = [ex_beam] ++ ex_stray_beam :: [] /\
  dof_indices (heap ex_stray) (node2 ex_stray_beam) = [] /\
  Model.assemble_stiffness ex_stray = Raise ValueError.
Proof.
  split; [exact ex_stray_map|]. split; [reflexivity|]. split; [reflexivity|].
  apply (assemble_stiffness_unmapped_node ex_stray [ex_beam] [] ex_stray_beam
           ex_stray_map eq_refl).
  - repeat constructor. exists 1%Z, 2%Z.
    split; [now left|]. split; [right; now left | lia].
  - right. split; [reflexivity|]. exists 2%Z. right. now left.
Defined.

Lemma load_vector_blocks_witness :
  model_wf ex_mapped /\
  loads_wf (nodes (model ex_mapped)) (loads (model ex_mapped)) /\
  exists Fv st1,
    Model.get_load_vector ex_mapped = Ok (Fv, st1) /\
    List.length Fv = 14 /\
    np.take Fv [7; 8; 9; 10; 11; 12; 13] =
      np.vadd (np.zeros 7) [100; 0; 0; 0; 0; 0; 0]%float /\
    np.get Fv 3 = 0%float.
Proof.
  split; [exact ex_mapped_wf|]. split; [exact ex_mapped_loads|].
  destruct (load_vector_blocks ex_mapped ex_mapped_wf ex_mapped_loads)
    as (Fv & st1 & Hrun & Hlen & Hat & Hother).
  exists Fv, st1. split; [exact Hrun|]. split; [exact Hlen|]. split.
  - apply (Hat 2%Z). now left.
  - apply Hother. intros nid [<- | []]. cbn. lia.
Defined.

Lemma constrained_dofs_sorted_witness :
  model_wf ex_mapped /\
  all_in_block (constraints (model ex_mapped)) = true /\
  exists cons st1,
    Model.get_constrained_dofs ex_mapped = Ok (cons, st1) /\
    StronglySorted lt cons /\
    (forall g, In g cons -> g < 14).
Proof.
  split; [exact ex_mapped_wf|]. split; [reflexivity|].
  destruct (constrained_dofs_sorted ex_mapped ex_mapped_wf eq_refl)
    as (cons & st1 & Hrun & Hs & _ & Hlt).
  exists cons, st1. split; [exact Hrun|]. split; [exact Hs | exact Hlt].
Defined.

(** The calls of a small program. *)
Definition ex_calls : list (@call float) :=
  [AddNode ex_n1; AddNode ex_n2; AddElement ex_beam;
   AddConstraint 1 0; AddConstraint 1 (-1);
   AddLoad 2 [100; 0; 0; 0; 0; 0; 0]%float;
   AddLoad 2 [0; 0; 5; 0; 0; 0; 0]%float].

Definition ex_called : state float :=
  match for_each ex_calls run_call (fresh_state empty_store) with
  | Ok (_, s) => s
  | Raise _ => fresh_state empty_store
  end.

Lemma built_model_vectors_witness :
  NoDup (added_refs ex_calls) /\
  for_each ex_calls run_call (fresh_state empty_store) = Ok (tt, ex_called) /\
  (exists Fv st1, Model.get_load_vector ex_called = Ok (Fv, st1) /\
     List.length Fv = 14) /\
  (exists st1, Model.get_constrained_dofs ex_called = Ok ([0; 6], st1)).
Proof.
  assert (Hnd : NoDup (added_refs ex_calls)) by (cbn; solve_nodup).
  assert (Hrun : for_each ex_calls run_call (fresh_state empty_store) = Ok (tt, ex_called))
    by (vm_compute; reflexivity).
  split; [exact Hnd|]. split; [exact Hrun|].
  destruct (built_model_vectors empty_store ex_calls ex_called Hnd Hrun) as [HF HC].
  split; [exact HF|].
  destruct HC as (st1 & HC). exists st1. exact HC.
Defined.

Lemma add_node_renumbers_witness :
  consistent ex_mapped /\
  ~ In 5 (node_refs ex_mapped) /\
  match Model.add_node (ex_node 5 0 0 0 0) ex_mapped with
  | Raise _ => False
  | Ok (_, st1) =>
      exists Fv st2,
        Model.get_load_vector st1 = Ok (Fv, st2) /\
        List.length Fv = 21 /\
        dof_indices (heap st2) (ex_node 5 0 0 0 0) = [0; 1; 2; 3; 4; 5; 6] /\
        dof_indices (heap st2) ex_n1 = [7; 8; 9; 10; 11; 12; 13] /\
        dof_indices (heap st2) ex_n2 = [14; 15; 16; 17; 18; 19; 20]
  end.
Proof.
  assert (Hfresh : ~ In 5 (node_refs ex_mapped)) by (cbn; lia).
  split; [exact ex_mapped_consistent|]. split; [exact Hfresh|].
  pose proof (add_node_renumbers ex_mapped (ex_node 5 0 0 0 0)
                ex_mapped_consistent Hfresh) as H.
  destruct (Model.add_node (ex_node 5 0 0 0 0) ex_mapped) as [[u st1]|e].
  - destruct H as (_ & Fv & st2 & HF & Hlen & Hnew & Hold).
    exists Fv, st2. split; [exact HF|]. split; [exact Hlen|]. split; [exact Hnew|].
    split.
    + apply (Hold 1%Z). now left.
    + apply (Hold 2%Z). right. now left.
  - destruct H as (_ & Hin). cbn in Hin. lia.
Defined.

Lemma add_load_accumulates_witness :
  consistent ex_mapped /\
  match (Model.add_load 1 [1; 0; 0; 0; 0; 0; 0]%float ;;;
         Model.add_load 1 [2; 0; 0; 0; 0; 0; 0]%float)%M ex_mapped with
  | Raise _ => False
  | Ok (_, st2) =>
      dict.get (loads (model st2)) 1 =
        Some (np.vadd (np.vadd (np.zeros 7) [1; 0; 0; 0; 0; 0; 0]%float)
                      [2; 0; 0; 0; 0; 0; 0]%float) /\
      dict.get (loads (model st2)) 2 = Some [100; 0; 0; 0; 0; 0; 0]%float
  end.
Proof.
  split; [exact ex_mapped_consistent|].
  pose proof (add_load_accumulates ex_mapped 1
                [1; 0; 0; 0; 0; 0; 0]%float [2; 0; 0; 0; 0; 0; 0]%float
                ex_mapped_consistent eq_refl eq_refl) as H.
  destruct ((Model.add_load 1 [1; 0; 0; 0; 0; 0; 0]%float ;;;
             Model.add_load 1 [2; 0; 0; 0; 0; 0; 0]%float)%M ex_mapped) as [[u st2]|e].
  - destruct H as (_ & Hget & Hother). split; [exact Hget|].
    rewrite (Hother 2%Z) by lia. reflexivity.
  - destruct H as (_ & Hin). apply Hin. cbn. auto.
Defined.

Lemma geometric_stiffness_negligible_witness :
  _dof_map_generated (model ex_mapped) = true /\
  forallb negligible [0x1p-40%float] = true /\
  Model.assemble_geometric_stiffness [0x1p-40%float] ex_mapped =
    Ok (np.zeros2 14 14, ex_mapped) /\
  Model.assemble_geometric_stiffness [] ex_mapped = Raise IndexError.
Proof.
  split; [reflexivity|]. split; [reflexivity|]. split.
  - exact (geometric_stiffness_negligible ex_mapped [0x1p-40%float] eq_refl eq_refl).
  - exact (geometric_stiffness_negligible ex_mapped [] eq_refl eq_refl).
Defined.

Lemma element_forces_shape_witness :
  assembled ex_mapped /\
  exists forces,
    StaticSolver.compute_element_forces (np.zeros 14) ex_mapped = Ok (forces, ex_mapped) /\
    List.length forces = 1 /\
    Forall (fun f => List.length f = 14) forces.
Proof.
  split; [exact ex_mapped_assembled|].
  exact (element_forces_shape ex_mapped (np.zeros 14) ex_mapped_assembled eq_refl).
Defined.

Lemma buckling_nonpositive_num_modes_witness :
  (-1 <= 0)%Z /\
  exists order : list nat,
    Permutation order (valid_positions fixed_vals) /\
    Sorted (fun a b => PrimFloat.leb a b = true) (map (value fixed_vals) order) /\
    BucklingSolver.solve solve_1x1_float fixed_eig (-1) ex_loaded =
      Ok ((map (value fixed_vals) (firstn (List.length order - 1) order),
           match order with
           | [] => []
           | _ => BucklingSolver.columns (0, 0)%float fixed_vecs
                    (firstn (List.length order - 1) order)
           end,
           [7]), ex_mapped).
Proof.
  assert (Hn : (-1 <= 0)%Z) by lia.
  split; [exact Hn|].
  exact (buckling_nonpositive_num_modes solve_1x1_float fixed_eig ex_loaded ex_mapped
           [[100000%float]] [[0%float]] [7] fixed_vals fixed_vecs (-1)
           Hn ex_stability eq_refl).
Defined.

(** With -1 the largest of the three valid eigenvalues is dropped, and
    with 0 nothing is returned. *)
Example buckling_all_but_last :
  BucklingSolver.solve solve_1x1_float fixed_eig (-1) ex_loaded =
  Ok (([0.5; 1.5]%float, [[(7, 0); (6, 0)]%float], [7]), ex_mapped).
Proof. vm_compute. reflexivity. Qed.

Example buckling_zero_modes :
  BucklingSolver.solve solve_1x1_float fixed_eig 0 ex_loaded =
  Ok (([], [[]], [7]), ex_mapped).
Proof. vm_compute. reflexivity. Qed.

Lemma api_solve_no_elements_witness :
  (0 <= 0)%Z /\
  api.solve solve_1x1_float 100000%float 40000%float 1%float 1%float 1%float 1%float 1%float 2%float 0 1000%float = Raise ZeroDivisionError /\
  api.solve solve_1x1_float 100000%float 40000%float 1%float 1%float 1%float 1%float 1%float 2%float (-3) 1000%float = Raise ValueError.
Proof.
  split; [lia|]. split.
  - exact (api_solve_no_elements solve_1x1_float 100000%float 40000%float 1%float 1%float 1%float 1%float 1%float 2%float 0 1000%float
             ltac:(lia)).
  - exact (api_solve_no_elements solve_1x1_float 100000%float 40000%float 1%float 1%float 1%float 1%float 1%float 2%float (-3) 1000%float
             ltac:(lia)).
Defined.



Lemma assemble_geometric_stiffness_cases_witness :
  assembled ex_mapped /\
  List.length (elements (model ex_mapped)) <= List.length [(-1000)%float] /\
  exists Kg,
    Model.assemble_geometric_stiffness [(-1000)%float] ex_mapped = Ok (Kg, ex_mapped) /\
    dims 14 14 Kg.
Proof.
  split; [exact ex_mapped_assembled|]. split; [cbn; lia|].
  pose proof (assemble_geometric_stiffness_cases ex_mapped [(-1000)%float]
                ex_mapped_assembled ltac:(cbn; lia)) as H.
  destruct (Model.assemble_geometric_stiffness [(-1000)%float] ex_mapped) as [[Kg st1]|e].
  - destruct H as (-> & Hd & _). exists Kg. split; [reflexivity | exact Hd].
  - destruct H as (_ & i & el & P & Hi & _ & _ & HA). exfalso.
    destruct i as [|i]; cbn in Hi; [|destruct i; discriminate].
    injection Hi as <-. vm_compute in HA. discriminate.
Defined.

(** ** Concrete elements and models for the binary64 properties *)

Section Binary64Examples.
Local Open Scope float_scope.

(** *** Elements of extreme length *)










(** *** The length of an element and the vertical branch *)

(** An element along the z axis, from the origin to (0, 0, 3). *)
Definition ex_beam_z : Beam3D float :=
  {| node1 := ex_node 0 1 0 0 0; node2 := ex_node 1 2 0 0 3;
     material := ex_material; section := ex_section |}.

Lemma ex_beam_z_along : along_axis ex_beam_z 2.
Proof.
  split; [|split; [|split]]; try (vm_compute; reflexivity).
  intros j Hj Hk. destruct j as [|[|[|j]]]; try lia;
    split; vm_compute; reflexivity.
Qed.

Lemma direction_cosine_z_aligned_witness :
  along_axis ex_beam_z 2 /\
  x_local ex_beam_z = [0; 0; 1] /\
  Beam3D.direction_cosine_matrix ex_beam_z = [[0; 0; 1]; [0; -1; 0]; [1; 0; -0]].
Proof.
  pose proof (direction_cosine_z_aligned ex_beam_z) as (Hup & _ & Hax).
  specialize (Hax ex_beam_z_along).
  split; [exact ex_beam_z_along|]. split; [exact Hax|].
  exact (Hup Hax).
Defined.

(** Two distinct nodes, 1e-200 apart: the square of the distance
    underflows and the length evaluates to zero. *)
Definition ex_beam_short : Beam3D float :=
  {| node1 := ex_node 0 1 0 0 0;
     node2 := ex_node 1 2 0x1.87e92154ef7acp-665 0 0;
     material := ex_material; section := ex_section |}.

Example length_underflow :
  coords (node2 ex_beam_short) <> coords (node1 ex_beam_short) /\
  Beam3D.length ex_beam_short = 0.
Proof.
  split; [|vm_compute; reflexivity].
  intros H. apply (f_equal (fun v => np.get v 0 =? 0)) in H.
  vm_compute in H. discriminate H.
Qed.

Lemma length_swap_coincident_witness :
  coords (node2 degenerate_beam) = coords (node1 degenerate_beam) /\
  Beam3D.length degenerate_beam = 0 /\
  Beam3D.length (reversed ex_beam_y) = Beam3D.length ex_beam_y.
Proof.
  pose proof (length_swap_coincident degenerate_beam) as (_ & _ & H0).
  split; [reflexivity|]. split.
  - destruct (H0 eq_refl) as [H | H]; [exact H|].
    vm_compute in H. discriminate H.
  - exact (proj1 (proj2 (length_swap_coincident ex_beam_y))).
Defined.

(** *** The buckling modes of a fixed spectrum *)

Lemma buckling_modes_selected_witness :
  (1 <= 2)%Z /\
  exists (order : list nat) (modes : list (list (complex float))),
    NoDup order /\
    (forall i, In i order <->
       (i < List.length fixed_vals)%nat /\
       passes_filter (nth i fixed_vals (0, 0)) = true) /\
    Sorted (fun a b => (a <=? b) = true) (map (value fixed_vals) order) /\
    let kept := firstn (Z.to_nat 2) order in
    BucklingSolver.solve solve_1x1_float fixed_eig 2 ex_loaded =
      Ok ((map (value fixed_vals) kept, modes, [7%nat]), ex_mapped) /\
    (order = [] -> modes = []) /\
    (order <> [] ->
       List.length modes = List.length fixed_vecs /\
       Forall (fun row => List.length row = List.length kept) modes /\
       forall k, (k < List.length kept)%nat ->
         column (0, 0) modes k = column (0, 0) fixed_vecs (nth k kept 0%nat)).
Proof.
  assert (Hn : (1 <= 2)%Z) by lia.
  split; [exact Hn|].
  exact (buckling_modes_selected solve_1x1_float fixed_eig ex_loaded ex_mapped
           [[100000]] [[0]] [7%nat] fixed_vals fixed_vecs 2
           Hn ex_stability eq_refl).
Defined.

(** A spectrum of one eigenvalue, 2 + 2^-1000 i: finite, above 1e-6,
    and with an imaginary part that [numpy.isclose] does not tell from
    zero. *)
Definition near_real_eig (a b : np.matrix float)
  : result (list (complex float) * list (list (complex float))) :=
  Ok ([(2, 0x1p-1000)], [[(1, 0)]]).

(** The eigenvalue is dropped all the same: an imaginary part that is
    negligible but not zero does not pass the filter. *)
Lemma near_real_eigenvalue_dropped :
  let v : complex float := (2, 0x1p-1000) in
  np.isclose (imag v) 0 = true /\
  PrimFloat.is_finite (real v) = true /\
  PrimFloat.is_finite (imag v) = true /\
  (py.dec 1 6 <? real v) = true /\
  BucklingSolver.solve solve_1x1_float near_real_eig 1 ex_loaded =
    Ok (([], [], [7%nat]), ex_mapped).
Proof. repeat split; vm_compute; reflexivity. Qed.

(** *** The static solution of the loaded model *)



(** *** The model without loads *)

Definition ex_unloaded : state float :=
  {| model := {| nodes := [(1%Z, ex_n1); (2%Z, ex_n2)];
                 elements := [ex_beam];
                 constraints := [(1%Z, [0; 1; 2; 3; 4; 5; 6]%Z);
                                 (2%Z, [1; 2; 3; 4; 5; 6]%Z)];
                 loads := [];
                 _dof_map_generated := false;
                 total_dofs := 0 |};
     heap := empty_store |}.



(** The run itself: the solver is asked for 100000 u = 0 and the
    displacement vector is zero. *)
Example static_unloaded_run :
  exists st1,
    StaticSolver.solve solve_1x1_float ex_unloaded = Ok (np.zeros 14, st1).
Proof. eexists. vm_compute. reflexivity. Qed.

(** *** The element between two nodes at the same point *)

Lemma degenerate_element_nonfinite_witness :
  coords (node2 degenerate_beam) = coords (node1 degenerate_beam) /\
  Beam3D.length degenerate_beam = 0 /\
  np.shape_is 14 14 (Beam3D.local_stiffness_matrix degenerate_beam) /\
  PrimFloat.is_finite (np.mget (Beam3D.local_stiffness_matrix degenerate_beam) 0 0) = false /\
  np.mget (Beam3D.transformation_matrix degenerate_beam) 0 0 = nan /\
  exists kg, Beam3D.geometric_stiffness_matrix degenerate_beam 1 = Ok kg /\
             dims 14 14 kg.
Proof.
  split; [reflexivity|].
  destruct (degenerate_element_nonfinite degenerate_beam 1 eq_refl)
    as (HL & Hs & Hf & _ & _ & HT & _ & Hg).
  split; [vm_compute; reflexivity|]. split; [exact Hs|]. split; [exact Hf|].
  split; [exact HT|].
  destruct (Beam3D.geometric_stiffness_matrix degenerate_beam 1) as [kg | e].
  - exists kg. split; [reflexivity | exact (proj2 Hg)].
  - destruct Hg as (_ & HA). vm_compute in HA. discriminate HA.
Defined.

(** *** The buckling matrices of the model without loads *)

Definition ex_unloaded_mapped : state float :=
  match Model._generate_dof_map ex_unloaded with
  | Ok (_, s) => s
  | Raise _ => ex_unloaded
  end.

Lemma ex_unloaded_map : dof_map_of ex_unloaded_mapped ex_unloaded_mapped.
Proof.
  unfold dof_map_of. repeat split; try reflexivity.
  intros nid node [H | [H | []]]; injection H as <- <-; reflexivity.
Qed.

Lemma buckling_zero_displacement_witness :
  StaticSolver.solve solve_1x1_float ex_unloaded =
    Ok (np.zeros (7 * List.length (nodes (model ex_unloaded_mapped))),
        ex_unloaded_mapped) /\
  exists K cons,
    StaticSolver.compute_element_forces
      (np.zeros (7 * List.length (nodes (model ex_unloaded_mapped)))) ex_unloaded_mapped =
      Ok (map (fun _ => np.zeros 14) (elements (model ex_unloaded_mapped)),
          ex_unloaded_mapped) /\
    Model.assemble_stiffness ex_unloaded_mapped = Ok (K, ex_unloaded_mapped) /\
    Model.get_constrained_dofs ex_unloaded_mapped = Ok (cons, ex_unloaded_mapped) /\
    let free :=
      npi.setdiff1d
        (npi.arange (7 * List.length (nodes (model ex_unloaded_mapped)))) cons in
    BucklingSolver.stability_matrices solve_1x1_float ex_unloaded =
      Ok ((np.ix_get K free free,
           np.zeros2 (List.length free) (List.length free), free),
          ex_unloaded_mapped).
Proof.
  assert (Hsolve : StaticSolver.solve solve_1x1_float ex_unloaded =
            Ok (np.zeros (7 * List.length (nodes (model ex_unloaded_mapped))),
                ex_unloaded_mapped)) by (vm_compute; reflexivity).
  assert (Hasm : assembled ex_unloaded_mapped).
  { split; [exact ex_unloaded_map|].
    repeat constructor. exists 1%Z, 2%Z.
    split; [now left|]. split; [right; now left | lia]. }
  assert (Hwf : model_wf ex_unloaded_mapped).
  { split; [split; cbn; solve_nodup|]. split; [intros _; exact ex_unloaded_map|].
    intros nid [<- | [<- | []]]; cbn; auto. }
  assert (Hfin : forallb (fun el => finite_matrix (Beam3D.transformation_matrix el) &&
                                    finite_matrix (Beam3D.local_stiffness_matrix el))
                         (elements (model ex_unloaded_mapped)) = true)
    by (vm_compute; reflexivity).
  split; [exact Hsolve|].
  exact (buckling_zero_displacement solve_1x1_float ex_unloaded ex_unloaded_mapped
           Hsolve Hasm Hwf eq_refl Hfin).
Defined.

End Binary64Examples.
